(** * fracdex: fractional-index order keys

    A shallow embedding of the Go package [fracdex] (base-62 integer codec,
    midpoint engine, key API, jittered variant, float approximation, keys at
    a distance, jitter on an existing key, ranks in buckets) and the
    properties of its specification, followed by further properties of the
    code.

    Go strings are byte sequences: they are modelled by [string] (a list of
    8-bit [ascii]), [len] by [String.length], the comparison operators of Go
    on strings by [String.compare] (byte-wise lexicographic order).  Go's
    [int] is modelled by [Z]: indices of a string and digit values are far
    below the 64-bit limit, and so are the sums with [jitterRange] and with
    the draws of a jitter source as long as these stay below 2^62.  The
    count [n] of [NKeysBetween], a [uint], is a [nat]; the memory that the
    result takes is not modelled.
    A run-time panic (index or slice out of range) is an outcome of its own,
    [Panic]; a Go result [(v, err)] is a pair whose second component is
    [None] for [nil] and [Some msg] for an error with message [msg]. *)

From Stdlib Require Import ZArith Lia List Bool Ascii String Arith Sorted.
From Stdlib Require Import Floats.
From Stdlib Require Import DecimalString DecimalPos DecimalZ.
Import ListNotations.

Local Open Scope string_scope.
Local Open Scope Z_scope.

(** ** Outcomes of Go code *)

Inductive go (A : Type) : Type :=
| Ret (a : A)
| Panic.
Arguments Ret {A} a.
Arguments Panic {A}.

Definition error : Type := option string.
Abbreviation nil_err := (@None string) (only parsing).

Definition go_bind {A B} (m : go A) (k : A -> go B) : go B :=
  match m with
  | Ret a => k a
  | Panic => Panic
  end.

Notation "x <- m ;; k" := (go_bind m (fun x => k))
  (at level 61, m at next level, right associativity).

(** [v, err := m; if err != nil { return "", err }; k v] *)
Definition go_try {A} (m : go (A * error)) (k : A -> go (string * error))
  : go (string * error) :=
  match m with
  | Panic => Panic
  | Ret (_, Some e) => Ret ("", Some e)
  | Ret (v, None) => k v
  end.

Notation "'try' x <- m ;; k" := (go_try m (fun x => k))
  (at level 61, x name, m at next level, right associativity).

(** ** Bytes and strings *)

Definition code (c : ascii) : Z := Z.of_N (N_of_ascii c).
Definition byte_of (z : Z) : ascii := ascii_of_N (Z.to_N (z mod 256)).

Definition len (s : string) : Z := Z.of_nat (String.length s).

(** [s[:n]] and [s[n:]]; the code slices only within bounds. *)
Fixpoint take (n : nat) (s : string) : string :=
  match n, s with
  | S n', String c s' => String c (take n' s')
  | _, _ => ""
  end.

Fixpoint drop (n : nat) (s : string) : string :=
  match n, s with
  | S n', String _ s' => drop n' s'
  | _, _ => s
  end.

(** Go's [a < b], [a >= b] and [a == b] on strings. *)
Definition str_lt (a b : string) : Prop := String.compare a b = Lt.
Definition str_ltb (a b : string) : bool := String.ltb a b.
Definition str_geb (a b : string) : bool := negb (String.ltb a b).
Definition str_gtb (a b : string) : bool := String.ltb b a.

(** [string(c)] for a byte [c]: the UTF-8 encoding of the code point [c]. *)
Definition string_of_byte (c : ascii) : string :=
  if code c <? 128 then String c ""
  else String (byte_of (Z.lor 192 (Z.shiftr (code c) 6)))
         (String (byte_of (Z.lor 128 (Z.land (code c) 63))) "").

(** [strings.HasSuffix(s, suf)] *)
Definition HasSuffix (s suf : string) : bool :=
  (String.length suf <=? String.length s)%nat &&
  String.eqb (drop (String.length s - String.length suf) s) suf.

(** [strings.Index(s, sub)]: first position of [sub] in [s], or -1. *)
Fixpoint Index_from (i : Z) (s sub : string) : Z :=
  if String.prefix sub s then i
  else match s with
       | "" => -1
       | String _ s' => Index_from (i + 1) s' sub
       end.

Definition Index (s sub : string) : Z := Index_from 0 s sub.

(** [strings.Join(l, "")] *)
Definition Join (l : list string) : string := String.concat "" l.

(** *** [strings.Split(s, "")]: one string per UTF-8 sequence

    [rune_size s] is the width [utf8.DecodeRuneInString] reports for the
    first character of a non-empty [s]: the length of a well-formed UTF-8
    sequence, and 1 for a byte that does not start one (such a byte is an
    element of its own, as in the Go releases that accept the range loops of
    the test file). *)

Definition between (lo hi : Z) (c : ascii) : bool :=
  (lo <=? code c) && (code c <=? hi).

Definition rune_size (s : string) : nat :=
  match s with
  | "" => 0%nat
  | String c0 r =>
    if code c0 <? 128 then 1%nat
    else if between 194 223 c0 then
      match r with
      | String c1 _ => if between 128 191 c1 then 2%nat else 1%nat
      | _ => 1%nat
      end
    else if between 224 239 c0 then
      let lo := if code c0 =? 224 then 160 else 128 in
      let hi := if code c0 =? 237 then 159 else 191 in
      match r with
      | String c1 (String c2 _) =>
        if between lo hi c1 && between 128 191 c2 then 3%nat else 1%nat
      | _ => 1%nat
      end
    else if between 240 244 c0 then
      let lo := if code c0 =? 240 then 144 else 128 in
      let hi := if code c0 =? 244 then 143 else 191 in
      match r with
      | String c1 (String c2 (String c3 _)) =>
        if between lo hi c1 && between 128 191 c2 && between 128 191 c3
        then 4%nat else 1%nat
      | _ => 1%nat
      end
    else 1%nat
  end.

Fixpoint explode (fuel : nat) (s : string) : list string :=
  match fuel, s with
  | S fuel', String _ _ =>
    let k := rune_size s in take k s :: explode fuel' (drop k s)
  | _, _ => []
  end.

Definition Split (s : string) : list string := explode (String.length s) s.

(** ** Constants *)

Definition base62Digits : string :=
  "0123456789ABCDEFGHIJKLMNOPQRSTUVWXYZabcdefghijklmnopqrstuvwxyz".
Definition smallestInt : string := "A00000000000000000000000000".
Definition zero : string := "a0".

(** [base62Digits[d]]: panics outside [0, 62). *)
Definition digit_at (d : Z) : go ascii :=
  if (0 <=? d) && (d <? len base62Digits) then
    match String.get (Z.to_nat d) base62Digits with
    | Some c => Ret c
    | None => Panic
    end
  else Panic.

(** [s[0]]: panics on the empty string. *)
Definition first_byte (s : string) : go ascii :=
  match s with
  | String c _ => Ret c
  | "" => Panic
  end.

(** ** Base-62 integer codec *)

Definition getIntLen (head : ascii) : Z * error :=
  if (code "a" <=? code head) && (code head <=? code "z") then
    (code head - code "a" + 2, nil_err)
  else if (code "A" <=? code head) && (code head <=? code "Z") then
    (code "Z" - code head + 2, nil_err)
  else (0, Some ("invalid order key head: " ++ string_of_byte head)).

Definition validateInt (i : string) : go error :=
  h <- first_byte i ;;
  match getIntLen h with
  | (_, Some e) => Ret (Some e)
  | (exp, None) =>
    if negb (len i =? exp)
    then Ret (Some ("invalid integer part of order key: " ++ i))
    else Ret nil_err
  end.

Definition getIntPart (key : string) : go (string * error) :=
  h <- first_byte key ;;
  match getIntLen h with
  | (_, Some e) => Ret ("", Some e)
  | (intPartLen, None) =>
    if len key <? intPartLen
    then Ret ("", Some ("invalid order key: " ++ key))
    else Ret (take (Z.to_nat intPartLen) key, nil_err)
  end.

Definition validateOrderKey (key : string) : go error :=
  if String.eqb key smallestInt
  then Ret (Some ("invalid order key: " ++ key))
  else
    r <- getIntPart key ;;
    match r with
    | (_, Some e) => Ret (Some e)
    | (i, None) =>
      let f := drop (String.length i) key in
      if HasSuffix f "0"
      then Ret (Some ("invalid order key: " ++ key))
      else Ret nil_err
    end.

(** [digs[1:]]: panics on an empty slice. *)
Definition tail_slice {A} (l : list A) : go (list A) :=
  match l with
  | _ :: t => Ret t
  | [] => Panic
  end.

(** The carry loop of [incrementInt], from the last digit to the first:
    [for i := len(digs) - 1; carry && i >= 0; i--]. *)
Fixpoint incr_loop (digs : list string) : go (list string * bool) :=
  match digs with
  | [] => Ret ([], true)
  | dg :: rest =>
    r <- incr_loop rest ;;
    let '(rest', carry) := r in
    if carry then
      let d := Index base62Digits dg + 1 in
      if d =? len base62Digits then Ret ("0" :: rest', true)
      else c <- digit_at d ;; Ret (string_of_byte c :: rest', false)
    else Ret (dg :: rest', false)
  end.

Definition incrementInt (x : string) : go (string * error) :=
  err <- validateInt x ;;
  match err with
  | Some e => Ret ("", Some e)
  | None =>
    match Split x with
    | [] => Panic
    | head :: digs =>
      r <- incr_loop digs ;;
      let '(digs, carry) := r in
      if carry then
        if String.eqb head "Z" then Ret ("a0", nil_err)
        else if String.eqb head "z" then Ret ("", nil_err)
        else
          h0 <- first_byte head ;;
          let h := string_of_byte (byte_of (code h0 + 1)) in
          digs' <- (if str_gtb h "a" then Ret (digs ++ ["0"])%list
                    else tail_slice digs) ;;
          Ret (h ++ Join digs', nil_err)
      else Ret (head ++ Join digs, nil_err)
    end
  end.

(** The borrow loop of [decrementInt]. *)
Fixpoint decr_loop (digs : list string) : go (list string * bool) :=
  match digs with
  | [] => Ret ([], true)
  | dg :: rest =>
    r <- decr_loop rest ;;
    let '(rest', borrow) := r in
    if borrow then
      let d := Index base62Digits dg - 1 in
      if d =? -1 then
        c <- digit_at (len base62Digits - 1) ;;
        Ret (string_of_byte c :: rest', true)
      else c <- digit_at d ;; Ret (string_of_byte c :: rest', false)
    else Ret (dg :: rest', false)
  end.

Definition decrementInt (x : string) : go (string * error) :=
  err <- validateInt x ;;
  match err with
  | Some e => Ret ("", Some e)
  | None =>
    match Split x with
    | [] => Panic
    | head :: digs =>
      r <- decr_loop digs ;;
      let '(digs, borrow) := r in
      if borrow then
        if String.eqb head "a" then
          c <- digit_at (len base62Digits - 1) ;;
          Ret ("Z" ++ string_of_byte c, nil_err)
        else if String.eqb head "A" then Ret ("", nil_err)
        else
          h0 <- first_byte head ;;
          let h := byte_of (code h0 - 1) in
          digs' <- (if code h <? code "Z"
                    then c <- digit_at (len base62Digits - 1) ;;
                         Ret (digs ++ [string_of_byte c])%list
                    else tail_slice digs) ;;
          Ret (string_of_byte h ++ Join digs', nil_err)
      else Ret (head ++ Join digs, nil_err)
    end
  end.

(** ** Midpoint engine *)

(** The common-prefix loop of [midpoint]: the number of leading bytes of [b]
    that agree with [a] padded with '0'. *)
Fixpoint prefix_len (a b : string) : nat :=
  match b with
  | "" => 0%nat
  | String y b' =>
    let c := match a with String x _ => x | "" => "0"%char end in
    if Ascii.eqb c y
    then S (prefix_len (match a with String _ a' => a' | "" => "" end) b')
    else 0%nat
  end.

(** [int(math.Round(0.5 * float64(s)))]: halves are rounded away from zero;
    the float arithmetic is exact on the small integers involved. *)
Definition round_half (s : Z) : Z :=
  if 0 <=? s then (s + 1) / 2 else - ((1 - s) / 2).

Fixpoint midpoint_fuel (fuel : nat) (a b : string) : option (go string) :=
  match fuel with
  | O => None
  | S fuel' =>
    let i := if String.eqb b "" then 0%nat else prefix_len a b in
    if (0 <? i)%nat then
      match
        (if (String.length a <? i)%nat
         then midpoint_fuel fuel' "" (drop i b)
         else midpoint_fuel fuel' (drop i a) (drop i b))
      with
      | None => None
      | Some r => Some (m <- r ;; Ret (take i b ++ m))
      end
    else
      let digitA := match a with
                    | "" => 0
                    | String a0 _ => Index base62Digits (string_of_byte a0)
                    end in
      let digitB := match b with
                    | "" => len base62Digits
                    | String b0 _ => Index base62Digits (string_of_byte b0)
                    end in
      if 1 <? digitB - digitA then
        let midDigit := round_half (digitA + digitB) in
        Some (c <- digit_at midDigit ;; Ret (string_of_byte c))
      else if 1 <? len b then Some (Ret (take 1 b))
      else
        let sa := match a with String _ a' => a' | "" => "" end in
        match digit_at digitA with
        | Panic => Some Panic
        | Ret c =>
          match midpoint_fuel fuel' sa "" with
          | None => None
          | Some r => Some (m <- r ;; Ret (string_of_byte c ++ m))
          end
        end
  end.

Definition midpoint (a b : string) : go string :=
  match midpoint_fuel (S (String.length a + String.length b)) a b with
  | Some r => r
  | None => Panic
  end.

(** ** Key API *)

(** [if k != "" { err := validateOrderKey(k); if err != nil { return "", err } }] *)
Definition check_key {R} (k : string) (fail : string -> go R) (cont : go R)
  : go R :=
  if String.eqb k "" then cont
  else
    err <- validateOrderKey k ;;
    match err with
    | Some e => fail e
    | None => cont
    end.

Definition KeyBetween (a b : string) : go (string * error) :=
  check_key a (fun e => Ret ("", Some e)) (
  check_key b (fun e => Ret ("", Some e)) (
  if negb (String.eqb a "") && negb (String.eqb b "") && str_geb a b
  then Ret ("", Some (a ++ " >= " ++ b))
  else if String.eqb a "" then
    if String.eqb b "" then Ret (zero, nil_err)
    else
      try ib <- getIntPart b ;;
      let fb := drop (String.length ib) b in
      if String.eqb ib smallestInt then
        m <- midpoint "" fb ;; Ret (ib ++ m, nil_err)
      else if str_ltb ib b then Ret (ib, nil_err)
      else
        try res <- decrementInt ib ;;
        if String.eqb res "" then Ret ("", Some "range underflow")
        else Ret (res, nil_err)
  else if String.eqb b "" then
    try ia <- getIntPart a ;;
    let fa := drop (String.length ia) a in
    try i <- incrementInt ia ;;
    if String.eqb i "" then
      m <- midpoint fa "" ;; Ret (ia ++ m, nil_err)
    else Ret (i, nil_err)
  else
    try ia <- getIntPart a ;;
    let fa := drop (String.length ia) a in
    try ib <- getIntPart b ;;
    let fb := drop (String.length ib) b in
    if String.eqb ia ib then
      m <- midpoint fa fb ;; Ret (ia ++ m, nil_err)
    else
      try i <- incrementInt ia ;;
      if String.eqb i "" then Ret ("", Some "range overflow")
      else if str_ltb i b then Ret (i, nil_err)
      else m <- midpoint fa "" ;; Ret (ia ++ m, nil_err))).

(** [c, err := m; if err != nil { return nil, err }; k c] *)
Definition go_tryl {A} (m : go (A * error))
  (k : A -> go (list string * error)) : go (list string * error) :=
  match m with
  | Panic => Panic
  | Ret (_, Some e) => Ret ([], Some e)
  | Ret (v, None) => k v
  end.

Notation "'tryl' x <- m ;; k" := (go_tryl m (fun x => k))
  (at level 61, x name, m at next level, right associativity).

(** The loop of [NKeysBetween] for an open upper bound: [count] more keys,
    each above the previous one, appended to [result]. *)
Fixpoint chain_up (count : nat) (c b : string) (result : list string)
  : go (list string * error) :=
  match count with
  | O => Ret (result, nil_err)
  | S count' =>
    tryl c' <- KeyBetween c b ;;
    chain_up count' c' b (result ++ [c'])
  end.

(** The loop for an open lower bound: each key below the previous one. *)
Fixpoint chain_down (count : nat) (a c : string) (result : list string)
  : go (list string * error) :=
  match count with
  | O => Ret (result, nil_err)
  | S count' =>
    tryl c' <- KeyBetween a c ;;
    chain_down count' a c' (result ++ [c'])
  end.

(** [reverse] swaps the slice in place, end for end. *)
Definition reverse (values : list string) : list string := rev values.

Fixpoint NKeysBetween_fuel (fuel : nat) (a b : string) (n : nat)
  : option (go (list string * error)) :=
  match fuel with
  | O => None
  | S fuel' =>
    if (n =? 0)%nat then Some (Ret ([], nil_err))
    else if (n =? 1)%nat then
      Some (tryl c <- KeyBetween a b ;; Ret ([c], nil_err))
    else if String.eqb b "" then
      Some (tryl c <- KeyBetween a b ;; chain_up (n - 1) c b [c])
    else if String.eqb a "" then
      Some (tryl c <- KeyBetween a b ;;
            r <- chain_down (n - 1) a c [c] ;;
            match r with
            | (_, Some e) => Ret ([], Some e)
            | (result, None) => Ret (reverse result, nil_err)
            end)
    else
      let mid := (n / 2)%nat in
      match KeyBetween a b with
      | Panic => Some Panic
      | Ret (_, Some e) => Some (Ret ([], Some e))
      | Ret (c, None) =>
        match NKeysBetween_fuel fuel' a c mid with
        | None => None
        | Some Panic => Some Panic
        | Some (Ret (_, Some e)) => Some (Ret ([], Some e))
        | Some (Ret (r1, None)) =>
          match NKeysBetween_fuel fuel' c b (n - mid - 1)%nat with
          | None => None
          | Some Panic => Some Panic
          | Some (Ret (_, Some e)) => Some (Ret ([], Some e))
          | Some (Ret (r2, None)) => Some (Ret ((r1 ++ [c]) ++ r2, nil_err))%list
          end
        end
      end
  end.

Definition NKeysBetween (a b : string) (n : nat) : go (list string * error) :=
  match NKeysBetween_fuel (S n) a b n with
  | Some r => r
  | None => Panic
  end.

(** ** Jittered variant (jitter.go)

    A jitter source is an object with one method, [IntnRange(min, max)],
    whose answers may depend on the calls made before: it is a state [J]
    and a transition that returns the draw and the next state. *)

Section Jitter.

Variable J : Type.
Variable IntnRange : J -> Z -> Z -> Z * J.

Fixpoint midpointJitter_fuel (fuel : nat) (a b : string) (j : J)
  (jitterRange : Z) : option (go (string * J)) :=
  match fuel with
  | O => None
  | S fuel' =>
    let i := if String.eqb b "" then 0%nat else prefix_len a b in
    if (0 <? i)%nat then
      match
        (if (String.length a <? i)%nat
         then midpointJitter_fuel fuel' "" (drop i b) j jitterRange
         else midpointJitter_fuel fuel' (drop i a) (drop i b) j jitterRange)
      with
      | None => None
      | Some r => Some (m <- r ;; Ret (take i b ++ fst m, snd m))
      end
    else
      let digitA := match a with
                    | "" => 0
                    | String a0 _ => Index base62Digits (string_of_byte a0)
                    end in
      let digitB := match b with
                    | "" => len base62Digits
                    | String b0 _ => Index base62Digits (string_of_byte b0)
                    end in
      if 1 <? digitB - digitA then
        let interior := digitB - digitA - 1 in
        let center := digitA + 1 + Z.quot interior 2 in
        let '(d1, j1) := IntnRange j 0 jitterRange in
        let lo := Z.max (digitA + 1) (center - d1) in
        let '(d2, j2) := IntnRange j1 0 jitterRange in
        let hi := Z.min (digitB - 1) (center + d2) in
        let '(pick, j3) := if lo <? hi then IntnRange j2 lo hi else (lo, j2) in
        Some (c <- digit_at pick ;; Ret (string_of_byte c, j3))
      else
        match b with
        | String head (String b1 _) =>
          let upper := Index base62Digits (string_of_byte b1) - 1 in
          let low := 0 in
          let high := upper in
          if high <? low then Some (Ret (take 1 b, j))
          else
            let '(pickIdx, j1) :=
              if 1 <=? high
              then IntnRange j 1 (Z.min high (1 + jitterRange))
              else (1, j) in
            Some (c <- digit_at pickIdx ;;
                  Ret (string_of_byte head ++ string_of_byte c, j1))
        | _ =>
          let sa := match a with String _ a' => a' | "" => "" end in
          match digit_at digitA with
          | Panic => Some Panic
          | Ret c =>
            match midpointJitter_fuel fuel' sa "" j jitterRange with
            | None => None
            | Some r => Some (m <- r ;; Ret (string_of_byte c ++ fst m, snd m))
            end
          end
        end
  end.

Definition midpointJitter (a b : string) (j : J) (jitterRange : Z)
  : go (string * J) :=
  match midpointJitter_fuel (S (String.length a + String.length b))
          a b j jitterRange with
  | Some r => r
  | None => Panic
  end.

(** [v, err := m; if err != nil { return "", err }; k v], the jitter source
    left as it is. *)
Definition go_tryj {A} (j : J) (m : go (A * error))
  (k : A -> go ((string * error) * J)) : go ((string * error) * J) :=
  match m with
  | Panic => Panic
  | Ret (_, Some e) => Ret (("", Some e), j)
  | Ret (v, None) => k v
  end.

Notation "'tryj' [ j ] x <- m ;; k" := (go_tryj j m (fun x => k))
  (at level 61, x name, m at next level, right associativity).

(** [keyBetweenInternal] of jitter.go. *)
Definition keyBetweenInternal (a b : string) (j : J) (jitterRange : Z)
  : go ((string * error) * J) :=
  check_key a (fun e => Ret (("", Some e), j)) (
  check_key b (fun e => Ret (("", Some e), j)) (
  if negb (String.eqb a "") && negb (String.eqb b "") && str_geb a b
  then Ret (("", Some (a ++ " >= " ++ b)), j)
  else if String.eqb a "" then
    if String.eqb b "" then Ret ((zero, nil_err), j)
    else
      tryj [j] ib <- getIntPart b ;;
      let fb := drop (String.length ib) b in
      if String.eqb ib smallestInt then
        m <- midpointJitter "" fb j jitterRange ;;
        Ret ((ib ++ fst m, nil_err), snd m)
      else if str_ltb ib b then Ret ((ib, nil_err), j)
      else
        tryj [j] res <- decrementInt ib ;;
        if String.eqb res "" then Ret (("", Some "range underflow"), j)
        else Ret ((res, nil_err), j)
  else if String.eqb b "" then
    tryj [j] ia <- getIntPart a ;;
    let fa := drop (String.length ia) a in
    tryj [j] i <- incrementInt ia ;;
    if String.eqb i "" then
      m <- midpointJitter fa "" j jitterRange ;;
      Ret ((ia ++ fst m, nil_err), snd m)
    else Ret ((i, nil_err), j)
  else
    tryj [j] ia <- getIntPart a ;;
    let fa := drop (String.length ia) a in
    tryj [j] ib <- getIntPart b ;;
    let fb := drop (String.length ib) b in
    if String.eqb ia ib then
      m <- midpointJitter fa fb j jitterRange ;;
      Ret ((ia ++ fst m, nil_err), snd m)
    else
      tryj [j] i <- incrementInt ia ;;
      if String.eqb i "" then Ret (("", Some "range overflow"), j)
      else if str_ltb i b then Ret ((i, nil_err), j)
      else
        m <- midpointJitter fa "" j jitterRange ;;
        Ret ((ia ++ fst m, nil_err), snd m))).

Definition KeyBetweenJitter (a b : string) (j : J) (jitterRange : Z)
  : go ((string * error) * J) :=
  keyBetweenInternal a b j jitterRange.

(** [keyBetweenInternal] of the revision of jitter.go that sends
    [jitterRange == 0] to [KeyBetween]. *)
Definition keyBetweenInternal_bypass (a b : string) (j : J) (jitterRange : Z)
  : go ((string * error) * J) :=
  if jitterRange =? 0 then r <- KeyBetween a b ;; Ret (r, j)
  else
  check_key a (fun e => Ret (("", Some e), j)) (
  check_key b (fun e => Ret (("", Some e), j)) (
  if negb (String.eqb a "") && negb (String.eqb b "") && str_geb a b
  then Ret (("", Some (a ++ " >= " ++ b)), j)
  else if String.eqb a "" then
    if String.eqb b "" then Ret ((zero, nil_err), j)
    else
      tryj [j] ib <- getIntPart b ;;
      let fb := drop (String.length ib) b in
      if String.eqb ib smallestInt then
        m <- midpointJitter "" fb j jitterRange ;;
        Ret ((ib ++ fst m, nil_err), snd m)
      else if str_ltb ib b then Ret ((ib, nil_err), j)
      else
        tryj [j] res <- decrementInt ib ;;
        if String.eqb res "" then Ret (("", Some "range underflow"), j)
        else Ret ((res, nil_err), j)
  else if String.eqb b "" then
    tryj [j] ia <- getIntPart a ;;
    let fa := drop (String.length ia) a in
    tryj [j] i <- incrementInt ia ;;
    if String.eqb i "" then
      m <- midpointJitter fa "" j jitterRange ;;
      Ret ((ia ++ fst m, nil_err), snd m)
    else
      m <- midpointJitter "" "" j jitterRange ;;
      Ret ((i ++ fst m, nil_err), snd m)
  else
    tryj [j] ia <- getIntPart a ;;
    let fa := drop (String.length ia) a in
    tryj [j] ib <- getIntPart b ;;
    let fb := drop (String.length ib) b in
    if String.eqb ia ib then
      m <- midpointJitter fa fb j jitterRange ;;
      Ret ((ia ++ fst m, nil_err), snd m)
    else
      match incrementInt ia with
      | Panic => Panic
      | Ret (_, Some _) => Ret (("", Some "range overflow"), j)
      | Ret (i, None) =>
        if str_ltb i b then Ret ((i, nil_err), j)
        else
          m <- midpointJitter fa "" j jitterRange ;;
          Ret ((ia ++ fst m, nil_err), snd m)
      end)).

Definition KeyBetweenJitter_bypass (a b : string) (j : J) (jitterRange : Z)
  : go ((string * error) * J) :=
  keyBetweenInternal_bypass a b j jitterRange.

(** [c, err := m; if err != nil { return nil, err }; k c j'], where [j'] is
    the jitter source after the call. *)
Definition go_trylj {A} (m : go ((A * error) * J))
  (k : A -> J -> go ((list string * error) * J))
  : go ((list string * error) * J) :=
  match m with
  | Panic => Panic
  | Ret ((_, Some e), j') => Ret (([], Some e), j')
  | Ret ((v, None), j') => k v j'
  end.

Fixpoint chain_up_jitter (count : nat) (c b : string) (jitterRange : Z)
  (out : list string) (j : J) : go ((list string * error) * J) :=
  match count with
  | O => Ret ((out, nil_err), j)
  | S count' =>
    go_trylj (KeyBetweenJitter c b j jitterRange) (fun c' j' =>
    chain_up_jitter count' c' b jitterRange (out ++ [c']) j')
  end.

Fixpoint chain_down_jitter (count : nat) (a c : string) (jitterRange : Z)
  (out : list string) (j : J) : go ((list string * error) * J) :=
  match count with
  | O => Ret ((out, nil_err), j)
  | S count' =>
    go_trylj (KeyBetweenJitter a c j jitterRange) (fun c' j' =>
    chain_down_jitter count' a c' jitterRange (out ++ [c']) j')
  end.

Fixpoint NKeysBetweenJitter_fuel (fuel : nat) (a b : string) (n : nat)
  (j : J) (jitterRange : Z) : option (go ((list string * error) * J)) :=
  match fuel with
  | O => None
  | S fuel' =>
    if (n =? 0)%nat then Some (Ret (([], nil_err), j))
    else if (n =? 1)%nat then
      Some (go_trylj (KeyBetweenJitter a b j jitterRange) (fun c j' =>
            Ret (([c], nil_err), j')))
    else if String.eqb b "" then
      Some (go_trylj (KeyBetweenJitter a b j jitterRange) (fun c j' =>
            chain_up_jitter (n - 1) c b jitterRange [c] j'))
    else if String.eqb a "" then
      Some (go_trylj (KeyBetweenJitter a b j jitterRange) (fun c j' =>
            r <- chain_down_jitter (n - 1) a c jitterRange [c] j' ;;
            match r with
            | ((_, Some e), j'') => Ret (([], Some e), j'')
            | ((out, None), j'') => Ret ((reverse out, nil_err), j'')
            end))
    else
      let mid := (n / 2)%nat in
      match KeyBetweenJitter a b j jitterRange with
      | Panic => Some Panic
      | Ret ((_, Some e), j1) => Some (Ret (([], Some e), j1))
      | Ret ((c, None), j1) =>
        match NKeysBetweenJitter_fuel fuel' a c mid j1 jitterRange with
        | None => None
        | Some Panic => Some Panic
        | Some (Ret ((_, Some e), j2)) => Some (Ret (([], Some e), j2))
        | Some (Ret ((lft, None), j2)) =>
          match NKeysBetweenJitter_fuel fuel' c b (n - mid - 1)%nat j2
                  jitterRange with
          | None => None
          | Some Panic => Some Panic
          | Some (Ret ((_, Some e), j3)) => Some (Ret (([], Some e), j3))
          | Some (Ret ((rgt, None), j3)) =>
            Some (Ret (((lft ++ [c]) ++ rgt, nil_err), j3))%list
          end
        end
      end
  end.

Definition NKeysBetweenJitter (a b : string) (n : nat) (j : J)
  (jitterRange : Z) : go ((list string * error) * J) :=
  match NKeysBetweenJitter_fuel (S n) a b n j jitterRange with
  | Some r => r
  | None => Panic
  end.

End Jitter.

Arguments midpointJitter {J} IntnRange a b j jitterRange.
Arguments keyBetweenInternal {J} IntnRange a b j jitterRange.
Arguments KeyBetweenJitter {J} IntnRange a b j jitterRange.
Arguments keyBetweenInternal_bypass {J} IntnRange a b j jitterRange.
Arguments KeyBetweenJitter_bypass {J} IntnRange a b j jitterRange.
Arguments NKeysBetweenJitter {J} IntnRange a b n j jitterRange.

(** [NoJitter]: every draw is 0. *)
Definition NoJitter_IntnRange (j : unit) (min max : Z) : Z * unit := (0, j).

(** [RandJitter]: backed by a generator [R] with state [G], whose [Intn n]
    answers in [[0, n)]. *)
Definition RandJitter_IntnRange {G} (Intn : G -> Z -> Z * G)
  (j : G) (min max : Z) : Z * G :=
  if max <? min then (min, j)
  else if max =? min then (min, j)
  else let '(r, j') := Intn j (max - min + 1) in (min + r, j').

(** ** Float approximation

    [float64] is the binary64 format of the primitive floats. *)

(** [float64(i)] for an [int] [0 <= i < 2^63]. *)
Definition float64_of_int (i : Z) : float := PrimFloat.of_uint63 (Uint63.of_Z i).

(** The multiplication loop of [math.Pow], over the bits of the exponent:
    [for i := int64(yi); i != 0; i >>= 1]. *)
Fixpoint pow_loop (i : positive) (a1 : float) (ae : Z) (x1 : float) (xe : Z)
  : float * Z :=
  if (xe <? - 4096) || (4096 <? xe) then (a1, ae + xe)
  else
    let '(a1, ae) := match i with
                     | xO _ => (a1, ae)
                     | _ => ((a1 * x1)%float, ae + xe)
                     end in
    let x1 := (x1 * x1)%float in
    let xe := Z.shiftl xe 1 in
    let '(x1, xe) := if (x1 <? 0.5)%float then ((x1 + x1)%float, xe - 1)
                     else (x1, xe) in
    match i with
    | xH => (a1, ae)
    | xO p | xI p => pow_loop p a1 ae x1 xe
    end.

(** [math.Pow(float64(len(base62Digits)), float64(n))] for an [int]
    [0 <= n < 2^53]: the base is 62, so of the special cases of [math.Pow]
    only [y == 0] and [y == 1] can apply, and [float64(n)] has no
    fractional part. *)
Definition pow62 (n : Z) : float :=
  let x := float64_of_int (len base62Digits) in
  if n =? 0 then 1%float
  else if n =? 1 then x
  else
    let '(x1, xe) := Z.frexp x in
    let '(a1, ae) := pow_loop (Z.to_pos n) 1%float 0 x1 xe in
    Z.ldexp a1 ae.

(** The integer-part loop of [Float64Approx]: [digs] is given last digit
    first, [i] is the position counted from the last digit. *)
Fixpoint int_digits_value (rdigs : list string) (i : Z) (rv : float)
  : option float :=
  match rdigs with
  | [] => Some rv
  | d :: rest =>
    let p := Index base62Digits d in
    if p =? -1 then None
    else int_digits_value rest (i + 1)
           (rv + pow62 i * float64_of_int p)%float
  end.

(** [string(d)] for the rune [d] that [range] yields for one element of
    [Split]: a byte that is no UTF-8 sequence yields U+FFFD. *)
Definition string_of_ranged (r : string) : string :=
  match r with
  | String c "" =>
    if code c <? 128 then r
    else String (byte_of 239) (String (byte_of 191) (String (byte_of 189) ""))
  | _ => r
  end.

(** The fractional-part loop: [i] is the byte offset of the rune. *)
Fixpoint frac_digits_value (runes : list string) (i : Z) (rv : float)
  : option float :=
  match runes with
  | [] => Some rv
  | d :: rest =>
    let p := Index base62Digits (string_of_ranged d) in
    if p =? -1 then None
    else frac_digits_value rest (i + len d)
           (rv + float64_of_int p / pow62 (i + 1))%float
  end.

Definition Float64Approx (key : string) : go (float * error) :=
  if String.eqb key "" then Ret (0%float, Some "invalid order key")
  else
    err <- validateOrderKey key ;;
    match err with
    | Some e => Ret (0%float, Some e)
    | None =>
      r <- getIntPart key ;;
      match r with
      | (_, Some e) => Ret (0%float, Some e)
      | (ip, None) =>
        match Split ip with
        | [] => Panic
        | head :: digs =>
          match int_digits_value (rev digs) 0 0%float with
          | None => Ret (0%float, Some ("invalid order key: " ++ key))
          | Some rv =>
            let fp := drop (String.length ip) key in
            match frac_digits_value (Split fp) 0 rv with
            | None => Ret (0%float, Some ("invalid key: " ++ key))
            | Some rv =>
              let rv := if str_ltb head "a" then (rv * (-1))%float else rv in
              Ret (rv, nil_err)
            end
          end
        end
      end
    end.

(** ** The in-place [reverse]

    [values[i]] and the assignment [values[i] = v] on a slice; both panic
    outside [0, len(values)). *)
Definition slice_get (values : list string) (i : Z) : go string :=
  if (0 <=? i) && (i <? Z.of_nat (List.length values)) then
    match nth_error values (Z.to_nat i) with
    | Some v => Ret v
    | None => Panic
    end
  else Panic.

Fixpoint list_update (values : list string) (i : nat) (v : string)
  : list string :=
  match values, i with
  | [], _ => []
  | _ :: t, O => v :: t
  | x :: t, S i' => x :: list_update t i' v
  end.

Definition slice_set (values : list string) (i : Z) (v : string)
  : go (list string) :=
  if (0 <=? i) && (i <? Z.of_nat (List.length values))
  then Ret (list_update values (Z.to_nat i) v)
  else Panic.

(** The loop of [reverse]: [for i := 0; i < len(values)/2; i++], with
    [count] iterations left. *)
Fixpoint reverse_loop (count : nat) (i : Z) (values : list string)
  : go (list string) :=
  match count with
  | O => Ret values
  | S count' =>
    let j := Z.of_nat (List.length values) - i - 1 in
    vi <- slice_get values i ;;
    vj <- slice_get values j ;;
    values <- slice_set values i vj ;;
    values <- slice_set values j vi ;;
    reverse_loop count' (i + 1) values
  end.

Definition reverse_in_place (values : list string) : go (list string) :=
  reverse_loop (Z.to_nat (Z.of_nat (List.length values) / 2)) 0 values.

(** ** Formatting

    [fmt.Sprintf("%d", i)]: the decimal digits of [i], with a sign for a
    negative number. *)
Definition fmt_d (i : Z) : string := NilZero.string_of_int (Z.to_int i).

(** ** Keys at a distance (the revision of jitter.go with [KeyAfterJitter]) *)

(** [-distance] on a 64-bit [int]: the smallest integer is its own
    negation. *)
Definition neg_int (distance : Z) : Z :=
  if distance =? - 2 ^ 63 then distance else - distance.

Section Distance.

Variable J : Type.
Variable IntnRange : J -> Z -> Z -> Z * J.

(** [for i := 0; i < distance; i++ { result, err = KeyBetweenJitter(result,
    "", j, jitterRange); ... }], with [count] iterations left. *)
Fixpoint move_forward (count : nat) (i : Z) (result : string) (j : J)
  (jitterRange : Z) : go ((string * error) * J) :=
  match count with
  | O => Ret ((result, nil_err), j)
  | S count' =>
    r <- KeyBetweenJitter_bypass IntnRange result "" j jitterRange ;;
    match r with
    | ((_, Some e), j') =>
      Ret (("", Some ("failed to move forward " ++ fmt_d (i + 1)
                        ++ " steps: " ++ e)), j')
    | ((result', None), j') =>
      move_forward count' (i + 1) result' j' jitterRange
    end
  end.

Fixpoint move_backward (count : nat) (i : Z) (result : string) (j : J)
  (jitterRange : Z) : go ((string * error) * J) :=
  match count with
  | O => Ret ((result, nil_err), j)
  | S count' =>
    r <- KeyBetweenJitter_bypass IntnRange "" result j jitterRange ;;
    match r with
    | ((_, Some e), j') =>
      Ret (("", Some ("failed to move backward " ++ fmt_d (i + 1)
                        ++ " steps: " ++ e)), j')
    | ((result', None), j') =>
      move_backward count' (i + 1) result' j' jitterRange
    end
  end.

Definition KeyAfterJitter (key : string) (distance : Z) (j : J)
  (jitterRange : Z) : go ((string * error) * J) :=
  if distance =? 0 then Ret ((key, nil_err), j)
  else if String.eqb key "" then
    Ret (("", Some "cannot compute distance from empty key"), j)
  else
    err <- validateOrderKey key ;;
    match err with
    | Some e => Ret (("", Some e), j)
    | None =>
      if 0 <? distance
      then move_forward (Z.to_nat distance) 0 key j jitterRange
      else move_backward (Z.to_nat (neg_int distance)) 0 key j jitterRange
    end.

Definition KeyBeforeJitter (key : string) (distance : Z) (j : J)
  (jitterRange : Z) : go ((string * error) * J) :=
  KeyAfterJitter key (neg_int distance) j jitterRange.

End Distance.

Arguments move_forward {J} IntnRange count i result j jitterRange.
Arguments move_backward {J} IntnRange count i result j jitterRange.
Arguments KeyAfterJitter {J} IntnRange key distance j jitterRange.
Arguments KeyBeforeJitter {J} IntnRange key distance j jitterRange.

(** ** Jitter on an existing key (the revision of jitter.go with
    [AddJitterToKey] and [JitterKey]) *)

(** [s[i]] on a string: panics outside [0, len(s)). *)
Definition byte_at (s : string) (i : Z) : go ascii :=
  if (0 <=? i) && (i <? len s) then
    match String.get (Z.to_nat i) s with
    | Some c => Ret c
    | None => Panic
    end
  else Panic.

Section JitterTools.

Variable J : Type.
Variable IntnRange : J -> Z -> Z -> Z * J.
(** [_, ok := j.(NoJitter)]: whether the dynamic type of the source is
    [NoJitter]. *)
Variable isNoJitter : bool.

(** [for i := range numDigits { ... }], with [count] iterations left. *)
Fixpoint add_digits (count : nat) (i numDigits : Z) (result : string) (j : J)
  : go (string * J) :=
  match count with
  | O => Ret (result, j)
  | S count' =>
    let '(digitIdx, j') :=
      if i =? numDigits - 1
      then IntnRange j 1 (len base62Digits - 1)
      else IntnRange j 0 (len base62Digits - 1) in
    c <- digit_at digitIdx ;;
    add_digits count' (i + 1) numDigits (result ++ string_of_byte c) j'
  end.

Definition AddJitterToKey (key : string) (j : J) (jitterRange : Z)
  : go ((string * error) * J) :=
  if String.eqb key "" then
    Ret (("", Some "cannot add jitter to empty key"), j)
  else
    err <- validateOrderKey key ;;
    match err with
    | Some e => Ret (("", Some ("invalid key for jitter: " ++ e)), j)
    | None =>
      if jitterRange <=? 0 then Ret ((key, nil_err), j)
      else if isNoJitter then Ret ((key, nil_err), j)
      else
        let '(numDigits, j1) := IntnRange j 1 jitterRange in
        if numDigits <=? 0 then Ret ((key, nil_err), j1)
        else
          r <- add_digits (Z.to_nat numDigits) 0 numDigits key j1 ;;
          let '(result, j2) := r in
          err <- validateOrderKey result ;;
          match err with
          | Some e =>
            Ret (("", Some ("generated jittered key is invalid: " ++ e)), j2)
          | None => Ret ((result, nil_err), j2)
          end
    end.

(** The loops over the digits of [findAlternativeFractionalParts]:
    [for d := ...; d < len(base62Digits); d++], with [count] iterations
    left; [alt_of] builds the alternative from the digit. *)
Fixpoint digit_alternatives (count : nat) (d : Z) (fp : string) (i : Z)
  (alt_of : string -> string) (alternatives : list string)
  : go (list string) :=
  match count with
  | O => Ret alternatives
  | S count' =>
    c <- digit_at d ;;
    fpi <- byte_at fp i ;;
    let alternatives :=
      if negb (String.eqb (string_of_byte c) (string_of_byte fpi)) then
        let alt := alt_of (string_of_byte c) in
        if negb (HasSuffix alt "0") then (alternatives ++ [alt])%list
        else alternatives
      else alternatives in
    digit_alternatives count' (d + 1) fp i alt_of alternatives
  end.

(** [for i := max(0, len(fp)-jitterRange); i < len(fp); i++], with [count]
    iterations left. *)
Fixpoint position_alternatives (count : nat) (i : Z) (fp : string)
  (alternatives : list string) : go (list string) :=
  match count with
  | O => Ret alternatives
  | S count' =>
    let variation := take (Z.to_nat i) fp in
    alternatives <-
      (if i =? len fp - 1 then
         digit_alternatives (Z.to_nat (len base62Digits - 1)) 1 fp i
           (fun ds => variation ++ ds) alternatives
       else
         digit_alternatives (Z.to_nat (len base62Digits - 0)) 0 fp i
           (fun ds => variation ++ ds ++ drop (Z.to_nat (i + 1)) fp)
           alternatives) ;;
    position_alternatives count' (i + 1) fp alternatives
  end.

Definition findAlternativeFractionalParts (fp : string) (jitterRange : Z)
  : go (list string) :=
  if len fp =? 0 then Ret []
  else if isNoJitter then Ret []
  else
    let i := Z.max 0 (len fp - jitterRange) in
    position_alternatives (Z.to_nat (len fp - i)) i fp [].

Definition findNearbyIntegers (ip : string) (jitterRange : Z) : list string :=
  [].

Definition JitterKey (key : string) (j : J) (jitterRange : Z)
  : go ((string * error) * J) :=
  if String.eqb key "" then Ret (("", Some "cannot jitter empty key"), j)
  else
    err <- validateOrderKey key ;;
    match err with
    | Some e => Ret (("", Some ("invalid key for jitter: " ++ e)), j)
    | None =>
      if jitterRange <=? 0 then Ret ((key, nil_err), j)
      else
        r <- getIntPart key ;;
        match r with
        | (_, Some e) =>
          Ret (("", Some ("failed to get int part: " ++ e)), j)
        | (ip, None) =>
          let fp := drop (String.length ip) key in
          let integers :=
            let nearbyInts := findNearbyIntegers ip jitterRange in
            if 0 <? Z.of_nat (List.length nearbyInts) then
              let '(pick, j1) :=
                IntnRange j 0 (Z.of_nat (List.length nearbyInts) - 1) in
              k <- slice_get nearbyInts pick ;; Ret ((k, nil_err), j1)
            else Ret ((key, nil_err), j) in
          if 0 <? len fp then
            alternatives <- findAlternativeFractionalParts fp jitterRange ;;
            if 0 <? Z.of_nat (List.length alternatives) then
              let '(pick, j1) :=
                IntnRange j 0 (Z.of_nat (List.length alternatives) - 1) in
              alt <- slice_get alternatives pick ;;
              Ret ((ip ++ alt, nil_err), j1)
            else integers
          else integers
        end
    end.

End JitterTools.

Arguments add_digits {J} IntnRange count i numDigits result j.
Arguments AddJitterToKey {J} IntnRange isNoJitter key j jitterRange.
Arguments JitterKey {J} IntnRange isNoJitter key j jitterRange.

(** ** Lexorank

    A rank is a bucket, a [uint8], and a key. *)
Definition Bucket : Type := N.

Record Lexorank : Type := NewLexorank { rk_bucket : Bucket; rk_key : string }.

Definition Lexorank_String (rk : Lexorank) : string :=
  fmt_d (Z.of_N (rk_bucket rk)) ++ "|" ++ rk_key rk.

Definition Lexorank_Bucket (rk : Lexorank) : Bucket := rk_bucket rk.
Definition Lexorank_Key (rk : Lexorank) : string := rk_key rk.

(** ** Vocabulary of the statements *)

(** The value of a base-62 digit, from its byte: -1 outside the alphabet. *)
Definition digit_of_code (z : Z) : Z :=
  if (48 <=? z) && (z <=? 57) then z - 48
  else if (65 <=? z) && (z <=? 90) then z - 55
  else if (97 <=? z) && (z <=? 122) then z - 61
  else -1.

Definition code_of_digit (d : Z) : Z :=
  if d <? 10 then d + 48 else if d <? 36 then d + 55 else d + 61.

Definition digit (c : ascii) : Z := Index base62Digits (string_of_byte c).

(** Bytes of the alphabet [0-9A-Za-z]. *)
Definition is62 (c : ascii) : bool :=
  between 48 57 c || between 65 90 c || between 97 122 c.

Fixpoint base62 (s : string) : bool :=
  match s with
  | "" => true
  | String c s' => is62 c && base62 s'
  end.

(** [rep c n]: the byte [c], [n] times. *)
Fixpoint rep (c : ascii) (n : nat) : string :=
  match n with
  | O => ""
  | S n' => String c (rep c n')
  end.

(** The last byte of [s] is '0'. *)
Fixpoint ends_in_0 (s : string) : bool :=
  match s with
  | "" => false
  | String c "" => Ascii.eqb c "0"
  | String _ s' => ends_in_0 s'
  end.

(** [singles s]: the bytes of [s], each as a string of its own. *)
Fixpoint singles (s : string) : list string :=
  match s with
  | "" => []
  | String c s' => String c "" :: singles s'
  end.

(** A key, or an integer part, that the validators of the package accept. *)
Definition valid_key (k : string) : Prop := validateOrderKey k = Ret nil_err.
Definition valid_int (x : string) : Prop := validateInt x = Ret nil_err.

(** One unfolding of [midpoint], the recursive calls left to [rec]. *)
Definition midpoint_body (rec : string -> string -> option (go string))
  (a b : string) : option (go string) :=
  let i := if String.eqb b "" then 0%nat else prefix_len a b in
  if (0 <? i)%nat then
    match
      (if (String.length a <? i)%nat
       then rec "" (drop i b)
       else rec (drop i a) (drop i b))
    with
    | None => None
    | Some r => Some (m <- r ;; Ret (take i b ++ m))
    end
  else
    let digitA := match a with
                  | "" => 0
                  | String a0 _ => digit a0
                  end in
    let digitB := match b with
                  | "" => len base62Digits
                  | String b0 _ => digit b0
                  end in
    if 1 <? digitB - digitA then
      let midDigit := round_half (digitA + digitB) in
      Some (c <- digit_at midDigit ;; Ret (string_of_byte c))
    else if 1 <? len b then Some (Ret (take 1 b))
    else
      let sa := match a with String _ a' => a' | "" => "" end in
      match digit_at digitA with
      | Panic => Some Panic
      | Ret c =>
        match rec sa "" with
        | None => None
        | Some r => Some (m <- r ;; Ret (string_of_byte c ++ m))
        end
      end.

(** The two classes of heads: lowercase heads carry the non-negative
    integers, uppercase heads the negative ones. *)
Definition is_lower (c : ascii) : bool := between 97 122 c.
Definition is_upper (c : ascii) : bool := between 65 90 c.

(** The conditions under which [KeyBetween] reports an error. *)
Definition key_rejected (k : string) : Prop :=
  k <> "" /\ exists e, validateOrderKey k = Ret (Some e).

Definition increment_overflows (a b : string) : Prop :=
  a <> "" /\ b <> "" /\
  exists ia ib, getIntPart a = Ret (ia, nil_err) /\
                getIntPart b = Ret (ib, nil_err) /\ ia <> ib /\
                incrementInt ia = Ret ("", nil_err).

Definition decrement_underflows (a b : string) : Prop :=
  a = "" /\ b <> "" /\
  exists ib, getIntPart b = Ret (ib, nil_err) /\ ib <> smallestInt /\
             ~ str_lt ib b /\ decrementInt ib = Ret ("", nil_err).

Definition KeyBetween_fails (a b : string) : Prop :=
  key_rejected a \/ key_rejected b \/
  (a <> "" /\ b <> "" /\ ~ str_lt a b) \/
  increment_overflows a b \/ decrement_underflows a b.


(** The rank of the head of a key among the digits: 10 for 'A', 35 for 'Z',
    36 for 'a', 61 for 'z'. *)
Definition head_digit (k : string) : Z :=
  match k with
  | String h _ => digit h
  | "" => 0
  end.

(** The contract of a jitter source: [IntnRange(min, max)] answers in
    [[min, max]] when [min <= max]. *)
Definition in_range {J : Type} (IntnRange : J -> Z -> Z -> Z * J) : Prop :=
  forall j lo hi, lo <= hi -> lo <= fst (IntnRange j lo hi) <= hi.


(** A generator that always answers 0: the least draw of [rand.Intn]. *)
Definition zero_Intn (g : unit) (n : Z) : Z * unit := (0, g).

(** [s] has no byte '|'. *)
Fixpoint no_bar (s : string) : bool :=
  match s with
  | "" => true
  | String c s' => negb (Ascii.eqb c "|") && no_bar s'
  end.

(** The byte [c] occurs in [s]. *)
Fixpoint occurs (c : ascii) (s : string) : bool :=
  match s with
  | "" => false
  | String x s' => Ascii.eqb x c || occurs c s'
  end.

(** An alternative of [fp] from position [i] on: [fp] with the byte at one
    position replaced by another base-62 digit, not ending in '0'. *)
Definition alternative_of (fp : string) (i : Z) (alt : string) : Prop :=
  exists (k : nat) (c : ascii),
    i <= Z.of_nat k /\ (k < String.length fp)%nat /\ is62 c = true /\
    String.get k fp <> Some c /\
    alt = take k fp ++ String c (drop (S k) fp) /\ ends_in_0 alt = false.

(** A result of the list functions: [n] keys and no error, or no key and an
    error. *)
Definition n_keys_or_error (n : nat) (r : list string * error) : Prop :=
  match r with
  | (ks, None) => List.length ks = n
  | (ks, Some _) => ks = []
  end.



(** * Properties *)

(** Boolean comparisons of the hypotheses, as propositions. *)
Ltac bool2prop :=
  repeat match goal with
         | H : (_ <? _) = true |- _ => apply Z.ltb_lt in H
         | H : (_ <? _) = false |- _ => apply Z.ltb_ge in H
         | H : (_ <=? _) = true |- _ => apply Z.leb_le in H
         | H : (_ <=? _) = false |- _ => apply Z.leb_gt in H
         | H : (_ =? _) = true |- _ => apply Z.eqb_eq in H
         | H : (_ =? _) = false |- _ => apply Z.eqb_neq in H
         end.

(** ** Bytes *)

Lemma code_range (c : ascii) : 0 <= code c < 256.
Proof.
  unfold code. pose proof (N_ascii_bounded c) as H.
  split; [apply N2Z.is_nonneg|]. change 256 with (Z.of_N 256). now apply N2Z.inj_lt.
Qed.

Lemma code_inj (c d : ascii) : code c = code d -> c = d.
Proof.
  unfold code. intros H. apply N2Z.inj in H.
  rewrite <- (ascii_N_embedding c), <- (ascii_N_embedding d). now rewrite H.
Qed.

Lemma code_byte_of (z : Z) : 0 <= z < 256 -> code (byte_of z) = z.
Proof.
  intros H. unfold code, byte_of. rewrite Z.mod_small by lia.
  rewrite N_ascii_embedding.
  - apply Z2N.id; lia.
  - change 256%N with (Z.to_N 256). apply Z2N.inj_lt; lia.
Qed.

Lemma byte_of_code (c : ascii) : byte_of (code c) = c.
Proof. apply code_inj. apply code_byte_of, code_range. Qed.

Lemma digit_spec (c : ascii) : digit c = digit_of_code (code c).
Proof. destruct c as [[] [] [] [] [] [] [] []]; vm_compute; reflexivity. Qed.

Lemma Index_single (c : ascii) :
  Index base62Digits (String c "") = digit_of_code (code c).
Proof. destruct c as [[] [] [] [] [] [] [] []]; vm_compute; reflexivity. Qed.

Lemma digit_at_nat (n : nat) :
  (n < 62)%nat -> digit_at (Z.of_nat n) = Ret (byte_of (code_of_digit (Z.of_nat n))).
Proof.
  intros H.
  do 62 (destruct n as [|n]; [vm_compute; reflexivity|]). lia.
Qed.

Lemma digit_at_spec (d : Z) :
  0 <= d < 62 -> digit_at d = Ret (byte_of (code_of_digit d)).
Proof.
  intros H. rewrite <- (Z2Nat.id d) by lia. apply digit_at_nat. lia.
Qed.

Lemma is62_code (c : ascii) :
  is62 c = true <->
  (48 <= code c <= 57 \/ 65 <= code c <= 90 \/ 97 <= code c <= 122).
Proof. unfold is62, between. lia. Qed.

Lemma is62_digit (c : ascii) :
  is62 c = true ->
  0 <= digit c < 62 /\ code c = code_of_digit (digit c) /\
  string_of_byte c = String c "".
Proof.
  intros H. apply is62_code in H. rewrite digit_spec.
  unfold digit_of_code, code_of_digit, string_of_byte.
  repeat split.
  1-3: repeat match goal with
         | |- context [if ?b then _ else _] => destruct b eqn:?
         end; lia.
  destruct (code c <? 128) eqn:E; [reflexivity|lia].
Qed.

Lemma code_of_digit_range (d : Z) :
  0 <= d < 62 ->
  is62 (byte_of (code_of_digit d)) = true /\
  digit (byte_of (code_of_digit d)) = d.
Proof.
  intros H.
  assert (R : 0 <= code_of_digit d < 256)
    by (unfold code_of_digit; destruct (d <? 10) eqn:?, (d <? 36) eqn:?; lia).
  split.
  - apply is62_code. rewrite code_byte_of by exact R.
    unfold code_of_digit. destruct (d <? 10) eqn:?, (d <? 36) eqn:?; lia.
  - rewrite digit_spec, code_byte_of by exact R.
    unfold code_of_digit, digit_of_code.
    destruct (d <? 10) eqn:?, (d <? 36) eqn:?;
    repeat match goal with
           | |- context [if ?b then _ else _] => destruct b eqn:?
           end; lia.
Qed.

(** Digits are ordered as their bytes are. *)
Lemma digit_mono (c d : ascii) :
  is62 c = true -> is62 d = true -> (code c < code d <-> digit c < digit d).
Proof.
  intros Hc Hd. apply is62_code in Hc. apply is62_code in Hd.
  rewrite !digit_spec. unfold digit_of_code.
  repeat match goal with
         | |- context [if ?b then _ else _] => destruct b eqn:?
         end; lia.
Qed.

(** ** Byte-wise order of strings *)

Lemma compare_cons (c d : ascii) (s t : string) :
  String.compare (String c s) (String d t) =
  match code c ?= code d with
  | Eq => String.compare s t
  | Lt => Lt
  | Gt => Gt
  end.
Proof.
  simpl. unfold Ascii.compare, code. rewrite N2Z.inj_compare.
  destruct (N_of_ascii c ?= N_of_ascii d)%N; reflexivity.
Qed.

Lemma str_ltb_lt (a b : string) : str_ltb a b = true <-> str_lt a b.
Proof.
  unfold str_ltb, String.ltb, str_lt.
  destruct (String.compare a b); split; congruence.
Qed.

Lemma str_geb_ge (a b : string) : str_geb a b = true <-> ~ str_lt a b.
Proof.
  unfold str_geb. rewrite negb_true_iff, <- not_true_iff_false.
  now rewrite (str_ltb_lt a b).
Qed.

Lemma str_lt_nil_l (c : ascii) (s : string) : str_lt "" (String c s).
Proof. reflexivity. Qed.

Lemma str_lt_nil_r (s : string) : ~ str_lt s "".
Proof. destruct s; discriminate. Qed.

Lemma str_lt_cons (c d : ascii) (s t : string) :
  str_lt (String c s) (String d t) <->
  code c < code d \/ (c = d /\ str_lt s t).
Proof.
  unfold str_lt. rewrite compare_cons.
  destruct (Z.compare_spec (code c) (code d)) as [E|L|G].
  - apply code_inj in E. subst d. split; [auto|]. intros [L|[_ H]]; [lia|exact H].
  - split; auto.
  - split; [discriminate|]. intros [L|[E _]]; [lia|subst d; lia].
Qed.

Lemma str_lt_irrefl (s : string) : ~ str_lt s s.
Proof.
  induction s as [|c s IH]; [discriminate|].
  rewrite str_lt_cons. intros [L|[_ H]]; [lia|auto].
Qed.

Lemma str_lt_trans (a b c : string) : str_lt a b -> str_lt b c -> str_lt a c.
Proof.
  revert b c. induction a as [|x a IH]; intros [|y b] [|z c] H1 H2;
    try (now apply str_lt_nil_l); try (now apply str_lt_nil_r in H1);
    try (now apply str_lt_nil_r in H2).
  apply str_lt_cons in H1. apply str_lt_cons in H2. apply str_lt_cons.
  destruct H1 as [L1|[-> H1]], H2 as [L2|[-> H2]]; try (left; lia).
  right. split; [reflexivity|]. now apply (IH b c).
Qed.

Lemma str_lt_app (p s t : string) : str_lt (p ++ s) (p ++ t) <-> str_lt s t.
Proof.
  induction p as [|c p IH]; simpl; [reflexivity|].
  rewrite str_lt_cons, IH. split; [|auto]. intros [L|[_ H]]; [lia|exact H].
Qed.

Lemma str_lt_app_r (s t : string) : t <> "" -> str_lt s (s ++ t).
Proof.
  intros N. destruct t as [|c t]; [congruence|]. clear N.
  induction s as [|x s IH]; simpl; [reflexivity|].
  apply str_lt_cons. right. auto.
Qed.

(** Strings that first differ inside their first [n] bytes keep their
    order whatever follows. *)
Lemma str_lt_app_same_length (p q s t : string) :
  String.length p = String.length q -> str_lt p q -> str_lt (p ++ s) (q ++ t).
Proof.
  revert q. induction p as [|c p IH]; intros [|d q] L H; simpl in *;
    try discriminate; try (now apply str_lt_nil_r in H).
  apply str_lt_cons in H. apply str_lt_cons.
  destruct H as [H|[-> H]]; [now left|right]. split; [reflexivity|].
  apply IH; [congruence|exact H].
Qed.

(** ** Slices *)

Lemma take_drop (n : nat) (s : string) : take n s ++ drop n s = s.
Proof.
  revert s. induction n as [|n IH]; intros [|c s]; simpl; try reflexivity.
  now rewrite IH.
Qed.

Lemma length_app (s t : string) :
  String.length (s ++ t) = (String.length s + String.length t)%nat.
Proof. induction s as [|c s IH]; simpl; [reflexivity|now rewrite IH]. Qed.

Lemma length_take (n : nat) (s : string) :
  (n <= String.length s)%nat -> String.length (take n s) = n.
Proof.
  revert s. induction n as [|n IH]; intros [|c s] H; simpl in *;
    try reflexivity; try lia.
  rewrite IH; [reflexivity|lia].
Qed.

Lemma length_drop (n : nat) (s : string) :
  String.length (drop n s) = (String.length s - n)%nat.
Proof.
  revert s. induction n as [|n IH]; intros [|c s]; simpl; try reflexivity.
  apply IH.
Qed.

Lemma drop_app_length (s t : string) : drop (String.length s) (s ++ t) = t.
Proof. induction s as [|c s IH]; simpl; [now destruct t|exact IH]. Qed.

Lemma take_app_length (s t : string) : take (String.length s) (s ++ t) = s.
Proof. induction s as [|c s IH]; simpl; [now destruct t|now rewrite IH]. Qed.

Lemma app_nil_r (s : string) : s ++ "" = s.
Proof. induction s as [|c s IH]; simpl; [reflexivity|now rewrite IH]. Qed.

Lemma app_assoc (s t u : string) : (s ++ t) ++ u = s ++ t ++ u.
Proof. induction s as [|c s IH]; simpl; [reflexivity|now rewrite IH]. Qed.

Lemma app_inv_head (p s t : string) : p ++ s = p ++ t -> s = t.
Proof. induction p as [|c p IH]; simpl; [auto|]. intros H. injection H. auto. Qed.

Lemma length_zero (s : string) : String.length s = 0%nat -> s = "".
Proof. destruct s; [reflexivity|discriminate]. Qed.

Lemma base62_app (s t : string) : base62 (s ++ t) = base62 s && base62 t.
Proof.
  induction s as [|c s IH]; simpl; [reflexivity|].
  now rewrite IH, andb_assoc.
Qed.

Lemma base62_take_drop (n : nat) (s : string) :
  base62 s = true -> base62 (take n s) = true /\ base62 (drop n s) = true.
Proof.
  intros H. rewrite <- (take_drop n s), base62_app in H.
  now apply andb_true_iff in H.
Qed.

Lemma base62_rep (c : ascii) (n : nat) : is62 c = true -> base62 (rep c n) = true.
Proof. intros H. induction n as [|n IH]; simpl; [reflexivity|now rewrite H, IH]. Qed.

Lemma length_rep (c : ascii) (n : nat) : String.length (rep c n) = n.
Proof. induction n as [|n IH]; simpl; [reflexivity|now rewrite IH]. Qed.

Lemma HasSuffix_0 (s : string) : HasSuffix s "0" = ends_in_0 s.
Proof.
  unfold HasSuffix. induction s as [|c s IH]; [reflexivity|].
  destruct s as [|d s].
  - simpl. destruct (Ascii.eqb c "0"); reflexivity.
  - change (ends_in_0 (String c (String d s))) with (ends_in_0 (String d s)).
    rewrite <- IH. simpl String.length.
    replace (S (S (String.length s)) - 1)%nat with (S (String.length s - 0))%nat by lia.
    simpl. now rewrite Nat.sub_0_r.
Qed.

Lemma ends_in_0_app (s t : string) :
  ends_in_0 (s ++ t) = match t with "" => ends_in_0 s | _ => ends_in_0 t end.
Proof.
  induction s as [|c s IH]; simpl.
  - now destruct t.
  - destruct (s ++ t) eqn:E.
    + destruct s; [|discriminate]. simpl in E. now subst t.
    + rewrite IH. destruct t; [|reflexivity].
      rewrite app_nil_r in E. now rewrite E.
Qed.

Lemma ends_in_0_drop (n : nat) (s : string) :
  ends_in_0 s = false -> ends_in_0 (drop n s) = false.
Proof.
  intros H. rewrite <- (take_drop n s), ends_in_0_app in H.
  destruct (drop n s); [reflexivity|exact H].
Qed.

Lemma Join_singles (s : string) : Join (singles s) = s.
Proof.
  unfold Join. induction s as [|c s IH]; [reflexivity|].
  simpl singles. destruct (singles s) eqn:E.
  - destruct s; [reflexivity|discriminate].
  - simpl String.concat in *. now rewrite IH.
Qed.

(** On ASCII text [strings.Split(s, "")] yields the bytes. *)
Lemma explode_ascii (fuel : nat) (s : string) :
  (String.length s <= fuel)%nat -> base62 s = true -> explode fuel s = singles s.
Proof.
  revert s. induction fuel as [|fuel IH]; intros [|c s] L B; simpl in L;
    try reflexivity; try lia.
  simpl in B. apply andb_true_iff in B as [Bc Bs].
  assert (R : rune_size (String c s) = 1%nat).
  { apply is62_code in Bc. simpl. destruct (code c <? 128) eqn:E; [reflexivity|lia]. }
  cbn [explode]. rewrite R. simpl take. simpl drop.
  destruct s; simpl; rewrite IH; auto; simpl in *; lia.
Qed.

Lemma Split_base62 (s : string) : base62 s = true -> Split s = singles s.
Proof. intros B. apply explode_ascii; [lia|exact B]. Qed.

(** ** The integer-part codec *)

Lemma getIntLen_spec (h : ascii) :
  (exists n, getIntLen h = (n, nil_err) /\
     ((97 <= code h <= 122 /\ n = code h - 95) \/
      (65 <= code h <= 90 /\ n = 92 - code h))) \/
  (exists e, getIntLen h = (0, Some e) /\
     ~ 97 <= code h <= 122 /\ ~ 65 <= code h <= 90).
Proof.
  unfold getIntLen.
  change (code "a") with 97. change (code "z") with 122.
  change (code "A") with 65. change (code "Z") with 90.
  destruct ((97 <=? code h) && (code h <=? 122)) eqn:E1.
  - left. eexists. split; [reflexivity|]. left. lia.
  - destruct ((65 <=? code h) && (code h <=? 90)) eqn:E2.
    + left. eexists. split; [reflexivity|]. right. lia.
    + right. eexists. split; [reflexivity|]. lia.
Qed.

Lemma validateInt_inv (x : string) :
  valid_int x ->
  exists h ds n, x = String h ds /\ getIntLen h = (n, nil_err) /\ len x = n.
Proof.
  unfold valid_int, validateInt. intros H.
  destruct x as [|h ds]; [discriminate H|].
  cbn [go_bind first_byte] in H. destruct (getIntLen h) as [n [e|]] eqn:E; [discriminate H|].
  destruct (len (String h ds) =? n) eqn:L; cbn [negb] in H; [|discriminate H].
  exists h, ds, n. split; [reflexivity|]. split; [exact E|]. now apply Z.eqb_eq.
Qed.

Lemma validateInt_intro (h : ascii) (ds : string) (n : Z) :
  getIntLen h = (n, nil_err) -> len (String h ds) = n ->
  valid_int (String h ds).
Proof.
  intros E L. unfold valid_int, validateInt. cbn [go_bind first_byte]. rewrite E.
  apply Z.eqb_eq in L. now rewrite L.
Qed.

Lemma getIntPart_nonempty (k : string) :
  k <> "" ->
  (exists ip, getIntPart k = Ret (ip, nil_err) /\ valid_int ip /\
              k = ip ++ drop (String.length ip) k) \/
  (exists e, getIntPart k = Ret ("", Some e)).
Proof.
  intros N. destruct k as [|h r]; [congruence|].
  unfold getIntPart. cbn [go_bind first_byte].
  destruct (getIntLen_spec h) as [(n & E & R)|(e & E & _)]; rewrite E.
  - destruct (len (String h r) <? n) eqn:L.
    + right. eexists. reflexivity.
    + left. eexists. split; [reflexivity|].
      apply Z.ltb_ge in L. unfold len in L.
      assert (Ln : String.length (take (Z.to_nat n) (String h r)) = Z.to_nat n)
        by (apply length_take; lia).
      split.
      * destruct (Z.to_nat n) as [|m] eqn:Em; [lia|].
        simpl take in *. eapply validateInt_intro; [exact E|].
        unfold len. rewrite Ln. lia.
      * rewrite Ln. symmetry. apply take_drop.
  - right. eexists. reflexivity.
Qed.

Lemma validateOrderKey_inv (k : string) :
  valid_key k ->
  k <> "" /\ k <> smallestInt /\
  exists ip, getIntPart k = Ret (ip, nil_err) /\ valid_int ip /\
             k = ip ++ drop (String.length ip) k /\
             ends_in_0 (drop (String.length ip) k) = false.
Proof.
  unfold valid_key, validateOrderKey. intros H.
  destruct (String.eqb_spec k smallestInt) as [|Ns]; [discriminate|].
  destruct k as [|h r]; [discriminate|].
  split; [discriminate|]. split; [exact Ns|].
  destruct (getIntPart_nonempty (String h r)) as [(ip & E & V & D)|(e & E)];
    [discriminate| |]; rewrite E in H; simpl in H; [|discriminate].
  exists ip. repeat split; auto.
  rewrite HasSuffix_0 in H.
  destruct (ends_in_0 (drop (String.length ip) (String h r))); [discriminate|reflexivity].
Qed.

Lemma getIntPart_app (ip fp : string) :
  valid_int ip -> getIntPart (ip ++ fp) = Ret (ip, nil_err).
Proof.
  intros V. destruct (validateInt_inv ip V) as (h & ds & n & -> & E & L).
  unfold getIntPart. change (String h ds ++ fp) with (String h (ds ++ fp)).
  cbn [go_bind first_byte]. rewrite E.
  change (String h (ds ++ fp)) with (String h ds ++ fp).
  assert (Ln : Z.to_nat n = String.length (String h ds)) by (unfold len in L; lia).
  replace (len (String h ds ++ fp) <? n) with false.
  - now rewrite Ln, take_app_length.
  - symmetry. apply Z.ltb_ge. unfold len in *. rewrite length_app. lia.
Qed.

Lemma validateOrderKey_intro (ip fp : string) :
  valid_int ip -> ends_in_0 fp = false -> ip ++ fp <> smallestInt ->
  valid_key (ip ++ fp).
Proof.
  intros V Z N. unfold valid_key, validateOrderKey.
  destruct (String.eqb_spec (ip ++ fp) smallestInt) as [|_]; [contradiction|].
  rewrite getIntPart_app by exact V. simpl.
  now rewrite HasSuffix_0, drop_app_length, Z.
Qed.

(** A validator never panics on a non-empty key. *)
Lemma validateOrderKey_total (k : string) :
  k <> "" -> exists r, validateOrderKey k = Ret r.
Proof.
  intros N. unfold validateOrderKey.
  destruct (String.eqb k smallestInt); [eexists; reflexivity|].
  destruct (getIntPart_nonempty k N) as [(ip & E & _)|(e & E)]; rewrite E; simpl.
  - destruct (HasSuffix _ _); eexists; reflexivity.
  - eexists; reflexivity.
Qed.

Lemma is62_char (c : ascii) :
  is62 c = true -> c = byte_of (code_of_digit (digit c)).
Proof.
  intros H. destruct (is62_digit c H) as (_ & E & _).
  rewrite <- E. symmetry. apply byte_of_code.
Qed.

Lemma Index_single_digit (c : ascii) : Index base62Digits (String c "") = digit c.
Proof. now rewrite Index_single, digit_spec. Qed.

Lemma string_of_digit (d : Z) :
  0 <= d < 62 ->
  string_of_byte (byte_of (code_of_digit d)) = String (byte_of (code_of_digit d)) "".
Proof. intros H. apply is62_digit. now apply code_of_digit_range. Qed.

Lemma rep_neq_cons (c d : ascii) (s : string) (n : nat) :
  c <> d -> String c s <> rep d (S n).
Proof. simpl. congruence. Qed.

(** The carry loop on base-62 digits: either every digit was 'z' and the
    carry leaves them all '0', or the digits grew, at their length. *)
Lemma incr_loop_spec (ds : string) :
  base62 ds = true ->
  exists ds' carry,
    incr_loop (singles ds) = Ret (singles ds', carry) /\
    String.length ds' = String.length ds /\ base62 ds' = true /\
    (carry = true ->
       ds = rep "z" (String.length ds) /\ ds' = rep "0" (String.length ds)) /\
    (carry = false ->
       str_lt ds ds' /\ ds' <> rep "0" (String.length ds) /\
       ds <> rep "z" (String.length ds)).
Proof.
  induction ds as [|c r IH]; intros B.
  - exists "", true. repeat split; discriminate.
  - simpl in B. apply andb_true_iff in B as [Bc Br].
    destruct (IH Br) as (r' & carry & E & L & B' & Ht & Hf).
    cbn [singles incr_loop]. rewrite E. cbn [go_bind].
    destruct carry.
    + destruct (Ht eq_refl) as [Hz H0]. clear Ht Hf.
      rewrite Index_single_digit. change (len base62Digits) with 62.
      destruct (is62_digit c Bc) as (R & Ec & _).
      destruct (digit c + 1 =? 62) eqn:D.
      * apply Z.eqb_eq in D. exists (String "0" r'), true.
        assert (c = "z"%char) as ->
          by (apply code_inj; rewrite Ec; replace (digit c) with 61 by lia; reflexivity).
        repeat split; simpl; try congruence; try discriminate;
          try (now rewrite B').
      * apply Z.eqb_neq in D. rewrite digit_at_spec by lia.
        cbn [go_bind]. rewrite string_of_digit by lia.
        destruct (code_of_digit_range (digit c + 1)) as [Bn Dn]; [lia|].
        exists (String (byte_of (code_of_digit (digit c + 1))) r'), false.
        split; [reflexivity|]. split; [simpl; congruence|].
        split; [simpl; now rewrite Bn, B'|]. split; [discriminate|].
        intros _. split; [|split].
        -- apply str_lt_cons. left. apply digit_mono; auto. lia.
        -- apply rep_neq_cons. intros E0. rewrite E0 in Dn.
           change (digit "0") with 0 in Dn. lia.
        -- apply rep_neq_cons. intros E0. subst c.
           change (digit "z") with 61 in D. lia.
    + destruct (Hf eq_refl) as (Hlt & Hn0 & Hnz). clear Ht Hf.
      exists (String c r'), false.
      split; [reflexivity|]. split; [simpl; congruence|].
      split; [simpl; now rewrite Bc, B'|]. split; [discriminate|].
      intros _. split; [|split].
      * apply str_lt_cons. right. auto.
      * simpl. intros E0. injection E0 as _ E0. auto.
      * simpl. intros E0. injection E0 as _ E0. auto.
Qed.

(** The borrow loop on base-62 digits. *)
Lemma decr_loop_spec (ds : string) :
  base62 ds = true ->
  exists ds' borrow,
    decr_loop (singles ds) = Ret (singles ds', borrow) /\
    String.length ds' = String.length ds /\ base62 ds' = true /\
    (borrow = true ->
       ds = rep "0" (String.length ds) /\ ds' = rep "z" (String.length ds)) /\
    (borrow = false ->
       str_lt ds' ds /\ ds <> rep "0" (String.length ds) /\
       (ds' = rep "0" (String.length ds) ->
        ds = rep "0" (String.length ds - 1) ++ "1")).
Proof.
  induction ds as [|c r IH]; intros B.
  - exists "", true. repeat split; discriminate.
  - simpl in B. apply andb_true_iff in B as [Bc Br].
    destruct (IH Br) as (r' & borrow & E & L & B' & Ht & Hf).
    cbn [singles decr_loop]. rewrite E. cbn [go_bind].
    destruct borrow.
    + destruct (Ht eq_refl) as [Hz H0]. clear Ht Hf.
      rewrite Index_single_digit. change (len base62Digits - 1) with 61.
      destruct (is62_digit c Bc) as (R & Ec & _).
      destruct (digit c - 1 =? -1) eqn:D.
      * apply Z.eqb_eq in D. exists (String "z" r'), true.
        assert (c = "0"%char) as ->
          by (apply code_inj; rewrite Ec; replace (digit c) with 0 by lia; reflexivity).
        repeat split; simpl; try congruence; try discriminate;
          try (now rewrite B').
      * apply Z.eqb_neq in D. rewrite digit_at_spec by lia.
        cbn [go_bind]. rewrite string_of_digit by lia.
        destruct (code_of_digit_range (digit c - 1)) as [Bn Dn]; [lia|].
        exists (String (byte_of (code_of_digit (digit c - 1))) r'), false.
        split; [reflexivity|]. split; [simpl; congruence|].
        split; [simpl; now rewrite Bn, B'|]. split; [discriminate|].
        intros _. split; [|split].
        -- apply str_lt_cons. left. apply digit_mono; auto. lia.
        -- apply rep_neq_cons. intros E0. subst c.
           change (digit "0") with 0 in D. lia.
        -- replace (String.length (String c r) - 1)%nat with (String.length r)
             by (simpl; lia).
           simpl String.length. simpl rep.
           intros E0. injection E0 as Ec0 Er.
           destruct r' as [|x r'].
           ++ destruct r; [|discriminate]. simpl.
              f_equal. apply code_inj. rewrite Ec.
              rewrite Ec0 in Dn. change (digit "0") with 0 in Dn.
              replace (digit c) with 1 by lia. reflexivity.
           ++ rewrite H0 in Er. destruct (String.length r); discriminate.
    + destruct (Hf eq_refl) as (Hlt & Hn0 & Hone). clear Ht Hf.
      exists (String c r'), false.
      split; [reflexivity|]. split; [simpl; congruence|].
      split; [simpl; now rewrite Bc, B'|]. split; [discriminate|].
      intros _. split; [|split].
      * apply str_lt_cons. right. auto.
      * simpl. intros E0. injection E0 as _ E0. auto.
      * replace (String.length (String c r) - 1)%nat with (String.length r)
          by (simpl; lia).
        simpl String.length. simpl rep.
        intros E0. injection E0 as Ec0 Er. subst c.
        rewrite (Hone Er) at 1. destruct r as [|y r]; [now apply str_lt_nil_r in Hlt|].
        replace (String.length (String y r) - 1)%nat with (String.length r)
          by (simpl; lia).
        reflexivity.
Qed.

Lemma Join_cons (x : string) (l : list string) : Join (x :: l) = x ++ Join l.
Proof.
  unfold Join. destruct l as [|y l]; simpl; [now rewrite app_nil_r|reflexivity].
Qed.

Lemma Join_singles_snoc (s t : string) : Join (singles s ++ [t])%list = s ++ t.
Proof.
  induction s as [|c s IH]; [reflexivity|].
  simpl singles. simpl app. rewrite Join_cons, IH. reflexivity.
Qed.

Lemma str_gtb_single (c : ascii) : str_gtb (String c "") "a" = (97 <? code c).
Proof.
  unfold str_gtb, String.ltb. rewrite compare_cons. change (code "a") with 97.
  destruct (Z.compare_spec 97 (code c)); simpl; symmetry;
    [apply Z.ltb_ge|apply Z.ltb_lt|apply Z.ltb_ge]; lia.
Qed.

Lemma single_eqb (c d : ascii) : String.eqb (String c "") (String d "") = Ascii.eqb c d.
Proof. simpl. now destruct (Ascii.eqb c d). Qed.

Lemma smallestInt_rep : smallestInt = String "A" (rep "0" 26).
Proof. reflexivity. Qed.

(** [incrementInt] on a base-62 integer part: overflow exactly at the
    largest one, otherwise an integer part above every key that extends the
    argument. *)
Lemma incrementInt_spec (x : string) :
  valid_int x -> base62 x = true ->
  exists i, incrementInt x = Ret (i, nil_err) /\
    ((i = "" /\ x = rep "z" 27) \/
     (valid_int i /\ base62 i = true /\ i <> "" /\ i <> smallestInt /\
      (forall f, str_lt (x ++ f) i) /\ x <> rep "z" 27)).
Proof.
  intros V B. destruct (validateInt_inv x V) as (h & ds & n & -> & E & L).
  unfold incrementInt. rewrite V. cbn [go_bind].
  rewrite (Split_base62 _ B). cbn [singles].
  simpl in B. apply andb_true_iff in B as [Bh Bd].
  destruct (incr_loop_spec ds Bd) as (ds' & carry & El & Ll & Bd' & Ht & Hf).
  rewrite El. cbn [go_bind].
  assert (Ln : Z.of_nat (String.length ds) = n - 1) by (unfold len in L; simpl in L; lia).
  destruct (getIntLen_spec h) as [(n0 & E0 & R)|(e & E0 & _)]; [|congruence].
  rewrite E in E0. injection E0 as <-.
  destruct carry.
  - destruct (Ht eq_refl) as [Hz H0]. clear Ht Hf.
    change "Z" with (String "Z"%char ""). change "z" with (String "z"%char "").
    rewrite !single_eqb.
    destruct (Ascii.eqb_spec h "Z") as [->|NZ].
    { exists "a0". split; [reflexivity|]. right.
      split; [reflexivity|]. split; [reflexivity|].
      split; [discriminate|]. split; [discriminate|]. split; [|discriminate].
      intros f. apply str_lt_cons. left. reflexivity. }
    destruct (Ascii.eqb_spec h "z") as [->|Nz].
    { exists "". split; [reflexivity|]. left. split; [reflexivity|].
      change (code "z") with 122 in R.
      assert (String.length ds = 26%nat) as Hl by lia.
      rewrite Hz, Hl. reflexivity. }
    cbn [first_byte go_bind].
    assert (NZc : code h <> 90) by (intros C; apply NZ, code_inj; exact C).
    assert (Nzc : code h <> 122) by (intros C; apply Nz, code_inj; exact C).
    pose proof (code_range h) as Rh.
    assert (Ch : code (byte_of (code h + 1)) = code h + 1)
      by (apply code_byte_of; lia).
    assert (Sh : string_of_byte (byte_of (code h + 1)) = String (byte_of (code h + 1)) "").
    { unfold string_of_byte. rewrite Ch. destruct (code h + 1 <? 128) eqn:C; [reflexivity|lia]. }
    rewrite Sh, str_gtb_single, Ch.
    assert (Bh' : is62 (byte_of (code h + 1)) = true) by (apply is62_code; lia).
    destruct (97 <? code h + 1) eqn:C.
    + cbn [go_bind]. rewrite Join_singles_snoc.
      exists (String (byte_of (code h + 1)) (ds' ++ "0")).
      split; [reflexivity|]. right.
      split; [|split; [|split; [|split; [|split]]]].
      * eapply validateInt_intro with (n := n + 1).
        -- unfold getIntLen. rewrite Ch.
           change (code "a") with 97. change (code "z") with 122.
           replace ((97 <=? code h + 1) && (code h + 1 <=? 122)) with true by lia.
           f_equal. lia.
        -- unfold len. simpl. rewrite length_app, Ll. simpl. lia.
      * simpl. rewrite Bh', base62_app, Bd'. reflexivity.
      * discriminate.
      * rewrite smallestInt_rep. intros Es. injection Es as Es _.
        apply (f_equal code) in Es. rewrite Ch in Es. change (code "A") with 65 in Es. lia.
      * intros f. apply str_lt_cons. left. lia.
      * intros Es. simpl in Es. injection Es as Es _. contradiction.
    + destruct ds' as [|d0 ds'].
      { simpl in Ll. lia. }
      cbn [singles tail_slice go_bind]. rewrite Join_singles.
      exists (String (byte_of (code h + 1)) ds').
      split; [reflexivity|]. right.
      split; [|split; [|split; [|split; [|split]]]].
      * eapply validateInt_intro with (n := n - 1).
        -- unfold getIntLen. rewrite Ch.
           change (code "a") with 97. change (code "z") with 122.
           change (code "A") with 65. change (code "Z") with 90.
           replace ((97 <=? code h + 1) && (code h + 1 <=? 122)) with false by lia.
           replace ((65 <=? code h + 1) && (code h + 1 <=? 90)) with true by lia.
           f_equal. lia.
        -- unfold len. simpl in *. lia.
      * simpl in *. apply andb_true_iff in Bd' as [_ Bd']. now rewrite Bh', Bd'.
      * discriminate.
      * rewrite smallestInt_rep. intros Es. injection Es as Es _.
        apply (f_equal code) in Es. rewrite Ch in Es. change (code "A") with 65 in Es. lia.
      * intros f. apply str_lt_cons. left. lia.
      * intros Es. simpl in Es. injection Es as Es _. contradiction.
  - destruct (Hf eq_refl) as (Hlt & Hn0 & Hnz). clear Ht Hf.
    rewrite Join_singles.
    exists (String h ds'). split; [reflexivity|]. right.
    split; [|split; [|split; [|split; [|split]]]].
    + eapply validateInt_intro; [exact E|]. unfold len in *. simpl in *. lia.
    + simpl. now rewrite Bh, Bd'.
    + discriminate.
    + rewrite smallestInt_rep. intros Es. injection Es as -> Es.
      change (code "A") with 65 in R.
      assert (String.length ds = 26%nat) as Hl by lia.
      rewrite Hl in Hn0. contradiction.
    + intros f. apply str_lt_cons. right. split; [reflexivity|].
      rewrite <- (app_nil_r ds').
      apply str_lt_app_same_length; [congruence|exact Hlt].
    + intros Es. simpl in Es. injection Es as -> Es.
      change (code "z") with 122 in R.
      assert (String.length ds = 26%nat) as Hl by lia.
      rewrite Hl in Hnz. contradiction.
Qed.

Lemma rep_snoc_neq (c d : ascii) (m n : nat) :
  c <> d -> (0 < m)%nat -> rep c m ++ String c "" <> rep d n.
Proof.
  intros N Hm. destruct m as [|m]; [lia|]. destruct n as [|n]; simpl; congruence.
Qed.

(** [decrementInt] on a base-62 integer part: underflow exactly at
    [smallestInt], otherwise an integer part below the argument. *)
Lemma decrementInt_spec (x : string) :
  valid_int x -> base62 x = true ->
  exists r, decrementInt x = Ret (r, nil_err) /\
    ((r = "" /\ x = smallestInt) \/
     (valid_int r /\ base62 r = true /\ r <> "" /\ str_lt r x /\
      x <> smallestInt /\
      (r = smallestInt -> x = String "A" (rep "0" 25 ++ "1")))).
Proof.
  intros V B. destruct (validateInt_inv x V) as (h & ds & n & -> & E & L).
  unfold decrementInt. rewrite V. cbn [go_bind].
  rewrite (Split_base62 _ B). cbn [singles].
  simpl in B. apply andb_true_iff in B as [Bh Bd].
  destruct (decr_loop_spec ds Bd) as (ds' & borrow & El & Ll & Bd' & Ht & Hf).
  rewrite El. cbn [go_bind].
  assert (Ln : Z.of_nat (String.length ds) = n - 1) by (unfold len in L; simpl in L; lia).
  destruct (getIntLen_spec h) as [(n0 & E0 & R)|(e & E0 & _)]; [|congruence].
  rewrite E in E0. injection E0 as <-.
  destruct borrow.
  - destruct (Ht eq_refl) as [Hz H0]. clear Ht Hf.
    change "a" with (String "a"%char ""). change "A" with (String "A"%char "").
    rewrite !single_eqb. change (len base62Digits - 1) with 61.
    destruct (Ascii.eqb_spec h "a") as [->|Na].
    { exists "Zz". split; [reflexivity|]. right.
      split; [reflexivity|]. split; [reflexivity|].
      split; [discriminate|]. split; [|split; discriminate].
      apply str_lt_cons. left. reflexivity. }
    destruct (Ascii.eqb_spec h "A") as [->|NA].
    { exists "". split; [reflexivity|]. left. split; [reflexivity|].
      change (code "A") with 65 in R.
      assert (String.length ds = 26%nat) as Hl by lia.
      rewrite Hz, Hl. reflexivity. }
    cbn [first_byte go_bind].
    assert (Nac : code h <> 97) by (intros C; apply Na, code_inj; exact C).
    assert (NAc : code h <> 65) by (intros C; apply NA, code_inj; exact C).
    pose proof (code_range h) as Rh.
    assert (Ch : code (byte_of (code h - 1)) = code h - 1)
      by (apply code_byte_of; lia).
    assert (Sh : string_of_byte (byte_of (code h - 1)) = String (byte_of (code h - 1)) "").
    { unfold string_of_byte. rewrite Ch. destruct (code h - 1 <? 128) eqn:C; [reflexivity|lia]. }
    rewrite Sh, Ch. change (code "Z") with 90.
    assert (Bh' : is62 (byte_of (code h - 1)) = true) by (apply is62_code; lia).
    destruct (code h - 1 <? 90) eqn:C.
    + rewrite digit_at_spec by lia. cbn [go_bind].
      change (string_of_byte (byte_of (code_of_digit 61))) with "z".
      rewrite Join_singles_snoc.
      exists (String (byte_of (code h - 1)) (ds' ++ "z")).
      split; [reflexivity|]. right.
      split; [|split; [|split; [|split; [|split]]]].
      * eapply validateInt_intro with (n := n + 1).
        -- unfold getIntLen. rewrite Ch.
           change (code "a") with 97. change (code "z") with 122.
           change (code "A") with 65. change (code "Z") with 90.
           replace ((97 <=? code h - 1) && (code h - 1 <=? 122)) with false by lia.
           replace ((65 <=? code h - 1) && (code h - 1 <=? 90)) with true by lia.
           f_equal. lia.
        -- unfold len. simpl. rewrite length_app, Ll. simpl. lia.
      * simpl. rewrite Bh', base62_app, Bd'. reflexivity.
      * discriminate.
      * apply str_lt_cons. left. lia.
      * rewrite smallestInt_rep. intros Es. injection Es as Es _. contradiction.
      * rewrite smallestInt_rep. intros Es. injection Es as _ Es.
        exfalso. rewrite H0 in Es.
        assert (Hm : (0 < String.length ds)%nat) by lia.
        exact (rep_snoc_neq "z" "0" _ 26 ltac:(discriminate) Hm Es).
    + destruct ds' as [|d0 ds'].
      { simpl in Ll. lia. }
      cbn [singles tail_slice go_bind]. rewrite Join_singles.
      exists (String (byte_of (code h - 1)) ds').
      split; [reflexivity|]. right.
      split; [|split; [|split; [|split; [|split]]]].
      * eapply validateInt_intro with (n := n - 1).
        -- unfold getIntLen. rewrite Ch.
           change (code "a") with 97. change (code "z") with 122.
           replace ((97 <=? code h - 1) && (code h - 1 <=? 122)) with true by lia.
           f_equal. lia.
        -- unfold len. simpl in *. lia.
      * simpl in *. apply andb_true_iff in Bd' as [_ Bd']. now rewrite Bh', Bd'.
      * discriminate.
      * apply str_lt_cons. left. lia.
      * rewrite smallestInt_rep. intros Es. injection Es as Es _. contradiction.
      * rewrite smallestInt_rep. intros Es. injection Es as Es _.
        apply (f_equal code) in Es. rewrite Ch in Es. change (code "A") with 65 in Es. lia.
  - destruct (Hf eq_refl) as (Hlt & Hn0 & Hone). clear Ht Hf.
    rewrite Join_singles.
    exists (String h ds'). split; [reflexivity|]. right.
    split; [|split; [|split; [|split; [|split]]]].
    + eapply validateInt_intro; [exact E|]. unfold len in *. simpl in *. lia.
    + simpl. now rewrite Bh, Bd'.
    + discriminate.
    + apply str_lt_cons. right. auto.
    + rewrite smallestInt_rep. intros Es. injection Es as -> Es.
      change (code "A") with 65 in R.
      assert (String.length ds = 26%nat) as Hl by lia.
      rewrite Hl in Hn0. contradiction.
    + rewrite smallestInt_rep. intros Es. injection Es as -> Es.
      change (code "A") with 65 in R.
      assert (String.length ds = 26%nat) as Hl by lia.
      rewrite Hl in Hone. f_equal. apply Hone. exact Es.
Qed.

(** ** The midpoint engine: termination *)

Lemma midpoint_fuel_S (fuel : nat) (a b : string) :
  midpoint_fuel (S fuel) a b = midpoint_body (midpoint_fuel fuel) a b.
Proof. reflexivity. Qed.

Lemma prefix_len_le (a b : string) : (prefix_len a b <= String.length b)%nat.
Proof.
  revert a. induction b as [|y b IH]; intros a; simpl; [lia|].
  destruct (Ascii.eqb _ y); [|lia]. specialize (IH (match a with String _ a' => a' | "" => "" end)). lia.
Qed.

(** The recursive calls of one unfolding are on strictly shorter
    arguments. *)
Lemma midpoint_body_ext (rec rec' : string -> string -> option (go string))
  (a b : string) :
  (forall x y, (String.length x + String.length y <
                String.length a + String.length b)%nat -> rec x y = rec' x y) ->
  midpoint_body rec a b = midpoint_body rec' a b.
Proof.
  intros H. unfold midpoint_body.
  destruct (String.eqb_spec b "") as [->|Nb].
  - change (String.eqb "" "") with true. cbv iota zeta.
    change (0 <? 0)%nat with false. cbv iota.
    destruct a as [|a0 a'].
    + reflexivity.
    + destruct (1 <? _); [reflexivity|]. destruct (1 <? _); [reflexivity|].
      destruct (digit_at _); [|reflexivity]. rewrite H; [reflexivity|simpl; lia].
  - pose proof (prefix_len_le a b) as Hp.
    destruct (0 <? prefix_len a b)%nat eqn:Ei.
    + apply Nat.ltb_lt in Ei.
      destruct (String.length a <? prefix_len a b)%nat.
      * rewrite H; [reflexivity|]. rewrite length_drop. simpl. lia.
      * rewrite H; [reflexivity|]. rewrite !length_drop. lia.
    + destruct (1 <? _); [reflexivity|]. destruct (1 <? _); [reflexivity|].
      destruct (digit_at _); [|reflexivity].
      rewrite H; [reflexivity|].
      destruct b as [|b0 b']; [congruence|]. destruct a; simpl; lia.
Qed.

Lemma midpoint_body_some (rec : string -> string -> option (go string))
  (a b : string) :
  (forall x y, (String.length x + String.length y <
                String.length a + String.length b)%nat ->
               exists r, rec x y = Some r) ->
  exists r, midpoint_body rec a b = Some r.
Proof.
  intros H. unfold midpoint_body.
  destruct (String.eqb_spec b "") as [->|Nb].
  - change (String.eqb "" "") with true. cbv iota zeta.
    change (0 <? 0)%nat with false. cbv iota.
    destruct a as [|a0 a'].
    + eexists; reflexivity.
    + destruct (1 <? _); [eexists; reflexivity|].
      destruct (1 <? _); [eexists; reflexivity|].
      destruct (digit_at _); [|eexists; reflexivity].
      destruct (H a' "") as [r ->]; [simpl; lia|]. eexists; reflexivity.
  - pose proof (prefix_len_le a b) as Hp.
    destruct (0 <? prefix_len a b)%nat eqn:Ei.
    + apply Nat.ltb_lt in Ei.
      destruct (String.length a <? prefix_len a b)%nat.
      * destruct (H "" (drop (prefix_len a b) b)) as [r ->];
          [rewrite length_drop; simpl; lia|]. eexists; reflexivity.
      * destruct (H (drop (prefix_len a b) a) (drop (prefix_len a b) b)) as [r ->];
          [rewrite !length_drop; lia|]. eexists; reflexivity.
    + destruct (1 <? _); [eexists; reflexivity|].
      destruct (1 <? _); [eexists; reflexivity|].
      destruct (digit_at _); [|eexists; reflexivity].
      destruct (H (match a with String _ a' => a' | "" => "" end) "") as [r ->];
        [|eexists; reflexivity].
      destruct b as [|b0 b']; [congruence|]. destruct a; simpl; lia.
Qed.

Lemma midpoint_fuel_some (fuel : nat) (a b : string) :
  (String.length a + String.length b < fuel)%nat ->
  exists r, midpoint_fuel fuel a b = Some r.
Proof.
  revert a b. induction fuel as [|fuel IH]; intros a b H; [lia|].
  rewrite midpoint_fuel_S. apply midpoint_body_some.
  intros x y L. apply IH. lia.
Qed.

Lemma midpoint_fuel_stable (fuel1 fuel2 : nat) (a b : string) :
  (String.length a + String.length b < fuel1)%nat ->
  (String.length a + String.length b < fuel2)%nat ->
  midpoint_fuel fuel1 a b = midpoint_fuel fuel2 a b.
Proof.
  revert fuel2 a b. induction fuel1 as [|fuel1 IH]; intros [|fuel2] a b H1 H2;
    try lia.
  rewrite !midpoint_fuel_S. apply midpoint_body_ext.
  intros x y L. apply IH; lia.
Qed.

Lemma midpoint_fuel_midpoint (fuel : nat) (a b : string) :
  (String.length a + String.length b < fuel)%nat ->
  midpoint_fuel fuel a b = Some (midpoint a b).
Proof.
  intros H. unfold midpoint.
  rewrite (midpoint_fuel_stable fuel (S (String.length a + String.length b)))
    by lia.
  destruct (midpoint_fuel_some (S (String.length a + String.length b)) a b)
    as [r ->]; [lia|reflexivity].
Qed.

(** [midpoint] satisfies the recursive equation of the source. *)
Lemma midpoint_eq (a b : string) :
  Some (midpoint a b) = midpoint_body (fun x y => Some (midpoint x y)) a b.
Proof.
  rewrite <- (midpoint_fuel_midpoint (S (String.length a + String.length b))) by lia.
  rewrite midpoint_fuel_S. apply midpoint_body_ext.
  intros x y L. apply midpoint_fuel_midpoint. lia.
Qed.

(** ** The midpoint engine: correctness on base-62 fractions *)

Lemma take_nil (n : nat) : take n "" = "".
Proof. now destruct n. Qed.

Lemma prefix_len_take (a b : string) :
  take (prefix_len a b) b =
  take (prefix_len a b) a ++ rep "0" (prefix_len a b - String.length a).
Proof.
  revert a. induction b as [|y b IH]; intros a.
  - reflexivity.
  - simpl prefix_len. destruct a as [|x a].
    + destruct (Ascii.eqb_spec "0" y) as [<-|N]; [|reflexivity].
      simpl take. rewrite IH, take_nil. simpl. now rewrite Nat.sub_0_r.
    + destruct (Ascii.eqb_spec x y) as [<-|N]; [|reflexivity].
      simpl. now rewrite IH.
Qed.

Lemma prefix_len_zero (a : string) (b0 : ascii) (b' : string) :
  prefix_len a (String b0 b') = 0%nat ->
  match a with String x _ => x | "" => "0"%char end <> b0.
Proof.
  simpl. destruct (Ascii.eqb_spec (match a with String x _ => x | "" => "0"%char end) b0);
    [discriminate|auto].
Qed.

Lemma round_half_between (A B : Z) :
  0 <= A -> A + 1 < B -> A < round_half (A + B) < B.
Proof.
  intros HA HB. unfold round_half.
  destruct (0 <=? A + B) eqn:E; [|lia].
  pose proof (Z.div_mod (A + B + 1) 2 ltac:(lia)) as D.
  pose proof (Z.mod_pos_bound (A + B + 1) 2 ltac:(lia)) as M. lia.
Qed.

Lemma digit_zero (c : ascii) : is62 c = true -> digit c = 0 -> c = "0"%char.
Proof. intros H E. rewrite (is62_char c H), E. reflexivity. Qed.

Lemma ends_in_0_single (c : ascii) :
  is62 c = true -> 0 < digit c -> ends_in_0 (String c "") = false.
Proof.
  intros H D. simpl. destruct (Ascii.eqb_spec c "0") as [->|N]; [|reflexivity].
  change (digit "0") with 0 in D. lia.
Qed.

Lemma ends_in_0_cons (c : ascii) (s : string) :
  s <> "" -> ends_in_0 (String c s) = ends_in_0 s.
Proof. destruct s; [congruence|reflexivity]. Qed.

(** The single digit that step 3 of the midpoint picks. *)
Lemma mid_digit_spec (A B : Z) :
  0 <= A -> A + 1 < B -> B <= 62 ->
  exists c, digit_at (round_half (A + B)) = Ret c /\ is62 c = true /\
            string_of_byte c = String c "" /\ A < digit c < B.
Proof.
  intros HA HB HB'. pose proof (round_half_between A B HA HB) as R.
  exists (byte_of (code_of_digit (round_half (A + B)))).
  destruct (code_of_digit_range (round_half (A + B))) as [I D]; [lia|].
  rewrite digit_at_spec by lia. rewrite D.
  split; [reflexivity|]. split; [exact I|]. split; [|exact R].
  now apply is62_digit.
Qed.

Lemma ends_in_0_rep (k : nat) : ends_in_0 (rep "0" (S k)) = true.
Proof. induction k as [|k IH]; [reflexivity|exact IH]. Qed.

Lemma midpoint_spec_aux (n : nat) : forall a b,
  (String.length a + String.length b < n)%nat ->
  base62 a = true -> base62 b = true -> ends_in_0 b = false ->
  (b = "" \/ str_lt a b) ->
  exists m, midpoint a b = Ret m /\ base62 m = true /\ ends_in_0 m = false /\
            m <> "" /\ str_lt a m /\ (b <> "" -> str_lt m b).
Proof.
  induction n as [|n IH]; intros a b L Ba Bb Zb O; [lia|].
  pose proof (midpoint_eq a b) as E. unfold midpoint_body in E.
  destruct b as [|b0 b'].
  - (* no upper bound *)
    change (String.eqb "" "") with true in E. cbv iota zeta in E.
    change (0 <? 0)%nat with false in E. cbv iota in E.
    change (len base62Digits) with 62 in E. change (1 <? len "") with false in E.
    destruct a as [|a0 a'].
    + exists "V". repeat split; try reflexivity; try discriminate. congruence.
    + simpl in Ba. apply andb_true_iff in Ba as [Ia Ba].
      destruct (is62_digit a0 Ia) as (Ra & Ca & Sa).
      destruct (1 <? 62 - digit a0) eqn:C.
      * destruct (mid_digit_spec (digit a0) 62) as (c & Ec & Ic & Sc & Rc); try lia.
        rewrite Ec in E. cbn [go_bind] in E. rewrite Sc in E. injection E as E.
        exists (String c ""). split; [exact E|].
        split; [simpl; now rewrite Ic|]. split; [apply ends_in_0_single; [exact Ic|lia]|].
        split; [discriminate|]. split; [|congruence].
        apply str_lt_cons. left. apply digit_mono; auto. lia.
      * cbv iota in E. rewrite digit_at_spec, <- (is62_char a0 Ia) in E by lia.
        destruct (IH a' "") as (m & Em & Bm & Zm & Nm & Lm & _);
          try (cbn [String.length] in *; lia); auto.
        rewrite Em, Sa in E. cbn [go_bind] in E. injection E as E.
        exists (String a0 m). split; [exact E|].
        split; [simpl; now rewrite Ia, Bm|].
        split; [now rewrite ends_in_0_cons|]. split; [discriminate|].
        split; [|congruence]. apply str_lt_cons. right. auto.
  - (* an upper bound *)
    destruct O as [O|O]; [discriminate|].
    change (String.eqb (String b0 b') "") with false in E. cbv iota zeta in E.
    pose proof (prefix_len_take a (String b0 b')) as P.
    pose proof (prefix_len_le a (String b0 b')) as Pl.
    destruct (0 <? prefix_len a (String b0 b'))%nat eqn:Ep.
    + (* a common prefix is stripped *)
      apply Nat.ltb_lt in Ep.
      set (p := prefix_len a (String b0 b')) in *.
      destruct (base62_take_drop p _ Bb) as [Bt Bd].
      pose proof (ends_in_0_drop p _ Zb) as Zd.
      pose proof (take_drop p (String b0 b')) as TD.
      destruct (String.length a <? p)%nat eqn:Ea.
      * apply Nat.ltb_lt in Ea.
        assert (Ta : take p a = a).
        { rewrite <- (take_drop p a) at 2.
          assert (drop p a = "") as -> by (apply length_zero; rewrite length_drop; lia).
          now rewrite app_nil_r. }
        rewrite Ta in P.
        assert (Nd : drop p (String b0 b') <> "").
        { intros Ed. rewrite Ed, app_nil_r in TD. rewrite <- TD, P in Zb.
          rewrite ends_in_0_app in Zb.
          destruct (p - String.length a)%nat as [|k] eqn:Ek; [lia|].
          rewrite ends_in_0_rep in Zb. simpl rep in Zb. discriminate. }
        destruct (IH "" (drop p (String b0 b'))) as (m & Em & Bm & Zm & Nm & _ & Lm);
          auto.
        { rewrite length_drop. cbn [String.length] in *; lia. }
        { right. destruct (drop p (String b0 b')); [congruence|reflexivity]. }
        rewrite Em in E. cbn [go_bind] in E. injection E as E.
        exists (take p (String b0 b') ++ m). split; [exact E|].
        split; [now rewrite base62_app, Bt, Bm|].
        split; [rewrite ends_in_0_app; destruct m; [congruence|exact Zm]|].
        split; [destruct (take p (String b0 b')), m; simpl; congruence|].
        split.
        -- rewrite P, app_assoc. apply str_lt_app_r.
           destruct (rep "0" (p - String.length a)), m; simpl; congruence.
        -- intros _. rewrite <- TD at 2. apply str_lt_app. auto.
      * apply Nat.ltb_ge in Ea.
        replace (p - String.length a)%nat with 0%nat in P by lia.
        simpl rep in P. rewrite app_nil_r in P.
        destruct (base62_take_drop p _ Ba) as [_ Bda].
        assert (Od : str_lt (drop p a) (drop p (String b0 b'))).
        { rewrite <- (take_drop p a), <- TD, P in O. now apply str_lt_app in O. }
        destruct (IH (drop p a) (drop p (String b0 b'))) as (m & Em & Bm & Zm & Nm & Lm & Um);
          auto.
        { rewrite !length_drop. cbn [String.length] in *; lia. }
        rewrite Em in E. cbn [go_bind] in E. injection E as E.
        assert (Nd : drop p (String b0 b') <> "")
          by (intros Ed; rewrite Ed in Od; now apply str_lt_nil_r in Od).
        exists (take p (String b0 b') ++ m). split; [exact E|].
        split; [now rewrite base62_app, Bt, Bm|].
        split; [rewrite ends_in_0_app; destruct m; [congruence|exact Zm]|].
        split; [destruct (take p (String b0 b')), m; simpl; congruence|].
        split.
        -- rewrite <- (take_drop p a) at 1. rewrite P. apply str_lt_app. exact Lm.
        -- intros _. rewrite <- TD at 2. apply str_lt_app. auto.
    + (* the first digits differ *)
      apply Nat.ltb_ge in Ep.
      assert (P0 : prefix_len a (String b0 b') = 0%nat) by lia.
      apply prefix_len_zero in P0. clear P Pl Ep.
      simpl in Bb. apply andb_true_iff in Bb as [Ib Bb].
      destruct (is62_digit b0 Ib) as (Rb & Cb & Sb).
      assert (Hdig : exists dA c0 sa,
                dA = match a with "" => 0 | String a0 _ => digit a0 end /\
                sa = match a with String _ a' => a' | "" => "" end /\
                0 <= dA < digit b0 /\ digit_at dA = Ret c0 /\
                string_of_byte c0 = String c0 "" /\ is62 c0 = true /\
                base62 sa = true /\ (String.length sa <= String.length a)%nat /\
                str_lt a (String b0 "") /\
                (forall m, str_lt sa m -> str_lt a (String c0 m)) /\
                code c0 < code b0).
      { destruct a as [|a0 a'].
        - exists 0, "0"%char, "". repeat split; try reflexivity; try lia.
          + destruct (Z.eq_dec (digit b0) 0) as [D0|]; [|lia].
            apply digit_zero in D0; auto. congruence.
          + apply (digit_mono "0" b0); auto.
            destruct (Z.eq_dec (digit b0) 0) as [D0|]; [|change (digit "0") with 0; lia].
            apply digit_zero in D0; auto. congruence.
        - simpl in Ba. apply andb_true_iff in Ba as [Ia Ba].
          destruct (is62_digit a0 Ia) as (Ra & Ca & Sa).
          apply str_lt_cons in O. destruct O as [O|[O _]]; [|congruence].
          exists (digit a0), a0, a'. split; [reflexivity|]. split; [reflexivity|].
          split; [split; [lia|now apply digit_mono]|].
          split; [rewrite digit_at_spec by lia; now rewrite <- is62_char|].
          split; [exact Sa|]. split; [exact Ia|]. split; [exact Ba|].
          split; [simpl; lia|]. split; [apply str_lt_cons; now left|].
          split; [|exact O]. intros m Hm. apply str_lt_cons. right. auto. }
      destruct Hdig as (dA & c0 & sa & EdA & Esa & RdA & EcA & ScA & IcA & Bsa & Lsa & Lab & Lext & Lc).
      rewrite <- EdA, <- Esa in E.
      destruct (1 <? digit b0 - dA) eqn:C.
      * destruct (mid_digit_spec dA (digit b0)) as (c & Ec & Ic & Sc & Rc); try lia.
        rewrite Ec in E. cbn [go_bind] in E. rewrite Sc in E. injection E as E.
        exists (String c ""). split; [exact E|].
        split; [simpl; now rewrite Ic|]. split; [apply ends_in_0_single; [exact Ic|lia]|].
        split; [discriminate|]. split.
        -- destruct a as [|a0 a']; [reflexivity|]. apply str_lt_cons. left.
           simpl in Ba. apply andb_true_iff in Ba as [Ia _].
           apply digit_mono; auto. lia.
        -- intros _. apply str_lt_cons. left. apply digit_mono; auto. lia.
      * destruct (1 <? len (String b0 b')) eqn:Cl.
        -- injection E as E. simpl take in E.
           exists (String b0 ""). split; [exact E|].
           split; [simpl; now rewrite Ib|].
           split; [apply ends_in_0_single; [exact Ib|lia]|].
           split; [discriminate|]. split; [exact Lab|].
           intros _. apply str_lt_cons. right. split; [reflexivity|].
           destruct b' as [|b1 b'']; [discriminate Cl|reflexivity].
        -- assert (b' = "") as -> by (destruct b'; [reflexivity|exfalso; unfold len in Cl; cbn [String.length] in Cl; apply Z.ltb_ge in Cl; lia]).
           rewrite EcA in E.
           destruct (IH sa "") as (m & Em & Bm & Zm & Nm & Lm & _); auto.
           { cbn [String.length] in *; lia. }
           rewrite Em, ScA in E. cbn [go_bind] in E. injection E as E.
           exists (String c0 m). split; [exact E|].
           split; [simpl; now rewrite IcA, Bm|].
           split; [now rewrite ends_in_0_cons|]. split; [discriminate|].
           split; [now apply Lext|].
           intros _. apply str_lt_cons. now left.
Qed.

(** For base-62 fractions [a < b] (or no upper bound) without a trailing
    '0' in [b], [midpoint a b] is a fraction strictly between them that does
    not end in '0'. *)
Lemma midpoint_spec (a b : string) :
  base62 a = true -> base62 b = true -> ends_in_0 b = false ->
  (b = "" \/ str_lt a b) ->
  exists m, midpoint a b = Ret m /\ base62 m = true /\ ends_in_0 m = false /\
            m <> "" /\ str_lt a m /\ (b <> "" -> str_lt m b).
Proof. apply (midpoint_spec_aux (S (String.length a + String.length b))). lia. Qed.

(** ** [KeyBetween] on base-62 keys *)

Lemma check_key_ok {R} (k : string) (fail : string -> go R) (cont : go R) :
  k = "" \/ valid_key k -> check_key k fail cont = cont.
Proof.
  unfold check_key. intros [->|V]; [reflexivity|].
  destruct (String.eqb k ""); [reflexivity|]. now rewrite V.
Qed.

Lemma app_neq_smallestInt (ip fp : string) :
  valid_int ip -> fp <> "" -> ip ++ fp <> smallestInt.
Proof.
  intros V N E. pose proof (getIntPart_app ip fp V) as G. rewrite E in G.
  vm_compute in G. injection G as G. subst ip.
  apply N. apply (app_inv_head smallestInt). now rewrite app_nil_r.
Qed.

Lemma valid_key_int (ip : string) :
  valid_int ip -> ip <> smallestInt -> valid_key ip.
Proof.
  intros V N. rewrite <- (app_nil_r ip). apply validateOrderKey_intro; auto.
  now rewrite app_nil_r.
Qed.

Lemma valid_key_app (ip fp : string) :
  valid_int ip -> fp <> "" -> ends_in_0 fp = false -> valid_key (ip ++ fp).
Proof.
  intros V N Z. apply validateOrderKey_intro; auto. now apply app_neq_smallestInt.
Qed.

Lemma str_lt_app_inv_same_length (p q s t : string) :
  String.length p = String.length q -> p <> q ->
  str_lt (p ++ s) (q ++ t) -> str_lt p q.
Proof.
  revert q. induction p as [|c p IH]; intros [|d q] L N H; simpl in *;
    try discriminate; [congruence|].
  apply str_lt_cons in H. apply str_lt_cons.
  destruct H as [H|[-> H]]; [now left|right]. split; [reflexivity|].
  apply IH; [congruence|congruence|exact H].
Qed.

(** Keys with different integer parts are ordered by their integer parts,
    whatever their fractions. *)
Lemma int_parts_ordered (ia ib fa fb : string) :
  valid_int ia -> valid_int ib -> ia <> ib ->
  str_lt (ia ++ fa) (ib ++ fb) ->
  forall f g, str_lt (ia ++ f) (ib ++ g).
Proof.
  intros Va Vb N H f g.
  destruct (validateInt_inv ia Va) as (ha & da & na & -> & Ea & La).
  destruct (validateInt_inv ib Vb) as (hb & db & nb & -> & Eb & Lb).
  simpl in H |- *. apply str_lt_cons in H. apply str_lt_cons.
  destruct H as [H|[-> H]]; [now left|right]. split; [reflexivity|].
  rewrite Ea in Eb. injection Eb as <-.
  assert (L : String.length da = String.length db)
    by (unfold len in *; cbn [String.length] in *; lia).
  apply str_lt_app_same_length; [exact L|].
  apply (str_lt_app_inv_same_length da db fa fb); [exact L|congruence|exact H].
Qed.

Lemma rep_z_max (s : string) :
  base62 s = true -> ~ str_lt (rep "z" (String.length s)) s.
Proof.
  induction s as [|c s IH]; intros B H; [now apply str_lt_nil_r in H|].
  simpl in B. apply andb_true_iff in B as [Ic B].
  simpl in H. apply str_lt_cons in H. destruct H as [H|[_ H]]; [|now apply IH].
  apply is62_code in Ic. change (code "z") with 122 in H. lia.
Qed.

(** A valid base-62 key splits into its integer part and a fraction
    without a trailing '0'. *)
Lemma valid_key_split (k : string) :
  valid_key k -> base62 k = true ->
  exists ip fp, k = ip ++ fp /\ getIntPart k = Ret (ip, nil_err) /\
    drop (String.length ip) k = fp /\ valid_int ip /\ k <> smallestInt /\
    base62 ip = true /\ base62 fp = true /\ ends_in_0 fp = false.
Proof.
  intros V B. destruct (validateOrderKey_inv k V) as (_ & Ns & ip & G & Vi & D & Z).
  exists ip, (drop (String.length ip) k).
  rewrite D, base62_app in B. apply andb_true_iff in B as [B1 B2].
  repeat split; auto.
Qed.

(** [KeyBetween] on valid base-62 bounds: a base-62 key strictly between
    them, valid except when the decrement reaches [smallestInt]. *)
Lemma KeyBetween_spec (a b : string) :
  base62 a = true -> base62 b = true ->
  (a = "" \/ valid_key a) -> (b = "" \/ valid_key b) ->
  (a <> "" -> b <> "" -> str_lt a b) ->
  exists m, KeyBetween a b = Ret (m, nil_err) /\ base62 m = true /\ m <> "" /\
    (a <> "" -> str_lt a m) /\ (b <> "" -> str_lt m b) /\
    (valid_key m \/
     (a = "" /\ b = String "A" (rep "0" 25 ++ "1") /\ m = smallestInt)).
Proof.
  intros Ba Bb Va Vb O. unfold KeyBetween.
  rewrite (check_key_ok a) by exact Va. rewrite (check_key_ok b) by exact Vb.
  destruct (String.eqb_spec a "") as [->|Na];
    destruct (String.eqb_spec b "") as [->|Nb]; cbn [negb andb].
  - exists "a0". repeat split; try discriminate; try congruence. now left.
  - (* only an upper bound *)
    destruct Vb as [|Vb]; [congruence|].
    destruct (valid_key_split b Vb Bb) as (ib & fb & D & G & Dr & Vi & Ns & Bi & Bf & Zf).
    rewrite G. cbn [go_try]. rewrite Dr.
    destruct (String.eqb_spec ib smallestInt) as [Es|Nsi].
    + assert (Nf : fb <> "") by (intros ->; rewrite app_nil_r in D; congruence).
      destruct (midpoint_spec "" fb) as (m & Em & Bm & Zm & Nm & _ & Lm); auto.
      { right. destruct fb; [congruence|reflexivity]. }
      rewrite Em. cbn [go_bind]. exists (ib ++ m). split; [reflexivity|].
      split; [now rewrite base62_app, Bi, Bm|].
      split; [destruct ib, m; simpl; congruence|]. split; [congruence|].
      split; [intros _; rewrite D; apply str_lt_app; auto|].
      left. now apply valid_key_app.
    + destruct (str_ltb ib b) eqn:Lb.
      * apply str_ltb_lt in Lb. exists ib. split; [reflexivity|].
        split; [exact Bi|]. split; [destruct ib; [discriminate Vi|discriminate]|].
        split; [congruence|]. split; [auto|]. left. now apply valid_key_int.
      * assert (fb = "") as ->.
        { destruct fb as [|c fb]; [reflexivity|]. exfalso.
          assert (str_lt ib b) as H by (rewrite D; now apply str_lt_app_r).
          apply str_ltb_lt in H. congruence. }
        rewrite app_nil_r in D. subst ib.
        destruct (decrementInt_spec b Vi Bi) as (r & Er & [[_ Es]|(Vr & Br & Nr & Lr & _ & Hs)]);
          [congruence|].
        rewrite Er. cbn [go_try].
        destruct (String.eqb_spec r "") as [|_]; [contradiction|].
        exists r. split; [reflexivity|]. split; [exact Br|]. split; [exact Nr|].
        split; [congruence|]. split; [auto|].
        destruct (String.eqb_spec r smallestInt) as [Es|Nrs].
        -- right. auto.
        -- left. now apply valid_key_int.
  - (* only a lower bound *)
    destruct Va as [|Va]; [congruence|].
    destruct (valid_key_split a Va Ba) as (ia & fa & D & G & Dr & Vi & Ns & Bi & Bf & Zf).
    rewrite G. cbn [go_try]. rewrite Dr.
    destruct (incrementInt_spec ia Vi Bi)
      as (i & Ei & [[-> Ez]|(Vn & Bn & Nn & Nsn & Ln & _)]); rewrite Ei; cbn [go_try].
    + change (String.eqb "" "") with true. cbv iota.
      destruct (midpoint_spec fa "") as (m & Em & Bm & Zm & Nm & Lm & _); auto.
      rewrite Em. cbn [go_bind]. exists (ia ++ m). split; [reflexivity|].
      split; [now rewrite base62_app, Bi, Bm|].
      split; [destruct ia, m; simpl; congruence|].
      split; [intros _; rewrite D; apply str_lt_app; auto|].
      split; [congruence|]. left. now apply valid_key_app.
    + destruct (String.eqb_spec i "") as [|_]; [contradiction|].
      exists i. split; [reflexivity|]. split; [exact Bn|]. split; [exact Nn|].
      split; [intros _; rewrite D; apply Ln|]. split; [congruence|].
      left. now apply valid_key_int.
  - (* both bounds *)
    specialize (O Na Nb).
    assert (Hge : str_geb a b = false).
    { unfold str_geb. apply negb_false_iff. apply str_ltb_lt. exact O. }
    rewrite Hge. cbv iota.
    destruct Va as [|Va]; [congruence|]. destruct Vb as [|Vb]; [congruence|].
    destruct (valid_key_split a Va Ba) as (ia & fa & Da & Ga & Dra & Via & Nsa & Bia & Bfa & Zfa).
    destruct (valid_key_split b Vb Bb) as (ib & fb & Db & Gb & Drb & Vib & Nsb & Bib & Bfb & Zfb).
    rewrite Ga. cbn [go_try]. rewrite Gb. cbn [go_try]. rewrite Dra, Drb.
    destruct (String.eqb_spec ia ib) as [Eab|Nab].
    + subst ib. assert (Lf : str_lt fa fb) by (rewrite Da, Db in O; now apply str_lt_app in O).
      destruct (midpoint_spec fa fb) as (m & Em & Bm & Zm & Nm & Lm & Um); auto.
      rewrite Em. cbn [go_bind]. exists (ia ++ m). split; [reflexivity|].
      split; [now rewrite base62_app, Bia, Bm|].
      split; [destruct ia, m; simpl; congruence|].
      split; [intros _; rewrite Da; apply str_lt_app; auto|].
      split; [intros _; rewrite Db; apply str_lt_app; apply Um;
              intros ->; now apply str_lt_nil_r in Lf|].
      left. now apply valid_key_app.
    + pose proof (int_parts_ordered ia ib fa fb Via Vib Nab) as Ord.
      rewrite <- Da, <- Db in Ord. specialize (Ord O).
      destruct (incrementInt_spec ia Via Bia)
        as (i & Ei & [[-> Ez]|(Vn & Bn & Nn & Nsn & Ln & _)]); rewrite Ei; cbn [go_try].
      * exfalso. specialize (Ord "" ""). rewrite !app_nil_r in Ord.
        destruct (validateInt_inv ib Vib) as (hb & db & nb & -> & Eb & Lb).
        rewrite Ez in Ord. simpl in Ord. apply str_lt_cons in Ord.
        simpl in Bib. apply andb_true_iff in Bib as [Ihb Bdb].
        destruct Ord as [Ord|[<- Ord]].
        -- apply is62_code in Ihb. change (code "z") with 122 in Ord. lia.
        -- vm_compute in Eb. injection Eb as <-.
           assert (String.length db = 26%nat) as L26
             by (unfold len in Lb; cbn [String.length] in Lb; lia).
           apply (rep_z_max db Bdb). now rewrite L26.
      * destruct (String.eqb_spec i "") as [|_]; [contradiction|].
        destruct (str_ltb i b) eqn:Lib.
        -- apply str_ltb_lt in Lib. exists i. split; [reflexivity|].
           split; [exact Bn|]. split; [exact Nn|].
           split; [intros _; rewrite Da; apply Ln|]. split; [auto|].
           left. now apply valid_key_int.
        -- destruct (midpoint_spec fa "") as (m & Em & Bm & Zm & Nm & Lm & _); auto.
           rewrite Em. cbn [go_bind]. exists (ia ++ m). split; [reflexivity|].
           split; [now rewrite base62_app, Bia, Bm|].
           split; [destruct ia, m; simpl; congruence|].
           split; [intros _; rewrite Da; apply str_lt_app; auto|].
           split; [intros _; rewrite Db; apply Ord|].
           left. now apply valid_key_app.
Qed.

(** ** [NKeysBetween]: termination *)

Lemma half_lt (n : nat) : n <> 0%nat -> (n / 2 < n)%nat.
Proof. intros H. apply Nat.div_lt; lia. Qed.

Lemma NKeysBetween_fuel_some (fuel : nat) : forall a b n,
  (n < fuel)%nat -> exists r, NKeysBetween_fuel fuel a b n = Some r.
Proof.
  induction fuel as [|fuel IH]; intros a b n H; [lia|].
  cbn [NKeysBetween_fuel].
  destruct (n =? 0)%nat eqn:E0; [eexists; reflexivity|].
  destruct (n =? 1)%nat eqn:E1; [eexists; reflexivity|].
  destruct (String.eqb b ""); [eexists; reflexivity|].
  destruct (String.eqb a ""); [eexists; reflexivity|].
  apply Nat.eqb_neq in E0, E1. pose proof (half_lt n E0) as Hh.
  destruct (KeyBetween a b) as [[c [e|]]|]; try (eexists; reflexivity).
  destruct (IH a c (n / 2)%nat) as [r1 ->]; [lia|].
  destruct r1 as [[r1 [e|]]|]; try (eexists; reflexivity).
  destruct (IH c b (n - n / 2 - 1)%nat) as [r2 ->]; [lia|].
  destruct r2 as [[r2 [e|]]|]; eexists; reflexivity.
Qed.

Lemma NKeysBetween_fuel_stable (fuel1 : nat) : forall fuel2 a b n,
  (n < fuel1)%nat -> (n < fuel2)%nat ->
  NKeysBetween_fuel fuel1 a b n = NKeysBetween_fuel fuel2 a b n.
Proof.
  induction fuel1 as [|fuel1 IH]; intros [|fuel2] a b n H1 H2; try lia.
  cbn [NKeysBetween_fuel].
  destruct (n =? 0)%nat eqn:E0; [reflexivity|].
  destruct (n =? 1)%nat eqn:E1; [reflexivity|].
  destruct (String.eqb b ""); [reflexivity|].
  destruct (String.eqb a ""); [reflexivity|].
  apply Nat.eqb_neq in E0, E1. pose proof (half_lt n E0) as Hh.
  destruct (KeyBetween a b) as [[c [e|]]|]; try reflexivity.
  rewrite (IH fuel2 a c (n / 2)%nat) by lia.
  destruct (NKeysBetween_fuel fuel2 a c (n / 2)) as [[[r1 [e|]]|]|]; try reflexivity.
  rewrite (IH fuel2 c b (n - n / 2 - 1)%nat) by lia.
  reflexivity.
Qed.

Lemma NKeysBetween_fuel_eq (fuel : nat) (a b : string) (n : nat) :
  (n < fuel)%nat -> NKeysBetween_fuel fuel a b n = Some (NKeysBetween a b n).
Proof.
  intros H. unfold NKeysBetween.
  rewrite (NKeysBetween_fuel_stable fuel (S n)) by lia.
  destruct (NKeysBetween_fuel_some (S n) a b n) as [r ->]; [lia|reflexivity].
Qed.

(** ** The errors of [KeyBetween], on arbitrary strings *)

Lemma check_key_cases {R} (k : string) (fail : string -> go R) (cont : go R) :
  ((k = "" \/ valid_key k) /\ check_key k fail cont = cont) \/
  (exists e, k <> "" /\ validateOrderKey k = Ret (Some e) /\
             check_key k fail cont = fail e).
Proof.
  unfold check_key. destruct (String.eqb_spec k "") as [->|N]; [left; auto|].
  destruct (validateOrderKey_total k N) as [[e|] E]; rewrite E; cbn [go_bind].
  - right. exists e. auto.
  - left. auto.
Qed.

(** After validation the integer codec reports no error of its own. *)
Lemma incrementInt_no_error (x r e : string) :
  valid_int x -> incrementInt x <> Ret (r, Some e).
Proof.
  intros V. unfold incrementInt. rewrite V. cbn [go_bind].
  destruct (Split x) as [|head digs]; [discriminate|].
  destruct (incr_loop digs) as [[digs' carry]|]; cbn [go_bind]; [|discriminate].
  destruct carry; [|discriminate].
  destruct (String.eqb head "Z"); [discriminate|].
  destruct (String.eqb head "z"); [discriminate|].
  destruct (first_byte head); cbn [go_bind]; [|discriminate].
  destruct (str_gtb _ "a"); cbn [go_bind]; [discriminate|].
  destruct (tail_slice digs'); cbn [go_bind]; discriminate.
Qed.

Lemma decrementInt_no_error (x r e : string) :
  valid_int x -> decrementInt x <> Ret (r, Some e).
Proof.
  intros V. unfold decrementInt. rewrite V. cbn [go_bind].
  destruct (Split x) as [|head digs]; [discriminate|].
  destruct (decr_loop digs) as [[digs' borrow]|]; cbn [go_bind]; [|discriminate].
  destruct borrow; [|discriminate].
  destruct (String.eqb head "a").
  { destruct (digit_at _); cbn [go_bind]; discriminate. }
  destruct (String.eqb head "A"); [discriminate|].
  destruct (first_byte head); cbn [go_bind]; [|discriminate].
  destruct (_ <? _).
  - destruct (digit_at _); cbn [go_bind]; discriminate.
  - destruct (tail_slice digs'); cbn [go_bind]; discriminate.
Qed.

Lemma valid_key_getIntPart (k : string) :
  valid_key k ->
  exists ip, getIntPart k = Ret (ip, nil_err) /\ valid_int ip.
Proof.
  intros V. destruct (validateOrderKey_inv k V) as (_ & _ & ip & G & Vi & _).
  eauto.
Qed.

Lemma str_lt_dec (a b : string) : {str_lt a b} + {~ str_lt a b}.
Proof.
  unfold str_lt. destruct (String.compare a b); [right|left|right]; congruence.
Qed.

Ltac no_failure :=
  let H := fresh in
  intros H; unfold KeyBetween_fails, key_rejected, increment_overflows,
    decrement_underflows, valid_key in *;
  repeat match goal with
         | H : _ \/ _ |- _ => destruct H
         | H : _ /\ _ |- _ => destruct H
         | H : exists _, _ |- _ => destruct H
         end;
  try congruence.

(** Every call of [KeyBetween] either reports an error with the empty key,
    under one of the conditions of [KeyBetween_fails], or meets none of them
    and returns a key, unless it panics. *)
Lemma KeyBetween_cases (a b : string) :
  (exists e, KeyBetween a b = Ret ("", Some e) /\ KeyBetween_fails a b) \/
  (~ KeyBetween_fails a b /\
   (KeyBetween a b = Panic \/ exists m, KeyBetween a b = Ret (m, nil_err))).
Proof.
  unfold KeyBetween.
  match goal with
  | |- context [check_key a ?f ?c] =>
    destruct (check_key_cases a f c) as [[Va ->]|(e & Na & Ea & ->)];
      [|left; exists e; split; [reflexivity|left; split; eauto]]
  end.
  match goal with
  | |- context [check_key b ?f ?c] =>
    destruct (check_key_cases b f c) as [[Vb ->]|(e & Nb & Eb & ->)];
      [|left; exists e; split; [reflexivity|right; left; split; eauto]]
  end.
  destruct (String.eqb_spec a "") as [->|Na];
    destruct (String.eqb_spec b "") as [->|Nb]; cbn [negb andb].
  - right. split; [no_failure|]. right. eexists; reflexivity.
  - destruct Vb as [|Vb]; [congruence|].
    destruct (valid_key_getIntPart b Vb) as (ib & Gb & Vib).
    rewrite Gb. cbn [go_try].
    destruct (String.eqb_spec ib smallestInt) as [Es|Ns].
    { right. split; [no_failure|].
      destruct (midpoint _ _); cbn [go_bind]; [right; eexists; reflexivity|now left]. }
    destruct (str_ltb ib b) eqn:Lb.
    { apply str_ltb_lt in Lb. right. split; [no_failure|]. right. eexists; reflexivity. }
    assert (Nlt : ~ str_lt ib b) by (intros H; apply str_ltb_lt in H; congruence).
    destruct (decrementInt ib) as [[res [e|]]|] eqn:Ed; cbn [go_try].
    + exfalso. exact (decrementInt_no_error ib res e Vib Ed).
    + destruct (String.eqb_spec res "") as [->|Nr].
      * left. eexists. split; [reflexivity|].
        right. right. right. right. split; [reflexivity|]. split; [exact Nb|].
        exists ib. auto.
      * right. split; [no_failure|]. right. eexists; reflexivity.
    + right. split; [no_failure|]. now left.
  - destruct Va as [|Va]; [congruence|].
    destruct (valid_key_getIntPart a Va) as (ia & Ga & Via).
    rewrite Ga. cbn [go_try].
    right. split; [no_failure|].
    destruct (incrementInt ia) as [[i [e|]]|] eqn:Ei; cbn [go_try].
    + exfalso. exact (incrementInt_no_error ia i e Via Ei).
    + destruct (String.eqb i "").
      * destruct (midpoint _ _); cbn [go_bind]; [right; eexists; reflexivity|now left].
      * right. eexists; reflexivity.
    + now left.
  - destruct Va as [|Va]; [congruence|]. destruct Vb as [|Vb]; [congruence|].
    destruct (str_geb a b) eqn:Hge.
    { apply str_geb_ge in Hge. left. eexists. split; [reflexivity|].
      right. right. left. auto. }
    assert (Lab : str_lt a b).
    { destruct (str_lt_dec a b) as [H|H]; [exact H|].
      apply str_geb_ge in H. congruence. }
    destruct (valid_key_getIntPart a Va) as (ia & Ga & Via).
    destruct (valid_key_getIntPart b Vb) as (ib & Gb & Vib).
    rewrite Ga. cbn [go_try]. rewrite Gb. cbn [go_try].
    destruct (String.eqb_spec ia ib) as [Eab|Nab].
    { right. split; [no_failure|].
      destruct (midpoint _ _); cbn [go_bind]; [right; eexists; reflexivity|now left]. }
    destruct (incrementInt ia) as [[i [e|]]|] eqn:Ei; cbn [go_try].
    + exfalso. exact (incrementInt_no_error ia i e Via Ei).
    + destruct (String.eqb_spec i "") as [->|Ni].
      * left. eexists. split; [reflexivity|].
        right. right. right. left. split; [exact Na|]. split; [exact Nb|].
        exists ia, ib. auto.
      * right. split; [no_failure|].
        destruct (str_ltb i b); [right; eexists; reflexivity|].
        destruct (midpoint _ _); cbn [go_bind]; [right; eexists; reflexivity|now left].
    + right. split; [no_failure|]. now left.
Qed.

(** What [validateOrderKey] rejects: the reserved key, a head that is no
    letter, a key shorter than its head declares, a fraction ending in
    '0'. *)
Lemma validateOrderKey_rejects (h : ascii) (r : string) :
  let k := String h r in
  (exists e, validateOrderKey k = Ret (Some e)) <->
  (k = smallestInt \/
   snd (getIntLen h) <> nil_err \/
   len k < fst (getIntLen h) \/
   (snd (getIntLen h) = nil_err /\ fst (getIntLen h) <= len k /\
    ends_in_0 (drop (Z.to_nat (fst (getIntLen h))) k) = true)).
Proof.
  intros k. subst k. unfold validateOrderKey, getIntPart.
  cbn [first_byte go_bind].
  destruct (String.eqb_spec (String h r) smallestInt) as [E|N].
  { split; [auto|]. intros _. eexists; reflexivity. }
  destruct (getIntLen_spec h) as [(n & G & R)|(e & G & R)]; rewrite G;
    cbn [fst snd go_bind].
  - destruct (len (String h r) <? n) eqn:L; cbn [go_bind]; bool2prop.
    + split; [intros _; right; right; left; exact L|]. intros _. eexists; reflexivity.
    + rewrite HasSuffix_0.
      assert (Ln : String.length (take (Z.to_nat n) (String h r)) = Z.to_nat n)
        by (apply length_take; unfold len in L; lia).
      rewrite Ln.
      destruct (ends_in_0 (drop (Z.to_nat n) (String h r))) eqn:Z0.
      * split; [|intros _; eexists; reflexivity].
        intros _. right. right. right. repeat split; auto.
      * split; [intros [e E]; discriminate|].
        intros [H|[H|[H|(_ & _ & H)]]]; try congruence; try lia.
  - split; [|intros _; eexists; reflexivity].
    intros _. right. left. discriminate.
Qed.

(** ** Sorted lists *)

Section SortedLists.

Context {A : Type} (R : A -> A -> Prop).



End SortedLists.

(** ** [NKeysBetween] on base-62 keys *)






(** One step below a key lowers the head by one letter at most. *)
Lemma decrementInt_head (x r : string) :
  valid_int x -> base62 x = true -> decrementInt x = Ret (r, nil_err) ->
  r <> "" -> head_digit x - 1 <= head_digit r.
Proof.
  intros V B H Nr. destruct (validateInt_inv x V) as (h & ds & n & -> & E & L).
  unfold decrementInt in H. rewrite V in H. cbn [go_bind] in H.
  rewrite (Split_base62 _ B) in H. cbn [singles] in H.
  destruct (getIntLen_spec h) as [(n0 & E0 & R)|(e & E0 & _)]; [|congruence].
  destruct (decr_loop (singles ds)) as [[digs' borrow]|]; cbn [go_bind] in H;
    [|discriminate].
  destruct borrow.
  - change "a" with (String "a"%char "") in H. change "A" with (String "A"%char "") in H.
    rewrite !single_eqb in H.
    destruct (Ascii.eqb_spec h "a") as [->|Na].
    { vm_compute in H. injection H as <-. vm_compute. discriminate. }
    destruct (Ascii.eqb_spec h "A") as [->|NA].
    { injection H as <-. congruence. }
    cbn [first_byte go_bind] in H.
    assert (Nac : code h <> 97) by (intros C; apply Na, code_inj; exact C).
    assert (NAc : code h <> 65) by (intros C; apply NA, code_inj; exact C).
    pose proof (code_range h) as Rh.
    assert (Ch : code (byte_of (code h - 1)) = code h - 1)
      by (apply code_byte_of; lia).
    assert (Sh : string_of_byte (byte_of (code h - 1)) = String (byte_of (code h - 1)) "").
    { unfold string_of_byte. rewrite Ch. destruct (code h - 1 <? 128) eqn:C; [reflexivity|lia]. }
    rewrite Sh in H.
    assert (Hd : digit h - 1 <= digit (byte_of (code h - 1))).
    { rewrite !digit_spec, Ch. unfold digit_of_code.
      repeat match goal with
             | |- context [if ?b then _ else _] => destruct b eqn:?
             end; lia. }
    destruct (_ <? _).
    + destruct (digit_at _); cbn [go_bind] in H; [|discriminate].
      injection H as <-. exact Hd.
    + destruct (tail_slice digs'); cbn [go_bind] in H; [|discriminate].
      injection H as <-. exact Hd.
  - injection H as <-. simpl. lia.
Qed.

Lemma KeyBetween_open_below_head (b m : string) :
  base62 b = true -> valid_key b -> KeyBetween "" b = Ret (m, nil_err) ->
  head_digit b - 1 <= head_digit m.
Proof.
  intros Bb Vb H. unfold KeyBetween in H.
  rewrite (check_key_ok "") in H by now left.
  rewrite (check_key_ok b) in H by now right.
  assert (Nb : b <> "") by (apply validateOrderKey_inv in Vb; tauto).
  change (String.eqb "" "") with true in H. cbn [negb andb] in H. cbv iota in H.
  destruct (String.eqb_spec b "") as [|_]; [contradiction|].
  destruct (valid_key_split b Vb Bb) as (ib & fb & D & G & Dr & Vi & Ns & Bi & Bf & Zf).
  rewrite G in H. cbn [go_try] in H.
  destruct (validateInt_inv ib Vi) as (h & ds & n & Ei & _ & _).
  assert (Hb : head_digit b = head_digit ib) by (rewrite D, Ei; reflexivity).
  destruct (String.eqb ib smallestInt).
  { destruct (midpoint _ _); cbn [go_bind] in H; [|discriminate].
    injection H as <-. rewrite Hb, Ei. simpl. lia. }
  destruct (str_ltb ib b).
  { injection H as <-. lia. }
  destruct (decrementInt ib) as [[res [e|]]|] eqn:Ed; cbn [go_try] in H;
    try discriminate.
  destruct (String.eqb_spec res "") as [|Nr]; [discriminate|].
  injection H as <-. rewrite Hb. now apply decrementInt_head.
Qed.

Lemma head_digit_smallestInt : head_digit smallestInt = 10.
Proof. reflexivity. Qed.





(** ** The jittered midpoint with one interior digit *)

(** Between two single digits that leave exactly one digit between them,
    [midpointJitter] returns that digit, as [midpoint] does, whatever the
    jitter range, for every jitter source whose two offsets are not
    negative (as its contract, a draw in [[0, jitterRange]], guarantees). *)
Lemma midpointJitter_one_interior_digit (J : Type)
  (IntnRange : J -> Z -> Z -> Z * J) (j : J) (jitterRange : Z)
  (ca cb : ascii) :
  is62 ca = true -> is62 cb = true -> digit cb = digit ca + 2 ->
  0 <= fst (IntnRange j 0 jitterRange) ->
  0 <= fst (IntnRange (snd (IntnRange j 0 jitterRange)) 0 jitterRange) ->
  exists j',
    midpointJitter IntnRange (String ca "") (String cb "") j jitterRange
      = Ret (String (byte_of (code_of_digit (digit ca + 1))) "", j') /\
    midpoint (String ca "") (String cb "")
      = Ret (String (byte_of (code_of_digit (digit ca + 1))) "").
Proof.
  intros Ia Ib D H1 H2.
  destruct (is62_digit ca Ia) as (Ra & _ & _).
  destruct (is62_digit cb Ib) as (Rb & _ & _).
  assert (Nab : Ascii.eqb ca cb = false).
  { destruct (Ascii.eqb_spec ca cb) as [->|]; [lia|reflexivity]. }
  unfold midpointJitter, midpoint. cbn [String.length Nat.add].
  cbn [midpointJitter_fuel midpoint_fuel String.eqb prefix_len].
  rewrite Nab. cbn [Nat.ltb Nat.leb].
  fold (digit ca). fold (digit cb). rewrite D.
  replace (1 <? digit ca + 2 - digit ca) with true by (symmetry; apply Z.ltb_lt; lia).
  replace (digit ca + 2 - digit ca - 1) with 1 by lia.
  change (Z.quot 1 2) with 0.
  destruct (IntnRange j 0 jitterRange) as [d1 j1] eqn:E1. cbn [fst snd] in *.
  destruct (IntnRange j1 0 jitterRange) as [d2 j2] eqn:E2. cbn [fst snd] in *.
  replace (Z.max (digit ca + 1) (digit ca + 1 + 0 - d1)) with (digit ca + 1) by lia.
  replace (Z.min (digit ca + 2 - 1) (digit ca + 1 + 0 + d2)) with (digit ca + 1) by lia.
  rewrite Z.ltb_irrefl.
  assert (Rh : round_half (digit ca + (digit ca + 2)) = digit ca + 1).
  { pose proof (round_half_between (digit ca) (digit ca + 2)). lia. }
  rewrite Rh, digit_at_spec by lia. cbn [go_bind].
  rewrite string_of_digit by lia. exists j2. split; reflexivity.
Qed.

(** ** [strings.Split] and the borrow loop on arbitrary strings *)

Lemma rune_size_pos (c : ascii) (r : string) : (1 <= rune_size (String c r))%nat.
Proof.
  unfold rune_size.
  repeat match goal with
         | |- context [if ?b then _ else _] => destruct b
         | |- context [match ?s with "" => _ | String _ _ => _ end] => destruct s
         end; lia.
Qed.

Lemma rune_size_ascii (c : ascii) (r : string) :
  code c < 128 -> rune_size (String c r) = 1%nat.
Proof.
  intros H. unfold rune_size. destruct (code c <? 128) eqn:E; [reflexivity|].
  bool2prop. lia.
Qed.

Lemma explode_Join (fuel : nat) : forall s,
  (String.length s <= fuel)%nat -> Join (explode fuel s) = s.
Proof.
  induction fuel as [|fuel IH]; intros s L.
  - destruct s; [reflexivity|simpl in L; lia].
  - destruct s as [|c r]; [reflexivity|]. cbn [explode].
    rewrite Join_cons, IH; [apply take_drop|].
    rewrite length_drop. pose proof (rune_size_pos c r). cbn [String.length] in *. lia.
Qed.

(** An element of [Split] that starts with an ASCII byte is that byte. *)
Lemma explode_ascii_head (fuel : nat) : forall s d c r,
  In d (explode fuel s) -> d = String c r -> code c < 128 -> r = "".
Proof.
  induction fuel as [|fuel IH]; intros s d c r Hin E Hc; [contradiction|].
  destruct s as [|c0 r0]; [contradiction|]. cbn [explode] in Hin.
  destruct Hin as [Hd|Hin]; [|eapply IH; eauto].
  subst d. pose proof (rune_size_pos c0 r0) as P.
  destruct (rune_size (String c0 r0)) as [|k] eqn:Ek; [lia|].
  simpl in E. injection E as -> <-.
  rewrite rune_size_ascii in Ek by exact Hc. injection Ek as <-. reflexivity.
Qed.

Lemma explode_nonempty (fuel : nat) : forall s d,
  In d (explode fuel s) -> d <> "".
Proof.
  induction fuel as [|fuel IH]; intros s d Hin; [contradiction|].
  destruct s as [|c0 r0]; [contradiction|]. cbn [explode] in Hin.
  destruct Hin as [<-|Hin]; [|eapply IH; eauto].
  pose proof (rune_size_pos c0 r0) as P.
  destruct (rune_size (String c0 r0)) as [|k]; [lia|discriminate].
Qed.

Lemma Index_from_range (s sub : string) : forall i,
  Index_from i s sub = -1 \/ i <= Index_from i s sub.
Proof.
  induction s as [|c s IH]; intros i; cbn [Index_from].
  - destruct (prefix sub ""); [right; lia|now left].
  - destruct (prefix sub (String c s)); [right; lia|].
    destruct (IH (i + 1)); [now left|right; lia].
Qed.

Lemma Index_from_cons (i : Z) (c : ascii) (s sub : string) :
  Index_from i (String c s) sub =
  if prefix sub (String c s) then i else Index_from (i + 1) s sub.
Proof. reflexivity. Qed.

Lemma Index_zero_head (d : string) :
  d <> "" -> Index base62Digits d = 0 -> exists r, d = String "0" r.
Proof.
  intros N H. destruct d as [|c r]; [congruence|]. exists r.
  unfold Index in H.
  change base62Digits with (String "0" (drop 1 base62Digits)) in H.
  rewrite Index_from_cons in H.
  destruct (prefix (String c r) _) eqn:P.
  - simpl in P. destruct (ascii_dec c "0") as [->|]; [reflexivity|discriminate].
  - destruct (Index_from_range (drop 1 base62Digits) (String c r) (0 + 1)) as [E|E];
      rewrite ?E in H; lia.
Qed.

Lemma decr_loop_borrow (digs : list string) : forall digs',
  decr_loop digs = Ret (digs', true) ->
  Forall (fun d => Index base62Digits d = 0) digs.
Proof.
  induction digs as [|dg rest IH]; intros digs' H; [constructor|].
  cbn [decr_loop] in H.
  destruct (decr_loop rest) as [[rest' borrow]|]; cbn [go_bind] in H; [|discriminate].
  destruct borrow; [|discriminate].
  destruct (Index base62Digits dg - 1 =? -1) eqn:E.
  - constructor; [bool2prop; lia|]. eapply IH. reflexivity.
  - destruct (digit_at _); discriminate.
Qed.

Lemma Join_zeros (l : list string) :
  Forall (fun d => d = "0") l -> Join l = rep "0" (List.length l).
Proof.
  induction 1 as [|d l -> _ IH]; [reflexivity|].
  rewrite Join_cons, IH. reflexivity.
Qed.

(** [decrementInt] returns the empty string only for [smallestInt], on
    every string that [validateInt] accepts. *)
Lemma decrementInt_empty_inv (x : string) :
  valid_int x -> decrementInt x = Ret ("", nil_err) ->
  x = String "A" (rep "0" 26).
Proof.
  intros V H. destruct (validateInt_inv x V) as (h & ds & n & -> & G & L).
  destruct (getIntLen_spec h) as [(n0 & G0 & R)|(e & G0 & _)]; [|congruence].
  rewrite G in G0. injection G0 as <-.
  assert (Hh : code h < 128) by lia.
  unfold decrementInt in H. rewrite V in H. cbn [go_bind] in H.
  unfold Split in H. cbn [String.length explode] in H.
  rewrite rune_size_ascii in H by exact Hh. cbn [take drop] in H.
  assert (Hds : Join (explode (String.length ds) ds) = ds)
    by (apply explode_Join; lia).
  destruct (decr_loop (explode (String.length ds) ds)) as [[digs' borrow]|] eqn:El;
    cbn [go_bind] in H; [|discriminate].
  destruct borrow; [|discriminate].
  change "a" with (String "a"%char "") in H. change "A" with (String "A"%char "") in H.
  rewrite !single_eqb in H.
  destruct (Ascii.eqb_spec h "a") as [|_]; [discriminate|].
  destruct (Ascii.eqb_spec h "A") as [->|_].
  - apply decr_loop_borrow in El.
    assert (F : Forall (fun d => d = "0") (explode (String.length ds) ds)).
    { rewrite Forall_forall in El |- *. intros d Hin.
      destruct (Index_zero_head d (explode_nonempty _ _ _ Hin) (El d Hin)) as [r ->].
      f_equal. eapply explode_ascii_head; [exact Hin|reflexivity|reflexivity]. }
    apply Join_zeros in F. rewrite Hds in F.
    change (code "A") with 65 in R. unfold len in L. cbn [String.length] in L.
    assert (L26 : String.length ds = 26%nat) by lia.
    apply (f_equal String.length) in F as F'. rewrite length_rep in F'.
    rewrite F, <- F', L26. reflexivity.
  - cbn [first_byte go_bind] in H.
    assert (Ns : forall c s, string_of_byte c ++ s <> "").
    { intros c s. unfold string_of_byte. destruct (code c <? 128); discriminate. }
    destruct (code (byte_of (code h - 1)) <? code "Z").
    + destruct (digit_at _); cbn [go_bind] in H; [|discriminate].
      injection H as H. now apply Ns in H.
    + destruct (tail_slice digs'); cbn [go_bind] in H; [|discriminate].
      injection H as H. now apply Ns in H.
Qed.

(** ** The jittered variant: termination *)

Section JitterTermination.

Context {J : Type} (IntnRange : J -> Z -> Z -> Z * J) (jitterRange : Z).

Lemma midpointJitter_fuel_some (fuel : nat) : forall a b j,
  (String.length a + String.length b < fuel)%nat ->
  exists r, midpointJitter_fuel J IntnRange fuel a b j jitterRange = Some r.
Proof.
  induction fuel as [|fuel IH]; intros a b j L; [lia|].
  cbn [midpointJitter_fuel].
  destruct (String.eqb_spec b "") as [->|Nb].
  - change (0 <? 0)%nat with false. cbv iota.
    destruct a as [|x a'].
    + change (1 <? len base62Digits - 0) with true. cbv iota.
      destruct (IntnRange j 0 jitterRange) as [d1 j1].
      destruct (IntnRange j1 0 jitterRange) as [d2 j2].
      destruct (if _ <? _ then _ else _) as [pick j3]. eexists; reflexivity.
    + destruct (1 <? _).
      { destruct (IntnRange j 0 jitterRange) as [d1 j1].
        destruct (IntnRange j1 0 jitterRange) as [d2 j2].
        destruct (if _ <? _ then _ else _) as [pick j3]. eexists; reflexivity. }
      destruct (digit_at _); [|eexists; reflexivity].
      destruct (IH a' "" j) as [r ->]; [simpl in *; lia|]. eexists; reflexivity.
  - pose proof (prefix_len_le a b) as Hp.
    destruct (0 <? prefix_len a b)%nat eqn:Ei.
    + apply Nat.ltb_lt in Ei.
      destruct (String.length a <? prefix_len a b)%nat.
      * destruct (IH "" (drop (prefix_len a b) b) j) as [r ->];
          [rewrite length_drop; simpl; lia|]. eexists; reflexivity.
      * destruct (IH (drop (prefix_len a b) a) (drop (prefix_len a b) b) j) as [r ->];
          [rewrite !length_drop; lia|]. eexists; reflexivity.
    + destruct (1 <? _).
      { destruct (IntnRange j 0 jitterRange) as [d1 j1].
        destruct (IntnRange j1 0 jitterRange) as [d2 j2].
        destruct (if _ <? _ then _ else _) as [pick j3]. eexists; reflexivity. }
      destruct b as [|b0 [|b1 b'']]; [congruence| |].
      * destruct (digit_at _); [|eexists; reflexivity].
        destruct (IH (match a with String _ a' => a' | "" => "" end) "" j) as [r ->];
          [destruct a; simpl in *; lia|]. eexists; reflexivity.
      * destruct (_ <? _); [eexists; reflexivity|].
        destruct (if _ <=? _ then _ else _) as [pickIdx j1]. eexists; reflexivity.
Qed.

Lemma midpointJitter_fuel_eq (a b : string) (j : J) :
  midpointJitter_fuel J IntnRange (S (String.length a + String.length b)) a b j
    jitterRange
  = Some (midpointJitter IntnRange a b j jitterRange).
Proof.
  unfold midpointJitter.
  destruct (midpointJitter_fuel_some (S (String.length a + String.length b)) a b j)
    as [r ->]; [lia|reflexivity].
Qed.

Lemma NKeysBetweenJitter_fuel_some (fuel : nat) : forall a b n j,
  (n < fuel)%nat ->
  exists r, NKeysBetweenJitter_fuel J IntnRange fuel a b n j jitterRange = Some r.
Proof.
  induction fuel as [|fuel IH]; intros a b n j H; [lia|].
  cbn [NKeysBetweenJitter_fuel].
  destruct (n =? 0)%nat eqn:E0; [eexists; reflexivity|].
  destruct (n =? 1)%nat eqn:E1; [eexists; reflexivity|].
  destruct (String.eqb b ""); [eexists; reflexivity|].
  destruct (String.eqb a ""); [eexists; reflexivity|].
  apply Nat.eqb_neq in E0, E1. pose proof (half_lt n E0) as Hh.
  destruct (KeyBetweenJitter IntnRange a b j jitterRange) as [[[c [e|]] j1]|];
    try (eexists; reflexivity).
  destruct (IH a c (n / 2)%nat j1) as [r1 ->]; [lia|].
  destruct r1 as [[[r1 [e|]] j2]|]; try (eexists; reflexivity).
  destruct (IH c b (n - n / 2 - 1)%nat j2) as [r2 ->]; [lia|].
  destruct r2 as [[[r2 [e|]] j3]|]; eexists; reflexivity.
Qed.

Lemma NKeysBetweenJitter_fuel_eq (a b : string) (n : nat) (j : J) :
  NKeysBetweenJitter_fuel J IntnRange (S n) a b n j jitterRange
  = Some (NKeysBetweenJitter IntnRange a b n j jitterRange).
Proof.
  unfold NKeysBetweenJitter.
  destruct (NKeysBetweenJitter_fuel_some (S n) a b n j) as [r ->];
    [lia|reflexivity].
Qed.

End JitterTermination.

(** ** Float approximation of the literal keys *)

(** C8: [Float64Approx] returns exactly 0.0 for "a0", 1.0 for "a1", -1.0 for
    "Z1" and 0.5 for "a0V", each with a nil error. *)
Theorem Float64Approx_literals :
  Float64Approx "a0" = Ret (0%float, nil_err) /\
  Float64Approx "a1" = Ret (1%float, nil_err) /\
  Float64Approx "Z1" = Ret ((-1)%float, nil_err) /\
  Float64Approx "a0V" = Ret (0.5%float, nil_err).
Proof. repeat split; vm_compute; reflexivity. Qed.

(** ** No keys requested *)

(** C10: for every pair of strings, valid or not, ordered or not,
    [NKeysBetween(a, b, 0)] and [NKeysBetweenJitter(a, b, 0, j, r)] return
    the empty list and a nil error: with [n = 0] nothing is validated. *)
Theorem NKeysBetween_zero :
  (forall a b, NKeysBetween a b 0 = Ret ([], nil_err)) /\
  (forall (J : Type) (IntnRange : J -> Z -> Z -> Z * J) a b j jitterRange,
     NKeysBetweenJitter IntnRange a b 0 j jitterRange = Ret (([], nil_err), j)).
Proof. split; reflexivity. Qed.

(** ** The jittered variant at adjacent digits *)

(** With adjacent first digits and [b] of length 2 ending in '1', step 4
    of [midpointJitter] finds no digit below [b[1]] except '0' and emits '1':
    it returns [b] itself, whatever the jitter source and the range. *)
Lemma midpointJitter_returns_bound (J : Type) (IntnRange : J -> Z -> Z -> Z * J)
  (j : J) (jitterRange : Z) :
  midpointJitter IntnRange "1" "21" j jitterRange = Ret ("21", j).
Proof. reflexivity. Qed.

(** C3, evaluated where it fails: for every jitter source and every range,
    [KeyBetweenJitter("a01", "a021", j, r)] returns the upper bound "a021"
    itself, not a key strictly below it. *)
Theorem KeyBetweenJitter_returns_upper_bound (J : Type)
  (IntnRange : J -> Z -> Z -> Z * J) (j : J) (jitterRange : Z) :
  valid_key "a01" /\ valid_key "a021" /\ str_lt "a01" "a021" /\
  KeyBetweenJitter IntnRange "a01" "a021" j jitterRange
    = Ret (("a021", nil_err), j) /\
  ~ str_lt "a021" "a021".
Proof.
  split; [reflexivity|]. split; [reflexivity|]. split; [reflexivity|].
  split; [reflexivity|]. apply str_lt_irrefl.
Qed.

(** ** A jitter range of 0 *)

(** The revision of jitter.go that tests [jitterRange == 0] first answers
    as [KeyBetween] does. *)
Lemma KeyBetweenJitter_bypass_zero (J : Type) (IntnRange : J -> Z -> Z -> Z * J)
  (a b : string) (j : J) :
  KeyBetweenJitter_bypass IntnRange a b j 0 = (r <- KeyBetween a b ;; Ret (r, j)).
Proof. reflexivity. Qed.

(** With a range of 0 and a source that honours its contract (here
    [RandJitter] over any generator, and likewise [NoJitter], whose draw of
    0 gives "a020"), step 4 still appends a digit where [midpoint] stops at
    the first digit of [b]. *)
Lemma KeyBetweenJitter_zero_appends_digit (G : Type) (Intn : G -> Z -> Z * G)
  (g : G) :
  KeyBetweenJitter (RandJitter_IntnRange Intn) "a01" "a025" g 0
    = Ret (("a021", nil_err), g) /\
  KeyBetweenJitter NoJitter_IntnRange "a01" "a025" tt 0
    = Ret (("a020", nil_err), tt) /\
  KeyBetween "a01" "a025" = Ret ("a02", nil_err).
Proof. repeat split. Qed.

(** C4, evaluated where it fails: without that test, a range of 0 does not
    give the output of [KeyBetween]; between "a01" and "a021" the jittered
    entry point returns "a021" for every jitter source and [KeyBetween]
    returns "a02". *)
Theorem KeyBetweenJitter_zero_differs (J : Type)
  (IntnRange : J -> Z -> Z -> Z * J) (j : J) :
  KeyBetweenJitter IntnRange "a01" "a021" j 0 = Ret (("a021", nil_err), j) /\
  KeyBetween "a01" "a021" = Ret ("a02", nil_err).
Proof. split; reflexivity. Qed.

(** ** Termination *)

(** C9: the recursive midpoint computation is total: the sum of the lengths
    of its arguments bounds the depth of the recursion, and any fuel above it
    gives one and the same result; likewise [NKeysBetween], whose recursion
    is bounded by [n].  [KeyBetween] and [NKeysBetween] call them with enough
    fuel, so they return (a value or a panic) on every input; so do the
    jittered variants, for every jitter source. *)
Theorem operations_terminate :
  (forall a b, exists r, forall fuel,
      (String.length a + String.length b < fuel)%nat ->
      midpoint_fuel fuel a b = Some r) /\
  (forall a b, midpoint_fuel (S (String.length a + String.length b)) a b
               = Some (midpoint a b)) /\
  (forall a b n, exists r, forall fuel,
      (n < fuel)%nat -> NKeysBetween_fuel fuel a b n = Some r) /\
  (forall a b n, NKeysBetween_fuel (S n) a b n = Some (NKeysBetween a b n)) /\
  (forall (J : Type) (IntnRange : J -> Z -> Z -> Z * J) a b n j jitterRange,
     midpointJitter_fuel J IntnRange (S (String.length a + String.length b))
       a b j jitterRange
     = Some (midpointJitter IntnRange a b j jitterRange) /\
     NKeysBetweenJitter_fuel J IntnRange (S n) a b n j jitterRange
     = Some (NKeysBetweenJitter IntnRange a b n j jitterRange)).
Proof.
  split; [|split; [|split; [|split]]].
  - intros a b. exists (midpoint a b). intros fuel H.
    now apply midpoint_fuel_midpoint.
  - intros a b. apply midpoint_fuel_midpoint. lia.
  - intros a b n. exists (NKeysBetween a b n). intros fuel H.
    now apply NKeysBetween_fuel_eq.
  - intros a b n. apply NKeysBetween_fuel_eq. lia.
  - intros J IntnRange a b n j jitterRange. split.
    + apply midpointJitter_fuel_eq.
    + apply NKeysBetweenJitter_fuel_eq.
Qed.

(** ** Carry and borrow out of the most significant digit *)

Lemma valid_int_base62_rep (h c : ascii) (n : nat) :
  valid_int (String h (rep c n)) -> is62 c = true ->
  base62 (String h (rep c n)) = true.
Proof.
  intros V Hc. destruct (validateInt_inv _ V) as (h' & ds & m & E & G & _).
  injection E as <- _.
  destruct (getIntLen_spec h) as [(k & Ek & R)|(e & Ek & _)]; [|congruence].
  simpl. rewrite base62_rep by exact Hc. rewrite andb_true_r.
  apply is62_code. lia.
Qed.

(** When the carry leaves the digits, the head moves up by one; a lowercase
    head gains a digit, an uppercase head gives one up. *)
Lemma incrementInt_carry (h : ascii) (n : nat) :
  valid_int (String h (rep "z" n)) -> h <> "z"%char -> h <> "Z"%char ->
  incrementInt (String h (rep "z" n)) =
  Ret (String (byte_of (code h + 1))
         (if is_lower (byte_of (code h + 1)) then rep "0" n ++ "0"
          else drop 1 (rep "0" n)), nil_err) /\
  code (byte_of (code h + 1)) = code h + 1 /\
  (is_lower h = true -> is_lower (byte_of (code h + 1)) = true) /\
  (is_upper h = true -> is_upper (byte_of (code h + 1)) = true) /\
  (is_upper h = true -> (2 <= n)%nat).
Proof.
  intros V Nz NZ.
  pose proof (valid_int_base62_rep h "z" n V eq_refl) as B.
  destruct (validateInt_inv _ V) as (h' & ds & m & E & G & L).
  injection E as <- <-.
  destruct (getIntLen_spec h) as [(k & Ek & R)|(e & Ek & _)]; [|congruence].
  rewrite G in Ek. injection Ek as <-.
  assert (NZc : code h <> 90) by (intros C; apply NZ, code_inj; exact C).
  assert (Nzc : code h <> 122) by (intros C; apply Nz, code_inj; exact C).
  pose proof (code_range h) as Rh.
  assert (Ch : code (byte_of (code h + 1)) = code h + 1)
    by (apply code_byte_of; lia).
  assert (Ln : Z.of_nat n = m - 1)
    by (unfold len in L; cbn [String.length] in L; rewrite length_rep in L; lia).
  split; [|split; [exact Ch|split; [|split]]];
    try (unfold is_lower, is_upper, between; rewrite ?Ch; lia).
  unfold incrementInt. rewrite V. cbn [go_bind].
  rewrite (Split_base62 _ B). cbn [singles].
  simpl in B. apply andb_true_iff in B as [Bh Bd].
  destruct (incr_loop_spec _ Bd) as (ds' & carry & El & Ll & Bd' & Ht & Hf).
  rewrite length_rep in *.
  destruct carry; [|destruct (Hf eq_refl) as (_ & _ & Hn); congruence].
  destruct (Ht eq_refl) as [_ ->]. rewrite El. cbn [go_bind].
  change "Z" with (String "Z"%char ""). change "z" with (String "z"%char "").
  rewrite !single_eqb.
  destruct (Ascii.eqb_spec h "Z") as [|_]; [contradiction|].
  destruct (Ascii.eqb_spec h "z") as [|_]; [contradiction|].
  cbn [first_byte go_bind].
  assert (Sh : string_of_byte (byte_of (code h + 1)) = String (byte_of (code h + 1)) "").
  { unfold string_of_byte. rewrite Ch. destruct (code h + 1 <? 128) eqn:C; [reflexivity|lia]. }
  rewrite Sh, str_gtb_single, Ch. unfold is_lower, between. rewrite Ch.
  destruct (97 <? code h + 1) eqn:C.
  - cbn [go_bind]. rewrite Join_singles_snoc.
    replace ((97 <=? code h + 1) && (code h + 1 <=? 122)) with true by lia.
    reflexivity.
  - replace ((97 <=? code h + 1) && (code h + 1 <=? 122)) with false by lia.
    destruct n as [|n]; [lia|].
    cbn [rep singles tail_slice go_bind drop]. rewrite Join_singles.
    now destruct (rep "0" n).
Qed.

(** C6 as stated fails: with the head 'a' the carry leaves the digit, the
    new head 'b' has not crossed from the uppercase heads (the old head is
    lowercase already), and yet a '0' is appended and the length grows. *)
Lemma incrementInt_grows_within_lowercase :
  valid_int "az" /\ incrementInt "az" = Ret ("b00", nil_err) /\
  is_upper "a" = false /\ is_lower "b" = true /\ len "b00" = len "az" + 1.
Proof. repeat split. Qed.

(** C6, amended: for a valid integer part whose digits are all 'z' and whose
    head is neither 'z' nor 'Z', [incrementInt] moves the head up by one
    byte; when the new head is lowercase it appends a '0' to the zeroed
    digits and the length grows by one, and when the new head is uppercase
    it drops one digit and the length shrinks by one.  (The new head is
    lowercase exactly when the old one is.) *)
Theorem incrementInt_carry_out (h : ascii) (n : nat)
  (V : valid_int (String h (rep "z" n)))
  (Nz : h <> "z"%char) (NZ : h <> "Z"%char) :
  let x := String h (rep "z" n) in
  let h' := byte_of (code h + 1) in
  exists i, incrementInt x = Ret (i, nil_err) /\
    code h' = code h + 1 /\ String.get 0 i = Some h' /\
    (is_lower h' = true <-> is_lower h = true) /\
    (is_lower h' = true ->
       i = String h' (rep "0" n ++ "0") /\ len i = len x + 1) /\
    (is_lower h' = false ->
       is_upper h' = true /\
       i = String h' (drop 1 (rep "0" n)) /\ len i = len x - 1).
Proof.
  intros x h'. subst x h'.
  destruct (incrementInt_carry h n V Nz NZ) as (E & Ch & Hl & Hu & Hn).
  eexists. split; [exact E|]. split; [exact Ch|]. split; [reflexivity|].
  destruct (validateInt_inv _ V) as (h' & ds & m & Ex & G & L).
  injection Ex as <- <-.
  destruct (getIntLen_spec h) as [(k & Ek & R)|(e & Ek & _)]; [|congruence].
  assert (NZc : code h <> 90) by (intros C; apply NZ, code_inj; exact C).
  assert (Nzc : code h <> 122) by (intros C; apply Nz, code_inj; exact C).
  split; [|split].
  - unfold is_lower, between in *. rewrite Ch. lia.
  - intros Hl'. rewrite Hl'. split; [reflexivity|].
    unfold len. cbn [String.length]. rewrite length_app, !length_rep. simpl. lia.
  - intros Hl'. rewrite Hl'.
    assert (Hup : is_upper h = true).
    { unfold is_lower, is_upper, between in *. rewrite Ch in Hl'. lia. }
    split; [auto|]. split; [reflexivity|].
    specialize (Hn Hup). destruct n as [|n]; [lia|].
    unfold len. cbn [String.length rep drop]. rewrite !length_rep.
    destruct (rep "0" n) eqn:Er; cbn [String.length]; rewrite <- ?Er, ?length_rep;
      [apply (f_equal String.length) in Er; rewrite length_rep in Er; simpl in Er; lia|].
    apply (f_equal String.length) in Er. rewrite length_rep in Er. simpl in Er. lia.
Qed.

Lemma incrementInt_carry_out_witness :
  exists i, incrementInt "Yzz" = Ret (i, nil_err) /\
    code (byte_of (code "Y" + 1)) = code "Y" + 1 /\
    String.get 0 i = Some (byte_of (code "Y" + 1)) /\
    (is_lower (byte_of (code "Y" + 1)) = true <-> is_lower "Y" = true) /\
    (is_lower (byte_of (code "Y" + 1)) = true ->
       i = String (byte_of (code "Y" + 1)) (rep "0" 2 ++ "0") /\
       len i = len "Yzz" + 1) /\
    (is_lower (byte_of (code "Y" + 1)) = false ->
       is_upper (byte_of (code "Y" + 1)) = true /\
       i = String (byte_of (code "Y" + 1)) (drop 1 (rep "0" 2)) /\
       len i = len "Yzz" - 1).
Proof.
  apply (incrementInt_carry_out "Y" 2); [reflexivity|discriminate|discriminate].
Defined.

(** C5 as stated fails: "a~" has the length its head declares, and
    [decrementInt] panics on it ('~' is no base-62 digit, and
    [base62Digits[-2]] is out of range) instead of returning an integer
    part. *)
Lemma decrementInt_panics_outside_alphabet :
  valid_int "a~" /\ decrementInt "a~" = Panic.
Proof. split; reflexivity. Qed.

(** C5, amended: for a valid integer part [x] (its length is the one its
    head declares).  When every digit after the head is 'z', [incrementInt]
    returns the empty string and no error if the head is 'z', and "a0" if
    the head is 'Z'.  [decrementInt] returns the empty string exactly when
    the head is 'A' and every digit is '0'; for every other valid integer
    part over the base-62 alphabet it returns a non-empty valid integer
    part. *)
Theorem integer_part_limits (x : string) (V : valid_int x) :
  (forall h n, x = String h (rep "z" n) ->
     (h = "z"%char -> incrementInt x = Ret ("", nil_err)) /\
     (h = "Z"%char -> incrementInt x = Ret ("a0", nil_err))) /\
  (decrementInt x = Ret ("", nil_err) <-> x = String "A" (rep "0" 26)) /\
  (base62 x = true -> x <> String "A" (rep "0" 26) ->
     exists r, decrementInt x = Ret (r, nil_err) /\ r <> "" /\ valid_int r).
Proof.
  split; [|split].
  - intros h n ->. destruct (validateInt_inv _ V) as (h' & ds & m & E & G & L).
    injection E as <- <-. unfold len in L. cbn [String.length] in L.
    rewrite length_rep in L. split; intros ->.
    + vm_compute in G. injection G as <-.
      assert (n = 26%nat) as -> by lia. reflexivity.
    + vm_compute in G. injection G as <-.
      assert (n = 1%nat) as -> by lia. reflexivity.
  - split; [now apply decrementInt_empty_inv|]. intros ->. reflexivity.
  - intros B N. destruct (decrementInt_spec x V B) as (r & Er & [[_ Hs]|(Vr & _ & Nr & _)]).
    + contradiction.
    + exists r. auto.
Qed.

Lemma integer_part_limits_witness :
  (forall h n, "Zz" = String h (rep "z" n) ->
     (h = "z"%char -> incrementInt "Zz" = Ret ("", nil_err)) /\
     (h = "Z"%char -> incrementInt "Zz" = Ret ("a0", nil_err))) /\
  (decrementInt "Zz" = Ret ("", nil_err) <-> "Zz" = String "A" (rep "0" 26)) /\
  (base62 "Zz" = true -> "Zz" <> String "A" (rep "0" 26) ->
     exists r, decrementInt "Zz" = Ret (r, nil_err) /\ r <> "" /\ valid_int r).
Proof. apply (integer_part_limits "Zz"); reflexivity. Defined.

(** ** [KeyBetween] *)

(** C1 as stated fails twice.  "a~" passes [validateOrderKey], which never
    looks at the digits, and [KeyBetween("a~", "")] returns "a0", which is
    not above "a~".  And below the valid key "A00000000000000000000000001"
    [KeyBetween] returns the reserved [smallestInt], which
    [validateOrderKey] rejects. *)
Lemma KeyBetween_outside_claim :
  (valid_key "a~" /\ KeyBetween "a~" "" = Ret ("a0", nil_err) /\
   ~ str_lt "a~" "a0") /\
  (valid_key "A00000000000000000000000001" /\
   KeyBetween "" "A00000000000000000000000001" = Ret (smallestInt, nil_err) /\
   ~ valid_key smallestInt).
Proof.
  split; (split; [reflexivity|split; [reflexivity|]]).
  - discriminate.
  - discriminate.
Qed.

(** C1, amended: for bounds over the base-62 alphabet, each empty or
    accepted by [validateOrderKey], with [a < b] when both are non-empty,
    and leaving out the pair of an empty [a] and
    [b = "A00000000000000000000000001"]: [KeyBetween] returns a key [m] and a
    nil error, [m] is strictly above a non-empty [a] and strictly below a
    non-empty [b], and [validateOrderKey m] succeeds; in particular the
    fractional part of [m] does not end in '0'. *)
Theorem KeyBetween_between (a b : string)
  (Ba : base62 a = true) (Bb : base62 b = true)
  (Va : a = "" \/ valid_key a) (Vb : b = "" \/ valid_key b)
  (O : a <> "" -> b <> "" -> str_lt a b)
  (N : ~ (a = "" /\ b = "A00000000000000000000000001")) :
  exists m, KeyBetween a b = Ret (m, nil_err) /\
    (a <> "" -> str_lt a m) /\ (b <> "" -> str_lt m b) /\
    validateOrderKey m = Ret nil_err /\
    exists ip, getIntPart m = Ret (ip, nil_err) /\
               HasSuffix (drop (String.length ip) m) "0" = false.
Proof.
  destruct (KeyBetween_spec a b Ba Bb Va Vb O)
    as (m & E & Bm & Nm & La & Lb & [Vm|(Ea & Eb & _)]).
  - exists m. repeat split; auto.
    destruct (validateOrderKey_inv m Vm) as (_ & _ & ip & G & _ & _ & Z).
    exists ip. split; [exact G|]. now rewrite HasSuffix_0.
  - exfalso. apply N. split; [exact Ea|exact Eb].
Qed.

Lemma KeyBetween_between_witness :
  exists m, KeyBetween "a0" "a1" = Ret (m, nil_err) /\
    ("a0" <> "" -> str_lt "a0" m) /\ ("a1" <> "" -> str_lt m "a1") /\
    validateOrderKey m = Ret nil_err /\
    exists ip, getIntPart m = Ret (ip, nil_err) /\
               HasSuffix (drop (String.length ip) m) "0" = false.
Proof.
  apply (KeyBetween_between "a0" "a1");
    [reflexivity|reflexivity|right; reflexivity|right; reflexivity| |].
  - intros _ _. reflexivity.
  - intros [H _]. discriminate H.
Defined.

(** C7 as stated fails.  Between the keys "a0!" and "a0~", which
    [validateOrderKey] accepts and which are in order, [KeyBetween] returns
    neither an error nor a key: it panics, on [base62Digits[-1]].  And an
    overflowing increment is an error only with two bounds: above
    "zzzzzzzzzzzzzzzzzzzzzzzzzzz" alone, the increment overflows and
    [KeyBetween] extends the fraction. *)
Lemma KeyBetween_panics_outside_alphabet :
  (valid_key "a0!" /\ valid_key "a0~" /\ str_lt "a0!" "a0~" /\
   ~ KeyBetween_fails "a0!" "a0~" /\ KeyBetween "a0!" "a0~" = Panic) /\
  (incrementInt "zzzzzzzzzzzzzzzzzzzzzzzzzzz" = Ret ("", nil_err) /\
   KeyBetween "zzzzzzzzzzzzzzzzzzzzzzzzzzz" ""
     = Ret ("zzzzzzzzzzzzzzzzzzzzzzzzzzzV", nil_err)).
Proof.
  split; [|split; reflexivity].
  split; [reflexivity|]. split; [reflexivity|]. split; [reflexivity|].
  split; [|reflexivity].
  destruct (KeyBetween_cases "a0!" "a0~") as [(e & E & _)|[N _]];
    [discriminate E|exact N].
Qed.

(** The decrement never underflows where [KeyBetween] calls it: the only
    integer part whose decrement is empty is [smallestInt], which takes the
    branch before. *)
Lemma decrement_never_underflows (a b : string) : ~ decrement_underflows a b.
Proof.
  intros (_ & Nb & ib & G & Ns & _ & E).
  destruct (getIntPart_nonempty b Nb) as [(ip & G' & V & _)|(e & G')];
    rewrite G in G'; [|discriminate].
  injection G' as <-. apply Ns. now apply decrementInt_empty_inv.
Qed.

(** C7, amended: [KeyBetween(a, b)] returns an error, together with the
    empty string, exactly when a non-empty input fails [validateOrderKey]
    (it is the reserved [smallestInt], its head is no letter, it is shorter
    than its head declares, or its fraction ends in '0'), or both inputs are
    non-empty and [a >= b], or both are non-empty with different integer
    parts and the increment of [a]'s integer part overflows, or [a] is empty
    and the decrement of [b]'s integer part underflows (which no input
    brings about).  For all other inputs
    over the base-62 alphabet it returns a key and a nil error; outside the
    alphabet it returns a key and a nil error or panics. *)
Theorem KeyBetween_errors (a b : string) :
  ((exists m e, KeyBetween a b = Ret (m, Some e)) <-> KeyBetween_fails a b) /\
  (forall m e, KeyBetween a b = Ret (m, Some e) -> m = "") /\
  (forall h r, key_rejected (String h r) <->
     (String h r = smallestInt \/
      snd (getIntLen h) <> nil_err \/
      len (String h r) < fst (getIntLen h) \/
      (snd (getIntLen h) = nil_err /\ fst (getIntLen h) <= len (String h r) /\
       ends_in_0 (drop (Z.to_nat (fst (getIntLen h))) (String h r)) = true))) /\
  (~ KeyBetween_fails a b ->
     KeyBetween a b = Panic \/ exists m, KeyBetween a b = Ret (m, nil_err)) /\
  (base62 a = true -> base62 b = true -> ~ KeyBetween_fails a b ->
     exists m, KeyBetween a b = Ret (m, nil_err)) /\
  ~ decrement_underflows a b.
Proof.
  split; [|split; [|split; [|split; [|split; [|apply decrement_never_underflows]]]]].
  - destruct (KeyBetween_cases a b) as [(e & E & F)|[N [P|(m & E)]]].
    + split; [auto|]. intros _. eauto.
    + split; [|contradiction]. intros (m & e & E). congruence.
    + split; [|contradiction]. intros (m' & e & E'). congruence.
  - intros m e E. destruct (KeyBetween_cases a b) as [(e' & E' & _)|[_ [P|(m' & E')]]];
      congruence.
  - intros h r. unfold key_rejected. rewrite <- validateOrderKey_rejects.
    split; [intros [_ H]; exact H|]. intros H. split; [discriminate|exact H].
  - intros N. destruct (KeyBetween_cases a b) as [(e & _ & F)|[_ H]];
      [contradiction|exact H].
  - intros Ba Bb N.
    assert (Va : a = "" \/ valid_key a).
    { destruct (String.eqb_spec a "") as [|Na]; [now left|right].
      destruct (validateOrderKey_total a Na) as [[e|] E]; [|exact E].
      exfalso. apply N. left. split; eauto. }
    assert (Vb : b = "" \/ valid_key b).
    { destruct (String.eqb_spec b "") as [|Nb]; [now left|right].
      destruct (validateOrderKey_total b Nb) as [[e|] E]; [|exact E].
      exfalso. apply N. right. left. split; eauto. }
    assert (O : a <> "" -> b <> "" -> str_lt a b).
    { intros Na Nb. destruct (str_lt_dec a b) as [H|H]; [exact H|].
      exfalso. apply N. right. right. left. auto. }
    destruct (KeyBetween_spec a b Ba Bb Va Vb O) as (m & E & _). eauto.
Qed.

(** ** [NKeysBetween] *)




(** * Further properties of the code *)

Lemma singles_inj (s t : string) : singles s = singles t -> s = t.
Proof. intros E. apply (f_equal Join) in E. now rewrite !Join_singles in E. Qed.

Lemma decr_loop_zeros (n : nat) :
  decr_loop (singles (rep "0" n)) = Ret (singles (rep "z" n), true).
Proof.
  induction n as [|n IH]; [reflexivity|].
  cbn [rep singles decr_loop]. rewrite IH. reflexivity.
Qed.

Lemma incr_loop_zs (n : nat) :
  incr_loop (singles (rep "z" n)) = Ret (singles (rep "0" n), true).
Proof.
  induction n as [|n IH]; [reflexivity|].
  cbn [rep singles incr_loop]. rewrite IH. reflexivity.
Qed.

(** The borrow loop undoes the carry loop. *)
Lemma incr_decr_loop (ds : string) : forall ds',
  base62 ds = true -> incr_loop (singles ds) = Ret (singles ds', false) ->
  decr_loop (singles ds') = Ret (singles ds, false).
Proof.
  induction ds as [|c r IH]; intros ds' B E; [discriminate|].
  simpl in B. apply andb_true_iff in B as [Bc Br].
  destruct (incr_loop_spec r Br) as (r' & carry & Er & L & B' & Ht & Hf).
  cbn [singles incr_loop] in E. rewrite Er in E. cbn [go_bind] in E.
  destruct (is62_digit c Bc) as (R & Ec & Sc).
  destruct carry.
  - destruct (Ht eq_refl) as [Hz H0].
    rewrite Index_single_digit in E. change (len base62Digits) with 62 in E.
    destruct (digit c + 1 =? 62) eqn:D; [discriminate|].
    apply Z.eqb_neq in D. rewrite digit_at_spec in E by lia.
    cbn [go_bind] in E. rewrite string_of_digit in E by lia.
    injection E as E.
    change (String (byte_of (code_of_digit (digit c + 1))) "" :: singles r')
      with (singles (String (byte_of (code_of_digit (digit c + 1))) r')) in E.
    apply singles_inj in E. subst ds'.
    cbn [singles decr_loop]. rewrite H0, decr_loop_zeros. cbn [go_bind].
    rewrite Index_single_digit.
    destruct (code_of_digit_range (digit c + 1)) as [_ ->]; [lia|].
    replace (digit c + 1 - 1) with (digit c) by lia.
    destruct (digit c =? -1) eqn:D1; [apply Z.eqb_eq in D1; lia|].
    rewrite digit_at_spec by lia. cbn [go_bind].
    rewrite <- (is62_char c Bc), Sc, <- Hz. reflexivity.
  - injection E as E.
    change (String c "" :: singles r') with (singles (String c r')) in E.
    apply singles_inj in E. subst ds'.
    cbn [singles decr_loop]. rewrite (IH r' Br Er). reflexivity.
Qed.

(** The carry loop undoes the borrow loop. *)
Lemma decr_incr_loop (ds : string) : forall ds',
  base62 ds = true -> decr_loop (singles ds) = Ret (singles ds', false) ->
  incr_loop (singles ds') = Ret (singles ds, false).
Proof.
  induction ds as [|c r IH]; intros ds' B E; [discriminate|].
  simpl in B. apply andb_true_iff in B as [Bc Br].
  destruct (decr_loop_spec r Br) as (r' & borrow & Er & L & B' & Ht & Hf).
  cbn [singles decr_loop] in E. rewrite Er in E. cbn [go_bind] in E.
  destruct (is62_digit c Bc) as (R & Ec & Sc).
  destruct borrow.
  - destruct (Ht eq_refl) as [Hz H0].
    rewrite Index_single_digit in E. change (len base62Digits - 1) with 61 in E.
    destruct (digit c - 1 =? -1) eqn:D; [discriminate|].
    apply Z.eqb_neq in D. rewrite digit_at_spec in E by lia.
    cbn [go_bind] in E. rewrite string_of_digit in E by lia.
    injection E as E.
    change (String (byte_of (code_of_digit (digit c - 1))) "" :: singles r')
      with (singles (String (byte_of (code_of_digit (digit c - 1))) r')) in E.
    apply singles_inj in E. subst ds'.
    cbn [singles incr_loop]. rewrite H0, incr_loop_zs. cbn [go_bind].
    rewrite Index_single_digit.
    destruct (code_of_digit_range (digit c - 1)) as [_ ->]; [lia|].
    replace (digit c - 1 + 1) with (digit c) by lia.
    change (len base62Digits) with 62.
    destruct (digit c =? 62) eqn:D1; [apply Z.eqb_eq in D1; lia|].
    rewrite digit_at_spec by lia. cbn [go_bind].
    rewrite <- (is62_char c Bc), Sc, <- Hz. reflexivity.
  - injection E as E.
    change (String c "" :: singles r') with (singles (String c r')) in E.
    apply singles_inj in E. subst ds'.
    cbn [singles incr_loop]. rewrite (IH r' Br Er). reflexivity.
Qed.

Lemma rep_snoc (c : ascii) (n : nat) : rep c n ++ String c "" = rep c (S n).
Proof. induction n as [|n IH]; [reflexivity|]. simpl. now rewrite IH. Qed.

(** When the borrow leaves the digits, the head moves down by one; an
    uppercase head gains a digit, a lowercase head gives one up. *)
Lemma decrementInt_borrow (h : ascii) (n : nat) :
  valid_int (String h (rep "0" n)) -> h <> "a"%char -> h <> "A"%char ->
  decrementInt (String h (rep "0" n)) =
  Ret (String (byte_of (code h - 1))
         (if is_upper (byte_of (code h - 1)) then rep "z" n ++ "z"
          else drop 1 (rep "z" n)), nil_err) /\
  code (byte_of (code h - 1)) = code h - 1 /\
  (is_lower h = true -> is_lower (byte_of (code h - 1)) = true /\ (1 <= n)%nat) /\
  (is_upper h = true -> is_upper (byte_of (code h - 1)) = true).
Proof.
  intros V Na NA.
  pose proof (valid_int_base62_rep h "0" n V eq_refl) as B.
  destruct (validateInt_inv _ V) as (h' & ds & m & E & G & L).
  injection E as <- <-.
  destruct (getIntLen_spec h) as [(k & Ek & R)|(e & Ek & _)]; [|congruence].
  rewrite G in Ek. injection Ek as <-.
  assert (NAc : code h <> 65) by (intros C; apply NA, code_inj; exact C).
  assert (Nac : code h <> 97) by (intros C; apply Na, code_inj; exact C).
  pose proof (code_range h) as Rh.
  assert (Ch : code (byte_of (code h - 1)) = code h - 1)
    by (apply code_byte_of; lia).
  assert (Ln : Z.of_nat n = m - 1)
    by (unfold len in L; cbn [String.length] in L; rewrite length_rep in L; lia).
  split; [|split; [exact Ch|split]];
    try (unfold is_lower, is_upper, between; rewrite ?Ch; lia).
  unfold decrementInt. rewrite V. cbn [go_bind].
  rewrite (Split_base62 _ B). cbn [singles].
  rewrite decr_loop_zeros. cbn [go_bind].
  change "A" with (String "A"%char ""). change "a" with (String "a"%char "").
  rewrite !single_eqb.
  destruct (Ascii.eqb_spec h "a") as [|_]; [contradiction|].
  destruct (Ascii.eqb_spec h "A") as [|_]; [contradiction|].
  cbn [first_byte go_bind].
  assert (Sh : string_of_byte (byte_of (code h - 1)) = String (byte_of (code h - 1)) "").
  { unfold string_of_byte. rewrite Ch. destruct (code h - 1 <? 128) eqn:C; [reflexivity|lia]. }
  rewrite Sh, Ch. unfold is_upper, between. rewrite Ch.
  change (code "Z") with 90.
  destruct (code h - 1 <? 90) eqn:C.
  - change (digit_at (len base62Digits - 1)) with (Ret "z"%char : go ascii).
    cbn [go_bind]. change (string_of_byte "z") with "z".
    rewrite Join_singles_snoc.
    replace ((65 <=? code h - 1) && (code h - 1 <=? 90)) with true by lia.
    reflexivity.
  - replace ((65 <=? code h - 1) && (code h - 1 <=? 90)) with false by lia.
    destruct n as [|n]; [lia|].
    cbn [rep singles tail_slice go_bind drop]. rewrite Join_singles.
    now destruct (rep "z" n).
Qed.

Lemma validateInt_total (x : string) : x <> "" -> exists r, validateInt x = Ret r.
Proof.
  intros N. destruct x as [|h r]; [contradiction|]. unfold validateInt.
  cbn [first_byte go_bind]. destruct (getIntLen h) as [n [e|]];
    [eexists; reflexivity|].
  destruct (negb _); eexists; reflexivity.
Qed.

Lemma incrementInt_decrementInt (x i : string) :
  valid_int x -> base62 x = true ->
  incrementInt x = Ret (i, nil_err) -> i <> "" ->
  decrementInt i = Ret (x, nil_err).
Proof.
  intros V B E Ni.
  destruct (incrementInt_spec x V B) as (i' & E' & H).
  rewrite E in E'. injection E' as <-.
  destruct H as [[-> _]|(Vi & Bi & _)]; [congruence|].
  destruct (validateInt_inv x V) as (h & ds & n & -> & G & L).
  pose proof B as B0. simpl in B0. apply andb_true_iff in B0 as [Bh Bd].
  destruct (incr_loop_spec ds Bd) as (ds' & carry & El & Ll & Bd' & Ht & Hf).
  destruct carry.
  - destruct (Ht eq_refl) as [Hz H0].
    remember (String.length ds) as m eqn:Em. subst ds. clear Em Ht Hf.
    destruct (Ascii.eqb_spec h "Z") as [->|NZ].
    { assert (m = 1%nat) as ->.
      { unfold len in L. cbn [String.length] in L. rewrite length_rep in L.
        unfold getIntLen in G. simpl in G. injection G as <-. lia. }
      simpl in E. injection E as <-. reflexivity. }
    destruct (Ascii.eqb_spec h "z") as [->|Nz].
    { exfalso. apply Ni.
      unfold incrementInt in E. rewrite V in E. cbn [go_bind] in E.
      rewrite (Split_base62 _ B) in E. cbn [singles] in E.
      rewrite incr_loop_zs in E. cbn [go_bind] in E. simpl in E. congruence. }
    destruct (incrementInt_carry h _ V Nz NZ) as (E2 & Ch & Hlow & Hup & Hn).
    rewrite E in E2. injection E2 as ->.
    destruct (getIntLen_spec h) as [(k & Ek & R)|(e & Ek & _)]; [|congruence].
    pose proof (code_range h) as Rh.
    assert (NZc : code h <> 90) by (intros C; apply NZ, code_inj; exact C).
    assert (Nzc : code h <> 122) by (intros C; apply Nz, code_inj; exact C).
    assert (Hh : byte_of (code (byte_of (code h + 1)) - 1) = h).
    { rewrite Ch. replace (code h + 1 - 1) with (code h) by lia. apply byte_of_code. }
    destruct (is_lower (byte_of (code h + 1))) eqn:Lw.
    + rewrite rep_snoc in *.
      destruct (decrementInt_borrow _ _ Vi) as (E3 & _).
      * intros C. apply (f_equal code) in C. rewrite Ch in C. change (code "a") with 97 in C.
        unfold is_lower, between in Lw. rewrite Ch in Lw.
        destruct R as [[R _]|[R _]]; lia.
      * intros C. apply (f_equal code) in C. rewrite Ch in C. change (code "A") with 65 in C.
        destruct R as [[R _]|[R _]]; lia.
      * rewrite E3, Hh. f_equal. f_equal. f_equal.
        replace (is_upper h) with false.
        2:{ unfold is_lower, is_upper, between in *. rewrite Ch in Lw. lia. }
        reflexivity.
    + assert (Up : is_upper h = true).
      { unfold is_lower, is_upper, between in *. rewrite Ch in Lw.
        destruct R as [[R _]|[R _]]; lia. }
      specialize (Hn Up).
      destruct m as [|m]; [lia|].
      cbn [rep drop] in *.
      destruct (decrementInt_borrow _ _ Vi) as (E3 & _).
      * intros C. apply (f_equal code) in C. rewrite Ch in C. change (code "a") with 97 in C.
        unfold is_upper, between in Up. lia.
      * intros C. apply (f_equal code) in C. rewrite Ch in C. change (code "A") with 65 in C.
        unfold is_upper, between in Up. lia.
      * rewrite E3, Hh, Up. rewrite rep_snoc. reflexivity.
  - unfold incrementInt in E. rewrite V in E. cbn [go_bind] in E.
    rewrite (Split_base62 _ B) in E. cbn [singles] in E.
    rewrite El in E. cbn [go_bind] in E. rewrite Join_singles in E.
    injection E as <-. change (String h "" ++ ds') with (String h ds') in *.
    unfold decrementInt. rewrite Vi. cbn [go_bind].
    rewrite (Split_base62 _ Bi). cbn [singles].
    rewrite (incr_decr_loop ds ds' Bd El). cbn [go_bind].
    rewrite Join_singles. reflexivity.
Qed.

Lemma decrementInt_incrementInt (x r : string) :
  valid_int x -> base62 x = true ->
  decrementInt x = Ret (r, nil_err) -> r <> "" ->
  incrementInt r = Ret (x, nil_err).
Proof.
  intros V B E Nr.
  destruct (decrementInt_spec x V B) as (r' & E' & H).
  rewrite E in E'. injection E' as <-.
  destruct H as [[-> _]|(Vr & Br & _)]; [congruence|].
  destruct (validateInt_inv x V) as (h & ds & n & -> & G & L).
  pose proof B as B0. simpl in B0. apply andb_true_iff in B0 as [Bh Bd].
  destruct (decr_loop_spec ds Bd) as (ds' & borrow & El & Ll & Bd' & Ht & Hf).
  destruct borrow.
  - destruct (Ht eq_refl) as [Hz H0].
    remember (String.length ds) as m eqn:Em. subst ds. clear Em Ht Hf.
    destruct (Ascii.eqb_spec h "a") as [->|Na].
    { assert (m = 1%nat) as ->.
      { unfold len in L. cbn [String.length] in L. rewrite length_rep in L.
        unfold getIntLen in G. simpl in G. injection G as <-. lia. }
      simpl in E. injection E as <-. reflexivity. }
    destruct (Ascii.eqb_spec h "A") as [->|NA].
    { exfalso. apply Nr.
      unfold decrementInt in E. rewrite V in E. cbn [go_bind] in E.
      rewrite (Split_base62 _ B) in E. cbn [singles] in E.
      rewrite decr_loop_zeros in E. cbn [go_bind] in E. simpl in E. congruence. }
    destruct (decrementInt_borrow h _ V Na NA) as (E2 & Ch & Hlow & Hup).
    rewrite E in E2. injection E2 as ->.
    destruct (getIntLen_spec h) as [(k & Ek & R)|(e & Ek & _)]; [|congruence].
    pose proof (code_range h) as Rh.
    assert (NAc : code h <> 65) by (intros C; apply NA, code_inj; exact C).
    assert (Nac : code h <> 97) by (intros C; apply Na, code_inj; exact C).
    assert (Hh : byte_of (code (byte_of (code h - 1)) + 1) = h).
    { rewrite Ch. replace (code h - 1 + 1) with (code h) by lia. apply byte_of_code. }
    destruct (is_upper (byte_of (code h - 1))) eqn:Upw.
    + rewrite rep_snoc in *.
      destruct (incrementInt_carry _ _ Vr) as (E3 & _).
      * intros C. apply (f_equal code) in C. rewrite Ch in C. change (code "z") with 122 in C.
        unfold is_upper, between in Upw. rewrite Ch in Upw. lia.
      * intros C. apply (f_equal code) in C. rewrite Ch in C. change (code "Z") with 90 in C.
        destruct R as [[R _]|[R _]]; lia.
      * rewrite E3, Hh. f_equal. f_equal. f_equal.
        replace (is_lower h) with false.
        2:{ unfold is_lower, is_upper, between in *. rewrite Ch in Upw. lia. }
        reflexivity.
    + assert (Lw : is_lower h = true).
      { unfold is_lower, is_upper, between in *. rewrite Ch in Upw.
        destruct R as [[R _]|[R _]]; lia. }
      destruct (Hlow Lw) as [_ Hn].
      destruct m as [|m]; [lia|].
      cbn [rep drop] in *.
      destruct (incrementInt_carry _ _ Vr) as (E3 & _).
      * intros C. apply (f_equal code) in C. rewrite Ch in C. change (code "z") with 122 in C.
        unfold is_lower, between in Lw. lia.
      * intros C. apply (f_equal code) in C. rewrite Ch in C. change (code "Z") with 90 in C.
        unfold is_lower, between in Lw. lia.
      * rewrite E3, Hh, Lw. rewrite rep_snoc. reflexivity.
  - unfold decrementInt in E. rewrite V in E. cbn [go_bind] in E.
    rewrite (Split_base62 _ B) in E. cbn [singles] in E.
    rewrite El in E. cbn [go_bind] in E. rewrite Join_singles in E.
    injection E as <-. change (String h "" ++ ds') with (String h ds') in *.
    unfold incrementInt. rewrite Vr. cbn [go_bind].
    rewrite (Split_base62 _ Br). cbn [singles].
    rewrite (decr_incr_loop ds ds' Bd El). cbn [go_bind].
    rewrite Join_singles. reflexivity.
Qed.

Section JitterInRange.

Context {J : Type} (IntnRange : J -> Z -> Z -> Z * J) (jitterRange : Z).
Hypothesis InR : in_range IntnRange.
Hypothesis Rnn : 0 <= jitterRange.

(** The digit that step 3 of the jittered midpoint picks lies strictly
    between the two first digits. *)
Lemma jitter_pick_spec (A B : Z) (j : J) :
  0 <= A -> A + 1 < B -> B <= 62 ->
  exists pick j3,
    (let interior := B - A - 1 in
     let center := A + 1 + Z.quot interior 2 in
     let '(d1, j1) := IntnRange j 0 jitterRange in
     let lo := Z.max (A + 1) (center - d1) in
     let '(d2, j2) := IntnRange j1 0 jitterRange in
     let hi := Z.min (B - 1) (center + d2) in
     if lo <? hi then IntnRange j2 lo hi else (lo, j2)) = (pick, j3) /\
    A < pick < B.
Proof.
  intros HA HB HB'. cbv zeta.
  pose proof (InR j 0 jitterRange Rnn) as H1.
  destruct (IntnRange j 0 jitterRange) as [d1 j1]. cbn [fst] in H1.
  pose proof (InR j1 0 jitterRange Rnn) as H2.
  destruct (IntnRange j1 0 jitterRange) as [d2 j2]. cbn [fst] in H2.
  assert (Q : 0 <= Z.quot (B - A - 1) 2 <= B - A - 2).
  { rewrite Z.quot_div_nonneg by lia.
    pose proof (Z.div_mod (B - A - 1) 2 ltac:(lia)).
    pose proof (Z.mod_pos_bound (B - A - 1) 2 ltac:(lia)). lia. }
  destruct (_ <? _) eqn:C.
  - apply Z.ltb_lt in C.
    pose proof (InR j2 _ _ (Z.lt_le_incl _ _ C)) as H3.
    destruct (IntnRange j2 _ _) as [pick j3]. cbn [fst] in H3.
    exists pick, j3. split; [reflexivity|]. lia.
  - eexists _, j2. split; [reflexivity|]. lia.
Qed.

Lemma midpointJitter_fuel_spec (fuel : nat) : forall a b j,
  (String.length a + String.length b < fuel)%nat ->
  base62 a = true -> base62 b = true -> ends_in_0 b = false ->
  (b = "" \/ str_lt a b) ->
  exists m j',
    midpointJitter_fuel J IntnRange fuel a b j jitterRange = Some (Ret (m, j')) /\
    base62 m = true /\ ends_in_0 m = false /\ m <> "" /\ str_lt a m /\
    (b <> "" -> str_lt m b \/ (m = b /\ exists p, b = p ++ "1")).
Proof.
  induction fuel as [|n IH]; intros a b j L Ba Bb Zb O; [lia|].
  cbn [midpointJitter_fuel].
  destruct b as [|b0 b'].
  - (* no upper bound *)
    change (String.eqb "" "") with true. cbv iota zeta.
    change (0 <? 0)%nat with false. cbv iota.
    change (len base62Digits) with 62.
    destruct a as [|a0 a'].
    + change (1 <? 62 - 0) with true. cbv iota.
      destruct (jitter_pick_spec 0 62 j) as (pick & j3 & Ep & Rp); try lia.
      cbv zeta in Ep. change (0 + 1) with 1 in *. change (62 - 0 - 1) with 61 in *.
      change (62 - 1) with 61 in *.
      destruct (IntnRange j 0 jitterRange) as [d1 j1].
      destruct (IntnRange j1 0 jitterRange) as [d2 j2].
      rewrite Ep. rewrite digit_at_spec by lia. cbn [go_bind].
      rewrite string_of_digit by lia.
      destruct (code_of_digit_range pick) as [Ic Dc]; [lia|].
      eexists _, j3. split; [reflexivity|].
      split; [simpl; now rewrite Ic|].
      split; [apply ends_in_0_single; [exact Ic|lia]|].
      split; [discriminate|]. split; [reflexivity|congruence].
    + simpl in Ba. apply andb_true_iff in Ba as [Ia Ba].
      fold (digit a0).
      destruct (is62_digit a0 Ia) as (Ra & Ca & Sa).
      destruct (1 <? 62 - digit a0) eqn:C.
      * destruct (jitter_pick_spec (digit a0) 62 j) as (pick & j3 & Ep & Rp); try lia.
        cbv zeta in Ep.
        destruct (IntnRange j 0 jitterRange) as [d1 j1].
        destruct (IntnRange j1 0 jitterRange) as [d2 j2].
        rewrite Ep. rewrite digit_at_spec by lia. cbn [go_bind].
        rewrite string_of_digit by lia.
        destruct (code_of_digit_range pick) as [Ic Dc]; [lia|].
        eexists _, j3. split; [reflexivity|].
        split; [simpl; now rewrite Ic|].
        split; [apply ends_in_0_single; [exact Ic|lia]|].
        split; [discriminate|]. split; [|congruence].
        apply str_lt_cons. left. apply digit_mono; auto. lia.
      * rewrite digit_at_spec, <- (is62_char a0 Ia) by lia.
        destruct (IH a' "" j) as (m & j' & Em & Bm & Zm & Nm & Lm & _);
          try (cbn [String.length] in *; lia); auto.
        rewrite Em, Sa. cbn [go_bind fst snd].
        exists (String a0 m), j'. split; [reflexivity|].
        split; [simpl; now rewrite Ia, Bm|].
        split; [now rewrite ends_in_0_cons|]. split; [discriminate|].
        split; [|congruence]. apply str_lt_cons. right. auto.
  - (* an upper bound *)
    destruct O as [O|O]; [discriminate|].
    change (String.eqb (String b0 b') "") with false. cbv iota zeta.
    pose proof (prefix_len_take a (String b0 b')) as P.
    pose proof (prefix_len_le a (String b0 b')) as Pl.
    destruct (0 <? prefix_len a (String b0 b'))%nat eqn:Ep.
    + (* a common prefix is stripped *)
      apply Nat.ltb_lt in Ep.
      set (p := prefix_len a (String b0 b')) in *.
      destruct (base62_take_drop p _ Bb) as [Bt Bd].
      pose proof (ends_in_0_drop p _ Zb) as Zd.
      pose proof (take_drop p (String b0 b')) as TD.
      destruct (String.length a <? p)%nat eqn:Ea.
      * apply Nat.ltb_lt in Ea.
        assert (Ta : take p a = a).
        { rewrite <- (take_drop p a) at 2.
          assert (drop p a = "") as -> by (apply length_zero; rewrite length_drop; lia).
          now rewrite app_nil_r. }
        rewrite Ta in P.
        assert (Nd : drop p (String b0 b') <> "").
        { intros Ed. rewrite Ed, app_nil_r in TD. rewrite <- TD, P in Zb.
          rewrite ends_in_0_app in Zb.
          destruct (p - String.length a)%nat as [|k] eqn:Ek; [lia|].
          rewrite ends_in_0_rep in Zb. simpl rep in Zb. discriminate. }
        destruct (IH "" (drop p (String b0 b')) j) as (m & j' & Em & Bm & Zm & Nm & _ & Lm);
          auto.
        { rewrite length_drop. cbn [String.length] in *; lia. }
        { right. destruct (drop p (String b0 b')); [congruence|reflexivity]. }
        rewrite Em. cbn [go_bind fst snd].
        exists (take p (String b0 b') ++ m), j'. split; [reflexivity|].
        split; [now rewrite base62_app, Bt, Bm|].
        split; [rewrite ends_in_0_app; destruct m; [congruence|exact Zm]|].
        split; [destruct (take p (String b0 b')), m; simpl; congruence|].
        split.
        -- rewrite P, app_assoc. apply str_lt_app_r.
           destruct (rep "0" (p - String.length a)), m; simpl; congruence.
        -- intros _. destruct (Lm Nd) as [Lt|[Eq (q & Eq')]].
           ++ left. rewrite <- TD at 2. apply str_lt_app. auto.
           ++ right. split; [rewrite Eq; exact TD|].
              exists (take p (String b0 b') ++ q). rewrite app_assoc, <- Eq'. now rewrite TD.
      * apply Nat.ltb_ge in Ea.
        replace (p - String.length a)%nat with 0%nat in P by lia.
        simpl rep in P. rewrite app_nil_r in P.
        destruct (base62_take_drop p _ Ba) as [_ Bda].
        assert (Od : str_lt (drop p a) (drop p (String b0 b'))).
        { rewrite <- (take_drop p a), <- TD, P in O. now apply str_lt_app in O. }
        destruct (IH (drop p a) (drop p (String b0 b')) j) as (m & j' & Em & Bm & Zm & Nm & Lm & Um);
          auto.
        { rewrite !length_drop. cbn [String.length] in *; lia. }
        rewrite Em. cbn [go_bind fst snd].
        assert (Nd : drop p (String b0 b') <> "")
          by (intros Ed; rewrite Ed in Od; now apply str_lt_nil_r in Od).
        exists (take p (String b0 b') ++ m), j'. split; [reflexivity|].
        split; [now rewrite base62_app, Bt, Bm|].
        split; [rewrite ends_in_0_app; destruct m; [congruence|exact Zm]|].
        split; [destruct (take p (String b0 b')), m; simpl; congruence|].
        split.
        -- rewrite <- (take_drop p a) at 1. rewrite P. apply str_lt_app. exact Lm.
        -- intros _. destruct (Um Nd) as [Lt|[Eq (q & Eq')]].
           ++ left. rewrite <- TD at 2. apply str_lt_app. auto.
           ++ right. split; [rewrite Eq; exact TD|].
              exists (take p (String b0 b') ++ q). rewrite app_assoc, <- Eq'. now rewrite TD.
    + (* the first digits differ *)
      apply Nat.ltb_ge in Ep.
      assert (P0 : prefix_len a (String b0 b') = 0%nat) by lia.
      apply prefix_len_zero in P0. clear P Pl Ep.
      simpl in Bb. apply andb_true_iff in Bb as [Ib Bb].
      fold (digit b0).
      destruct (is62_digit b0 Ib) as (Rb & Cb & Sb).
      assert (Hdig : exists dA c0 sa,
                dA = match a with "" => 0 | String a0 _ => Index base62Digits (string_of_byte a0) end /\
                sa = match a with String _ a' => a' | "" => "" end /\
                0 <= dA < digit b0 /\ digit_at dA = Ret c0 /\
                string_of_byte c0 = String c0 "" /\ is62 c0 = true /\
                base62 sa = true /\ (String.length sa <= String.length a)%nat /\
                str_lt a (String b0 "") /\
                (forall m, str_lt sa m -> str_lt a (String c0 m)) /\
                (forall c m, dA < digit c -> is62 c = true -> str_lt a (String c m)) /\
                code c0 < code b0).
      { destruct a as [|a0 a'].
        - exists 0, "0"%char, "". repeat split; try reflexivity; try lia.
          + destruct (Z.eq_dec (digit b0) 0) as [D0|]; [|lia].
            apply digit_zero in D0; auto. congruence.
          + apply (digit_mono "0" b0); auto.
            destruct (Z.eq_dec (digit b0) 0) as [D0|]; [|change (digit "0") with 0; lia].
            apply digit_zero in D0; auto. congruence.
        - simpl in Ba. apply andb_true_iff in Ba as [Ia Ba]. fold (digit a0).
          destruct (is62_digit a0 Ia) as (Ra & Ca & Sa).
          apply str_lt_cons in O. destruct O as [O|[O _]]; [|congruence].
          exists (digit a0), a0, a'. split; [reflexivity|]. split; [reflexivity|].
          split; [split; [lia|now apply digit_mono]|].
          split; [rewrite digit_at_spec by lia; now rewrite <- is62_char|].
          split; [exact Sa|]. split; [exact Ia|]. split; [exact Ba|].
          split; [simpl; lia|]. split; [apply str_lt_cons; now left|].
          split; [intros m Hm; apply str_lt_cons; right; auto|].
          split; [|exact O].
          intros c m Hc Ic. apply str_lt_cons. left. now apply digit_mono. }
      destruct Hdig as (dA & c0 & sa & EdA & Esa & RdA & EcA & ScA & IcA & Bsa & Lsa & Lab & Lext & Lgt & Lc).
      rewrite <- EdA, <- Esa.
      destruct (1 <? digit b0 - dA) eqn:C.
      * destruct (jitter_pick_spec dA (digit b0) j) as (pick & j3 & Epk & Rp); try lia.
        cbv zeta in Epk.
        destruct (IntnRange j 0 jitterRange) as [d1 j1].
        destruct (IntnRange j1 0 jitterRange) as [d2 j2].
        rewrite Epk. rewrite digit_at_spec by lia. cbn [go_bind].
        rewrite string_of_digit by lia.
        destruct (code_of_digit_range pick) as [Ic Dc]; [lia|].
        eexists _, j3. split; [reflexivity|].
        split; [simpl; now rewrite Ic|].
        split; [apply ends_in_0_single; [exact Ic|lia]|].
        split; [discriminate|]. split.
        -- apply Lgt; [lia|exact Ic].
        -- intros _. left. apply str_lt_cons. left. apply digit_mono; auto. lia.
      * destruct b' as [|b1 b''].
        -- (* a single digit: the recursion on the tail of a *)
           rewrite EcA.
           destruct (IH sa "" j) as (m & j' & Em & Bm & Zm & Nm & Lm & _); auto.
           { cbn [String.length] in *; lia. }
           rewrite Em, ScA. cbn [go_bind fst snd].
           exists (String c0 m), j'. split; [reflexivity|].
           split; [simpl; now rewrite IcA, Bm|].
           split; [now rewrite ends_in_0_cons|]. split; [discriminate|].
           split; [now apply Lext|].
           intros _. left. apply str_lt_cons. now left.
        -- (* adjacent digits and a longer b *)
           simpl in Bb. apply andb_true_iff in Bb as [I1 Bb].
           fold (digit b1).
           destruct (is62_digit b1 I1) as (R1 & C1 & S1).
           destruct (digit b1 - 1 <? 0) eqn:Ch.
           ++ exists (String b0 ""), j. split; [reflexivity|].
              split; [simpl; now rewrite Ib|].
              split; [apply ends_in_0_single; [exact Ib|lia]|].
              split; [discriminate|]. split; [exact Lab|].
              intros _. left. apply str_lt_cons. right. split; reflexivity.
           ++ apply Z.ltb_ge in Ch.
              assert (Hp : exists pickIdx j1,
                (if 1 <=? digit b1 - 1
                 then IntnRange j 1 (Z.min (digit b1 - 1) (1 + jitterRange))
                 else (1, j)) = (pickIdx, j1) /\
                1 <= pickIdx <= digit b1).
              { destruct (1 <=? digit b1 - 1) eqn:Ch1.
                - apply Z.leb_le in Ch1.
                  pose proof (InR j 1 (Z.min (digit b1 - 1) (1 + jitterRange)) ltac:(lia)) as H.
                  destruct (IntnRange j 1 _) as [pk j1]. cbn [fst] in H.
                  exists pk, j1. split; [reflexivity|lia].
                - apply Z.leb_gt in Ch1. exists 1, j. split; [reflexivity|lia]. }
              destruct Hp as (pickIdx & j1 & Epk & Rpk). rewrite Epk.
              rewrite digit_at_spec by lia. cbn [go_bind].
              rewrite Sb, string_of_digit by lia.
              destruct (code_of_digit_range pickIdx) as [Ic Dc]; [lia|].
              set (c := byte_of (code_of_digit pickIdx)) in *.
              exists (String b0 (String c "")), j1. split; [reflexivity|].
              split; [simpl; now rewrite Ib, Ic|].
              split; [rewrite ends_in_0_cons by discriminate;
                      apply ends_in_0_single; [exact Ic|lia]|].
              split; [discriminate|].
              split; [apply Lgt; [lia|exact Ib]|].
              intros _.
              destruct (Z.eq_dec pickIdx (digit b1)) as [Eq|Ne].
              ** assert (c = b1) as ->.
                 { rewrite (is62_char b1 I1). unfold c. now rewrite Eq. }
                 destruct b'' as [|b2 b3].
                 --- right. split; [reflexivity|].
                     assert (b1 = "1"%char) as ->.
                     { rewrite (is62_char b1 I1).
                       destruct (1 <=? digit b1 - 1) eqn:Ch1.
                       - apply Z.leb_le in Ch1.
                         pose proof (InR j 1 (Z.min (digit b1 - 1) (1 + jitterRange)) ltac:(lia)) as H.
                         rewrite Epk in H. cbn [fst] in H. lia.
                       - injection Epk as <- _. rewrite <- Eq. reflexivity. }
                     exists (String b0 ""). reflexivity.
                 --- left. apply str_lt_cons. right. split; [reflexivity|].
                     apply str_lt_cons. right. split; reflexivity.
              ** left. apply str_lt_cons. right. split; [reflexivity|].
                 apply str_lt_cons. left. apply digit_mono; auto.
                 rewrite Dc. lia.
Qed.

Lemma midpointJitter_spec (a b : string) (j : J) :
  base62 a = true -> base62 b = true -> ends_in_0 b = false ->
  (b = "" \/ str_lt a b) ->
  exists m j',
    midpointJitter IntnRange a b j jitterRange = Ret (m, j') /\
    base62 m = true /\ ends_in_0 m = false /\ m <> "" /\ str_lt a m /\
    (b <> "" -> str_lt m b \/ (m = b /\ exists p, b = p ++ "1")).
Proof.
  intros Ba Bb Zb O.
  destruct (midpointJitter_fuel_spec (S (String.length a + String.length b)) a b j)
    as (m & j' & E & H); auto.
  exists m, j'. split; [|exact H]. unfold midpointJitter. now rewrite E.
Qed.

(** [KeyBetweenJitter] of jitter.go on valid base-62 bounds, for a source
    that keeps its contract. *)
Lemma KeyBetweenJitter_spec (a b : string) (j : J) :
  base62 a = true -> base62 b = true ->
  (a = "" \/ valid_key a) -> (b = "" \/ valid_key b) ->
  (a <> "" -> b <> "" -> str_lt a b) ->
  exists m j',
    KeyBetweenJitter IntnRange a b j jitterRange = Ret ((m, nil_err), j') /\
    base62 m = true /\ m <> "" /\
    (a <> "" -> str_lt a m) /\
    (b <> "" -> str_lt m b \/ (m = b /\ exists p, b = p ++ "1")) /\
    (valid_key m \/
     (a = "" /\ b = String "A" (rep "0" 25 ++ "1") /\ m = smallestInt)).
Proof.
  intros Ba Bb Va Vb O. unfold KeyBetweenJitter, keyBetweenInternal.
  rewrite (check_key_ok a) by exact Va. rewrite (check_key_ok b) by exact Vb.
  destruct (String.eqb_spec a "") as [->|Na];
    destruct (String.eqb_spec b "") as [->|Nb]; cbn [negb andb].
  - exists "a0", j. repeat split; try discriminate; try congruence. now left.
  - (* only an upper bound *)
    destruct Vb as [|Vb]; [congruence|].
    destruct (valid_key_split b Vb Bb) as (ib & fb & D & G & Dr & Vi & Ns & Bi & Bf & Zf).
    rewrite G. cbn [go_tryj]. rewrite Dr.
    destruct (String.eqb_spec ib smallestInt) as [Es|Nsi].
    + assert (Nf : fb <> "") by (intros ->; rewrite app_nil_r in D; congruence).
      destruct (midpointJitter_spec "" fb j) as (m & j' & Em & Bm & Zm & Nm & _ & Lm); auto.
      { right. destruct fb; [congruence|reflexivity]. }
      rewrite Em. cbn [go_bind fst snd]. exists (ib ++ m), j'. split; [reflexivity|].
      split; [now rewrite base62_app, Bi, Bm|].
      split; [destruct ib, m; simpl; congruence|]. split; [congruence|].
      split.
      * intros _. rewrite D. destruct (Lm Nf) as [Lt|[Eq (q & Eq')]].
        -- left. apply str_lt_app; auto.
        -- right. split; [now rewrite Eq|]. exists (ib ++ q). now rewrite app_assoc, <- Eq'.
      * left. now apply valid_key_app.
    + destruct (str_ltb ib b) eqn:Lb.
      * apply str_ltb_lt in Lb. exists ib, j. split; [reflexivity|].
        split; [exact Bi|]. split; [destruct ib; [discriminate Vi|discriminate]|].
        split; [congruence|]. split; [auto|]. left. now apply valid_key_int.
      * assert (fb = "") as ->.
        { destruct fb as [|c fb]; [reflexivity|]. exfalso.
          assert (str_lt ib b) as H by (rewrite D; now apply str_lt_app_r).
          apply str_ltb_lt in H. congruence. }
        rewrite app_nil_r in D. subst ib.
        destruct (decrementInt_spec b Vi Bi) as (r & Er & [[_ Es]|(Vr & Br & Nr & Lr & _ & Hs)]);
          [congruence|].
        rewrite Er. cbn [go_tryj].
        destruct (String.eqb_spec r "") as [|_]; [contradiction|].
        exists r, j. split; [reflexivity|]. split; [exact Br|]. split; [exact Nr|].
        split; [congruence|]. split; [auto|].
        destruct (String.eqb_spec r smallestInt) as [Es|Nrs].
        -- right. auto.
        -- left. now apply valid_key_int.
  - (* only a lower bound *)
    destruct Va as [|Va]; [congruence|].
    destruct (valid_key_split a Va Ba) as (ia & fa & D & G & Dr & Vi & Ns & Bi & Bf & Zf).
    rewrite G. cbn [go_tryj]. rewrite Dr.
    destruct (incrementInt_spec ia Vi Bi)
      as (i & Ei & [[-> Ez]|(Vn & Bn & Nn & Nsn & Ln & _)]); rewrite Ei; cbn [go_tryj].
    + change (String.eqb "" "") with true. cbv iota.
      destruct (midpointJitter_spec fa "" j) as (m & j' & Em & Bm & Zm & Nm & Lm & _); auto.
      rewrite Em. cbn [go_bind fst snd]. exists (ia ++ m), j'. split; [reflexivity|].
      split; [now rewrite base62_app, Bi, Bm|].
      split; [destruct ia, m; simpl; congruence|].
      split; [intros _; rewrite D; apply str_lt_app; auto|].
      split; [congruence|]. left. now apply valid_key_app.
    + destruct (String.eqb_spec i "") as [|_]; [contradiction|].
      exists i, j. split; [reflexivity|]. split; [exact Bn|]. split; [exact Nn|].
      split; [intros _; rewrite D; apply Ln|]. split; [congruence|].
      left. now apply valid_key_int.
  - (* both bounds *)
    specialize (O Na Nb).
    assert (Hge : str_geb a b = false).
    { unfold str_geb. apply negb_false_iff. apply str_ltb_lt. exact O. }
    rewrite Hge. cbv iota.
    destruct Va as [|Va]; [congruence|]. destruct Vb as [|Vb]; [congruence|].
    destruct (valid_key_split a Va Ba) as (ia & fa & Da & Ga & Dra & Via & Nsa & Bia & Bfa & Zfa).
    destruct (valid_key_split b Vb Bb) as (ib & fb & Db & Gb & Drb & Vib & Nsb & Bib & Bfb & Zfb).
    rewrite Ga. cbn [go_tryj]. rewrite Gb. cbn [go_tryj]. rewrite Dra, Drb.
    destruct (String.eqb_spec ia ib) as [Eab|Nab].
    + subst ib. assert (Lf : str_lt fa fb) by (rewrite Da, Db in O; now apply str_lt_app in O).
      assert (Nf : fb <> "") by (intros ->; now apply str_lt_nil_r in Lf).
      destruct (midpointJitter_spec fa fb j) as (m & j' & Em & Bm & Zm & Nm & Lm & Um); auto.
      rewrite Em. cbn [go_bind fst snd]. exists (ia ++ m), j'. split; [reflexivity|].
      split; [now rewrite base62_app, Bia, Bm|].
      split; [destruct ia, m; simpl; congruence|].
      split; [intros _; rewrite Da; apply str_lt_app; auto|].
      split.
      * intros _. rewrite Db. destruct (Um Nf) as [Lt|[Eq (q & Eq')]].
        -- left. apply str_lt_app; auto.
        -- right. split; [now rewrite Eq|]. exists (ia ++ q). now rewrite app_assoc, <- Eq'.
      * left. now apply valid_key_app.
    + pose proof (int_parts_ordered ia ib fa fb Via Vib Nab) as Ord.
      rewrite <- Da, <- Db in Ord. specialize (Ord O).
      destruct (incrementInt_spec ia Via Bia)
        as (i & Ei & [[-> Ez]|(Vn & Bn & Nn & Nsn & Ln & _)]); rewrite Ei; cbn [go_tryj].
      * exfalso. specialize (Ord "" ""). rewrite !app_nil_r in Ord.
        destruct (validateInt_inv ib Vib) as (hb & db & nb & -> & Eb & Lb).
        rewrite Ez in Ord. simpl in Ord. apply str_lt_cons in Ord.
        simpl in Bib. apply andb_true_iff in Bib as [Ihb Bdb].
        destruct Ord as [Ord|[<- Ord]].
        -- apply is62_code in Ihb. change (code "z") with 122 in Ord. lia.
        -- vm_compute in Eb. injection Eb as <-.
           assert (String.length db = 26%nat) as L26
             by (unfold len in Lb; cbn [String.length] in Lb; lia).
           apply (rep_z_max db Bdb). now rewrite L26.
      * destruct (String.eqb_spec i "") as [|_]; [contradiction|].
        destruct (str_ltb i b) eqn:Lib.
        -- apply str_ltb_lt in Lib. exists i, j. split; [reflexivity|].
           split; [exact Bn|]. split; [exact Nn|].
           split; [intros _; rewrite Da; apply Ln|]. split; [auto|].
           left. now apply valid_key_int.
        -- destruct (midpointJitter_spec fa "" j) as (m & j' & Em & Bm & Zm & Nm & Lm & _); auto.
           rewrite Em. cbn [go_bind fst snd]. exists (ia ++ m), j'. split; [reflexivity|].
           split; [now rewrite base62_app, Bia, Bm|].
           split; [destruct ia, m; simpl; congruence|].
           split; [intros _; rewrite Da; apply str_lt_app; auto|].
           split; [intros _; left; rewrite Db; apply Ord|].
           left. now apply valid_key_app.
Qed.

End JitterInRange.

(** ** The in-place [reverse] *)

Lemma in_bounds (i n : Z) : 0 <= i < n -> (0 <=? i) && (i <? n) = true.
Proof. intros H. apply andb_true_iff. split; [apply Z.leb_le|apply Z.ltb_lt]; lia. Qed.

Lemma slice_get_middle (p r : list string) (x : string) :
  slice_get (p ++ x :: r)%list (Z.of_nat (List.length p)) = Ret x.
Proof.
  unfold slice_get. rewrite List.length_app. cbn [List.length].
  rewrite in_bounds by lia.
  rewrite Nat2Z.id, nth_error_app2, Nat.sub_diag by lia. reflexivity.
Qed.

Lemma list_update_middle (p r : list string) (x v : string) :
  list_update (p ++ x :: r)%list (List.length p) v = (p ++ v :: r)%list.
Proof. induction p as [|y p IH]; simpl; [reflexivity|now rewrite IH]. Qed.

Lemma slice_set_middle (p r : list string) (x v : string) :
  slice_set (p ++ x :: r)%list (Z.of_nat (List.length p)) v = Ret (p ++ v :: r)%list.
Proof.
  unfold slice_set. rewrite List.length_app. cbn [List.length].
  rewrite in_bounds by lia.
  now rewrite Nat2Z.id, list_update_middle.
Qed.

Lemma list_ends (m : list string) :
  (2 <= List.length m)%nat -> exists x m' y, m = (x :: m' ++ [y])%list.
Proof.
  intros L. destruct m as [|x m]; [simpl in L; lia|].
  destruct (exists_last (l := m)) as (m' & y & ->);
    [destruct m; [simpl in L; lia|discriminate]|].
  now exists x, m', y.
Qed.

Lemma reverse_loop_spec (count : nat) : forall p m q : list string,
  List.length p = List.length q -> count = (List.length m / 2)%nat ->
  reverse_loop count (Z.of_nat (List.length p)) (p ++ m ++ q)%list
  = Ret (p ++ rev m ++ q)%list.
Proof.
  induction count as [|c IH]; intros p m q Lpq Lc.
  - assert (List.length m <= 1)%nat as Lm.
    { destruct (Nat.le_gt_cases (List.length m) 1) as [|G]; [assumption|].
      pose proof (Nat.div_le_lower_bound (List.length m) 2 1 ltac:(lia) ltac:(lia)). lia. }
    destruct m as [|x [|y m]]; simpl in Lm; try lia; reflexivity.
  - assert (2 <= List.length m)%nat as Lm.
    { destruct (Nat.le_gt_cases 2 (List.length m)) as [|G]; [assumption|].
      rewrite Nat.div_small in Lc by lia. discriminate. }
    destruct (list_ends m Lm) as (x & m' & y & ->).
    cbn [reverse_loop].
    replace (Z.of_nat (List.length (p ++ (x :: m' ++ [y]) ++ q)) - Z.of_nat (List.length p) - 1)
      with (Z.of_nat (List.length (p ++ x :: m'))).
    2:{ rewrite !List.length_app. cbn [List.length]. rewrite !List.length_app.
        cbn [List.length]. lia. }
    change ((x :: m' ++ [y]) ++ q)%list with (x :: (m' ++ [y]) ++ q)%list.
    rewrite slice_get_middle. cbn [go_bind].
    replace (p ++ x :: (m' ++ [y]) ++ q)%list with ((p ++ x :: m') ++ y :: q)%list
      by (rewrite <- !List.app_assoc; reflexivity).
    rewrite slice_get_middle. cbn [go_bind].
    replace ((p ++ x :: m') ++ y :: q)%list with (p ++ x :: (m' ++ y :: q))%list
      by (rewrite <- !List.app_assoc; reflexivity).
    rewrite slice_set_middle. cbn [go_bind].
    replace (p ++ y :: m' ++ y :: q)%list with ((p ++ y :: m') ++ y :: q)%list
      by (rewrite <- !List.app_assoc; reflexivity).
    replace (List.length (p ++ x :: m')) with (List.length (p ++ y :: m'))
      by (rewrite !List.length_app; reflexivity).
    rewrite slice_set_middle. cbn [go_bind].
    replace ((p ++ y :: m') ++ x :: q)%list with ((p ++ [y]) ++ m' ++ ([x] ++ q))%list
      by (rewrite <- !List.app_assoc; reflexivity).
    replace (Z.of_nat (List.length p) + 1) with (Z.of_nat (List.length (p ++ [y])))
      by (rewrite List.length_app; cbn [List.length]; lia).
    rewrite IH.
    + f_equal. cbn [rev]. rewrite rev_app_distr. cbn [rev List.app].
      rewrite <- !List.app_assoc. reflexivity.
    + rewrite List.length_app. cbn [List.length List.app]. lia.
    + cbn [List.length] in Lc. rewrite List.length_app in Lc. cbn [List.length] in Lc.
      replace (S (List.length m' + 1)) with (List.length m' + 1 * 2)%nat in Lc by lia.
      rewrite Nat.div_add in Lc by lia. lia.
Qed.

(** X7: [reverse] swaps the slice end for end without a panic: the slice it
    leaves is the reversed list, so that the key at position [i] is the one
    that was at position [len - 1 - i]. *)
Theorem reverse_in_place_rev (values : list string) :
  reverse_in_place values = Ret (reverse values) /\
  forall i, (i < List.length values)%nat ->
    nth_error (reverse values) i = nth_error values (List.length values - 1 - i).
Proof.
  split.
  - unfold reverse_in_place, reverse.
    pose proof (reverse_loop_spec (Z.to_nat (Z.of_nat (List.length values) / 2))
                  [] values [] eq_refl) as H.
    cbn [List.app List.length] in H. change (Z.of_nat 0) with 0 in H.
    rewrite !List.app_nil_r in H. apply H.
    change 2 with (Z.of_nat 2). rewrite <- Nat2Z.inj_div. apply Nat2Z.id.
  - intros i Hi. unfold reverse. rewrite nth_error_rev.
    apply Nat.ltb_lt in Hi. rewrite Hi. f_equal. lia.
Qed.

(** ** Decimal formatting *)

Lemma string_of_uint_no_bar (d : Decimal.uint) :
  no_bar (NilEmpty.string_of_uint d) = true.
Proof. induction d; simpl; auto. Qed.

Lemma fmt_d_no_bar (i : Z) : no_bar (fmt_d i) = true.
Proof.
  unfold fmt_d. destruct (Z.to_int i) as [d|d]; simpl.
  - destruct d; try apply string_of_uint_no_bar. reflexivity.
  - destruct d; try apply string_of_uint_no_bar; reflexivity.
Qed.

Lemma fmt_d_inj (x y : Z) : fmt_d x = fmt_d y -> x = y.
Proof.
  unfold fmt_d. intros E.
  assert (H : forall z, NilZero.int_of_string (NilZero.string_of_int (Z.to_int z))
                        = Some (Z.to_int z)).
  { intros z. apply NilZero.isi; destruct z as [|p|p]; simpl; try discriminate;
      intros C; injection C as C; now apply (Unsigned.to_uint_nonnil p). }
  pose proof (H x) as Hx. rewrite E, H in Hx. injection Hx as Hx.
  apply (f_equal Z.of_int) in Hx. now rewrite !DecimalZ.of_to in Hx.
Qed.

(** A string without '|' before a '|' is determined by the whole. *)
Lemma bar_split (d1 d2 k1 k2 : string) :
  no_bar d1 = true -> no_bar d2 = true ->
  d1 ++ "|" ++ k1 = d2 ++ "|" ++ k2 -> d1 = d2 /\ k1 = k2.
Proof.
  revert d2. induction d1 as [|c d1 IH]; intros [|c2 d2] N1 N2 E; simpl in *.
  - injection E as E. auto.
  - injection E as <- E. simpl in N2. discriminate.
  - injection E as -> E. simpl in N1. discriminate.
  - injection E as <- E. apply andb_true_iff in N1 as [_ N1].
    apply andb_true_iff in N2 as [_ N2].
    destruct (IH d2 N1 N2 E) as [-> ->]. auto.
Qed.

(** X19: a rank is read back from its string: [String] is injective, the
    accessors return what [NewLexorank] was given, and the strings of the
    ranks of one bucket are ordered as their keys. *)
Theorem Lexorank_String_faithful :
  (forall bucket key,
     Lexorank_Bucket (NewLexorank bucket key) = bucket /\
     Lexorank_Key (NewLexorank bucket key) = key) /\
  (forall rk1 rk2, Lexorank_String rk1 = Lexorank_String rk2 <-> rk1 = rk2) /\
  (forall bucket k1 k2,
     str_lt (Lexorank_String (NewLexorank bucket k1))
            (Lexorank_String (NewLexorank bucket k2)) <-> str_lt k1 k2).
Proof.
  split; [intros; split; reflexivity|]. split.
  - intros [b1 k1] [b2 k2]. split; [|now intros ->].
    unfold Lexorank_String. cbn [rk_bucket rk_key]. intros E.
    apply bar_split in E as [Eb Ek]; try apply fmt_d_no_bar.
    apply fmt_d_inj in Eb. apply N2Z.inj in Eb. now subst.
  - intros b k1 k2. unfold Lexorank_String. cbn [rk_bucket rk_key].
    rewrite str_lt_app. change ("|" ++ k1) with (String "|" k1).
    change ("|" ++ k2) with (String "|" k2). rewrite str_lt_cons.
    split; [intros [H|[_ H]]; [lia|exact H]|intros H; right; auto].
Qed.

(** ** Keys at a distance *)

(** Below an upper bound whose integer part is not the smallest one, the
    revision with the bypass draws nothing: it is [KeyBetween]. *)
Lemma KeyBetweenJitter_bypass_open_below {J : Type}
  (IntnRange : J -> Z -> Z -> Z * J) (b ib : string) (j : J) (jitterRange : Z) :
  getIntPart b = Ret (ib, nil_err) -> ib <> smallestInt ->
  KeyBetweenJitter_bypass IntnRange "" b j jitterRange
  = (r <- KeyBetween "" b ;; Ret (r, j)).
Proof.
  intros G N. unfold KeyBetweenJitter_bypass, keyBetweenInternal_bypass.
  destruct (jitterRange =? 0); [reflexivity|].
  unfold KeyBetween.
  change (check_key "" ?f ?c) with c.
  destruct (String.eqb_spec b "") as [->|Nb]; [discriminate G|].
  unfold check_key. destruct (String.eqb_spec b "") as [|_]; [contradiction|].
  destruct (validateOrderKey b) as [[e|]|]; try reflexivity.
  cbn [go_bind]. change (String.eqb "" "") with true. cbn [negb andb].
  rewrite G. cbn [go_tryj go_try].
  destruct (String.eqb_spec ib smallestInt) as [|_]; [contradiction|].
  destruct (str_ltb ib b); [reflexivity|].
  destruct (decrementInt ib) as [[res [e|]]|]; try reflexivity.
  cbn [go_tryj go_try]. destruct (String.eqb res ""); reflexivity.
Qed.

Section DistanceSteps.

Context {J : Type} (IntnRange : J -> Z -> Z -> Z * J) (jitterRange : Z).
Hypothesis InR : in_range IntnRange.
Hypothesis Rnn : 0 <= jitterRange.

(** One step forward: a valid key above the argument. *)
Lemma KeyBetweenJitter_bypass_open_above (a : string) (j : J) :
  base62 a = true -> valid_key a ->
  exists m j',
    KeyBetweenJitter_bypass IntnRange a "" j jitterRange = Ret ((m, nil_err), j') /\
    base62 m = true /\ valid_key m /\ str_lt a m.
Proof.
  intros Ba Va. unfold KeyBetweenJitter_bypass, keyBetweenInternal_bypass.
  assert (Na : a <> "") by (intros ->; discriminate Va).
  destruct (jitterRange =? 0).
  { destruct (KeyBetween_spec a "" Ba eq_refl (or_intror Va) (or_introl eq_refl))
      as (m & E & Bm & Nm & Lm & _ & [Vm|(C & _)]); [congruence| |congruence].
    rewrite E. cbn [go_bind]. exists m, j. auto. }
  rewrite (check_key_ok a) by (now right).
  change (check_key "" ?f ?c) with c.
  destruct (String.eqb_spec a "") as [|_]; [contradiction|].
  change (String.eqb "" "") with true. cbn [negb andb].
  destruct (valid_key_split a Va Ba) as (ia & fa & D & G & Dr & Vi & Ns & Bi & Bf & Zf).
  rewrite G. cbn [go_tryj]. rewrite Dr.
  destruct (incrementInt_spec ia Vi Bi)
    as (i & Ei & [[-> Ez]|(Vn & Bn & Nn & Nsn & Ln & _)]); rewrite Ei; cbn [go_tryj].
  - change (String.eqb "" "") with true. cbv iota.
    destruct (midpointJitter_spec IntnRange jitterRange InR Rnn fa "" j)
      as (m & j' & Em & Bm & Zm & Nm & Lm & _); auto.
    rewrite Em. cbn [go_bind fst snd]. exists (ia ++ m), j'. split; [reflexivity|].
    split; [now rewrite base62_app, Bi, Bm|].
    split; [now apply valid_key_app|].
    rewrite D. apply str_lt_app; auto.
  - destruct (String.eqb_spec i "") as [|_]; [contradiction|].
    destruct (midpointJitter_spec IntnRange jitterRange InR Rnn "" "" j)
      as (m & j' & Em & Bm & Zm & Nm & _ & _); auto.
    rewrite Em. cbn [go_bind fst snd]. exists (i ++ m), j'. split; [reflexivity|].
    split; [now rewrite base62_app, Bn, Bm|].
    split; [now apply valid_key_app|].
    apply (str_lt_trans _ i); [rewrite D; apply Ln|now apply str_lt_app_r].
Qed.

Lemma move_forward_spec (count : nat) : forall i key j,
  base62 key = true -> valid_key key ->
  exists m j',
    move_forward IntnRange count i key j jitterRange = Ret ((m, nil_err), j') /\
    base62 m = true /\ valid_key m /\
    (count = 0%nat -> m = key) /\ (count <> 0%nat -> str_lt key m).
Proof.
  induction count as [|c IH]; intros i key j B V.
  - exists key, j. repeat split; auto. congruence.
  - cbn [move_forward].
    destruct (KeyBetweenJitter_bypass_open_above key j B V) as (k1 & j1 & E & B1 & V1 & L1).
    rewrite E. cbn [go_bind].
    destruct (IH (i + 1) k1 j1 B1 V1) as (m & j' & Em & Bm & Vm & H0 & Hn).
    exists m, j'. split; [exact Em|]. split; [exact Bm|]. split; [exact Vm|].
    split; [discriminate|]. intros _.
    destruct c as [|c]; [rewrite (H0 eq_refl); exact L1|].
    apply (str_lt_trans _ k1); [exact L1|]. apply Hn. discriminate.
Qed.

End DistanceSteps.

(** Steps backward draw nothing and stay valid as long as the head of the
    key is far enough above 'A': the key reached is the same for every
    source and every range. *)
Lemma move_backward_spec (count : nat) : forall key,
  base62 key = true -> valid_key key -> Z.of_nat count + 10 < head_digit key ->
  exists m,
    (forall (J : Type) (IntnRange : J -> Z -> Z -> Z * J) i j jitterRange,
       move_backward IntnRange count i key j jitterRange = Ret ((m, nil_err), j)) /\
    base62 m = true /\ valid_key m /\
    head_digit key - Z.of_nat count <= head_digit m /\
    (count = 0%nat -> m = key) /\ (count <> 0%nat -> str_lt m key).
Proof.
  induction count as [|c IH]; intros key B V H.
  - exists key. repeat split; auto; try lia; congruence.
  - destruct (valid_key_split key V B) as (ib & fb & D & G & Dr & Vi & Ns & Bi & Bf & Zf).
    assert (Nib : ib <> smallestInt).
    { intros ->. rewrite D in H. simpl in H. change (digit "A") with 10 in H. lia. }
    assert (Nk : key <> "") by (intros ->; discriminate V).
    destruct (KeyBetween_spec "" key eq_refl B (or_introl eq_refl) (or_intror V))
      as (k1 & E & B1 & N1 & _ & L1 & V1); [congruence|].
    pose proof (KeyBetween_open_below_head key k1 B V E) as Hh.
    destruct V1 as [V1|(_ & _ & ->)].
    2:{ rewrite head_digit_smallestInt in Hh. lia. }
    destruct (IH k1 B1 V1) as (m & Em & Bm & Vm & Hm & H0 & Hn); [lia|].
    exists m. split.
    { intros J IntnRange i j jitterRange. cbn [move_backward].
      rewrite (KeyBetweenJitter_bypass_open_below IntnRange key ib j jitterRange G Nib).
      rewrite E. cbn [go_bind]. apply Em. }
    split; [exact Bm|]. split; [exact Vm|].
    split; [lia|]. split; [discriminate|]. intros _.
    specialize (L1 Nk).
    destruct c as [|c]; [rewrite (H0 eq_refl); exact L1|].
    apply (str_lt_trans _ k1); [|exact L1]. apply Hn. discriminate.
Qed.

(** [RandJitter] keeps the contract of a jitter source when its generator
    keeps the one of [rand.Intn]. *)
Lemma RandJitter_in_range {G : Type} (Intn : G -> Z -> Z * G) :
  (forall g n, 0 < n -> 0 <= fst (Intn g n) < n) ->
  in_range (RandJitter_IntnRange Intn).
Proof.
  intros HI j lo hi H. unfold RandJitter_IntnRange.
  destruct (hi <? lo) eqn:C1; [apply Z.ltb_lt in C1; lia|].
  destruct (hi =? lo) eqn:C2; [apply Z.eqb_eq in C2; simpl; lia|].
  apply Z.eqb_neq in C2.
  pose proof (HI j (hi - lo + 1) ltac:(lia)) as R.
  destruct (Intn j (hi - lo + 1)) as [r j']. simpl in *. lia.
Qed.

Lemma zero_Intn_range (g : unit) (n : Z) : 0 < n -> 0 <= fst (zero_Intn g n) < n.
Proof. simpl. lia. Qed.

(** X15: with a positive distance, a source that keeps its contract, a
    range from 0 to 2^62 and a valid base-62 key, [KeyAfterJitter] returns a valid key strictly above
    the key, and [KeyBeforeJitter] with the opposite distance returns the
    same. *)
Theorem KeyAfterJitter_forward {J : Type} (IntnRange : J -> Z -> Z -> Z * J)
  (key : string) (distance : Z) (j : J) (jitterRange : Z)
  (InR : in_range IntnRange) (Rr : 0 <= jitterRange < 2 ^ 62)
  (B : base62 key = true) (V : valid_key key)
  (Hd : 0 < distance < 2 ^ 63) :
  exists m j',
    KeyAfterJitter IntnRange key distance j jitterRange = Ret ((m, nil_err), j') /\
    KeyBeforeJitter IntnRange key (- distance) j jitterRange
      = Ret ((m, nil_err), j') /\
    base62 m = true /\ valid_key m /\ str_lt key m.
Proof.
  assert (Nk : key <> "") by (intros ->; discriminate V).
  destruct (move_forward_spec IntnRange jitterRange InR (proj1 Rr) (Z.to_nat distance) 0 key j B V)
    as (m & j' & E & Bm & Vm & _ & L).
  assert (EA : KeyAfterJitter IntnRange key distance j jitterRange = Ret ((m, nil_err), j')).
  { unfold KeyAfterJitter.
    destruct (distance =? 0) eqn:C; [apply Z.eqb_eq in C; lia|].
    destruct (String.eqb_spec key "") as [|_]; [contradiction|].
    rewrite V. cbn [go_bind].
    destruct (0 <? distance) eqn:C2; [exact E|apply Z.ltb_ge in C2; lia]. }
  exists m, j'. split; [exact EA|]. split.
  - unfold KeyBeforeJitter. replace (neg_int (- distance)) with distance; [exact EA|].
    unfold neg_int. destruct (- distance =? - 2 ^ 63) eqn:C; [apply Z.eqb_eq in C|]; lia.
  - split; [exact Bm|]. split; [exact Vm|]. apply L. lia.
Qed.

Lemma KeyAfterJitter_forward_witness :
  exists m j',
    KeyAfterJitter (RandJitter_IntnRange zero_Intn) "a0" 3 tt 2 = Ret ((m, nil_err), j') /\
    KeyBeforeJitter (RandJitter_IntnRange zero_Intn) "a0" (- 3) tt 2
      = Ret ((m, nil_err), j') /\
    base62 m = true /\ valid_key m /\ str_lt "a0" m.
Proof.
  apply (KeyAfterJitter_forward (RandJitter_IntnRange zero_Intn) "a0" 3 tt 2).
  - apply RandJitter_in_range. exact zero_Intn_range.
  - lia.
  - reflexivity.
  - reflexivity.
  - lia.
Defined.

(** X16: with a negative distance [-n] and a valid base-62 key whose head is
    more than [n] letters above 'A', [KeyAfterJitter] returns a valid key
    strictly below the key, without a draw: the same key for every source
    and every range; [KeyBeforeJitter] with the distance [n] returns the
    same. *)
Theorem KeyAfterJitter_backward (key : string) (distance : Z)
  (B : base62 key = true) (V : valid_key key)
  (Hd : distance < 0) (Hh : 10 - distance < head_digit key) :
  exists m,
    base62 m = true /\ valid_key m /\ str_lt m key /\
    forall (J : Type) (IntnRange : J -> Z -> Z -> Z * J) (j : J) (jitterRange : Z),
      KeyAfterJitter IntnRange key distance j jitterRange = Ret ((m, nil_err), j) /\
      KeyBeforeJitter IntnRange key (- distance) j jitterRange
        = Ret ((m, nil_err), j).
Proof.
  assert (Nk : key <> "") by (intros ->; discriminate V).
  assert (Hr : head_digit key <= 61).
  { destruct key as [|h r]; [contradiction|]. simpl in B.
    apply andb_true_iff in B as [Bh _]. simpl. destruct (is62_digit h Bh). lia. }
  assert (En : neg_int distance = - distance).
  { unfold neg_int. destruct (distance =? - 2 ^ 63) eqn:C; [apply Z.eqb_eq in C|]; lia. }
  destruct (move_backward_spec (Z.to_nat (- distance)) key B V) as (m & E & Bm & Vm & _ & _ & L);
    [lia|].
  exists m. split; [exact Bm|]. split; [exact Vm|]. split; [apply L; lia|].
  intros J IntnRange j jitterRange.
  assert (EA : KeyAfterJitter IntnRange key distance j jitterRange = Ret ((m, nil_err), j)).
  { unfold KeyAfterJitter.
    destruct (distance =? 0) eqn:C; [apply Z.eqb_eq in C; lia|].
    destruct (String.eqb_spec key "") as [|_]; [contradiction|].
    rewrite V. cbn [go_bind].
    destruct (0 <? distance) eqn:C2; [apply Z.ltb_lt in C2; lia|].
    rewrite En. apply E. }
  split; [exact EA|].
  unfold KeyBeforeJitter. unfold KeyAfterJitter.
  assert (En2 : neg_int (- distance) = - - distance).
  { unfold neg_int. destruct (- distance =? - 2 ^ 63) eqn:C; [apply Z.eqb_eq in C|]; lia. }
  rewrite En2.
  destruct (- - distance =? 0) eqn:C; [apply Z.eqb_eq in C; lia|].
  destruct (String.eqb_spec key "") as [|_]; [contradiction|].
  rewrite V. cbn [go_bind].
  destruct (0 <? - - distance) eqn:C2; [apply Z.ltb_lt in C2; lia|].
  replace (neg_int (- - distance)) with (- distance); [apply E|].
  unfold neg_int. destruct (- - distance =? - 2 ^ 63) eqn:C3; [apply Z.eqb_eq in C3|]; lia.
Qed.

Lemma KeyAfterJitter_backward_witness :
  exists m,
    base62 m = true /\ valid_key m /\ str_lt m "a0" /\
    forall (J : Type) (IntnRange : J -> Z -> Z -> Z * J) (j : J) (jitterRange : Z),
      KeyAfterJitter IntnRange "a0" (- 3) j jitterRange = Ret ((m, nil_err), j) /\
      KeyBeforeJitter IntnRange "a0" (- (- 3)) j jitterRange
        = Ret ((m, nil_err), j).
Proof.
  apply (KeyAfterJitter_backward "a0" (- 3)).
  - reflexivity.
  - reflexivity.
  - lia.
  - vm_compute. reflexivity.
Defined.

(** ** Round trip of the integer part *)

(** X2: on the valid integer parts over the base-62 alphabet, [incrementInt]
    and [decrementInt] undo each other: decrementing the successor of [x],
    or incrementing its predecessor, gives [x] back, wherever the successor
    (the predecessor) exists. *)
Theorem incrementInt_decrementInt_inverse (x : string)
  (V : valid_int x) (B : base62 x = true) :
  (forall i, incrementInt x = Ret (i, nil_err) -> i <> "" ->
     decrementInt i = Ret (x, nil_err)) /\
  (forall r, decrementInt x = Ret (r, nil_err) -> r <> "" ->
     incrementInt r = Ret (x, nil_err)).
Proof.
  split; intros y E N.
  - now apply incrementInt_decrementInt.
  - now apply decrementInt_incrementInt.
Qed.

Lemma incrementInt_decrementInt_inverse_witness :
  (forall i, incrementInt "Zz" = Ret (i, nil_err) -> i <> "" ->
     decrementInt i = Ret ("Zz", nil_err)) /\
  (forall r, decrementInt "Zz" = Ret (r, nil_err) -> r <> "" ->
     incrementInt r = Ret ("Zz", nil_err)).
Proof. apply (incrementInt_decrementInt_inverse "Zz"); reflexivity. Defined.

(** ** The source [RandJitter] *)

(** X9: backed by a generator whose [Intn(n)] answers in [[0, n)] for
    [n > 0], and for bounds whose difference fits in an [int],
    [RandJitter.IntnRange(min, max)] answers in [[min, max]] when
    [min <= max], and answers [min] without a draw when [max <= min]. *)
Theorem RandJitter_IntnRange_bounds {G : Type} (Intn : G -> Z -> Z * G)
  (j : G) (min max : Z)
  (HI : forall g n, 0 < n -> 0 <= fst (Intn g n) < n)
  (Hfit : max - min + 1 < 2 ^ 63) :
  (min <= max -> min <= fst (RandJitter_IntnRange Intn j min max) <= max) /\
  (max <= min -> RandJitter_IntnRange Intn j min max = (min, j)).
Proof.
  split.
  - apply (RandJitter_in_range Intn HI).
  - intros H. unfold RandJitter_IntnRange.
    destruct (max <? min) eqn:C1; [reflexivity|]. apply Z.ltb_ge in C1.
    replace (max =? min) with true by (symmetry; apply Z.eqb_eq; lia). reflexivity.
Qed.

Lemma RandJitter_IntnRange_bounds_witness :
  (1 <= 5 -> 1 <= fst (RandJitter_IntnRange zero_Intn tt 1 5) <= 5) /\
  (5 <= 1 -> RandJitter_IntnRange zero_Intn tt 1 5 = (1, tt)).
Proof.
  apply (RandJitter_IntnRange_bounds zero_Intn tt 1 5); [exact zero_Intn_range|lia].
Defined.

(** ** The jittered variant for a source that keeps its contract *)

(** X11: for a source that keeps its contract, a range from 0 to 2^62 and
    valid base-62 bounds in order, [KeyBetweenJitter] of jitter.go
    returns a key above the lower bound and not above the upper bound; the
    key is strictly below the upper bound unless that bound ends in '1',
    and it is valid (except the reserved [smallestInt], returned below
    the key "A" followed by 25 '0' and a '1'). *)
Theorem KeyBetweenJitter_contained {J : Type} (IntnRange : J -> Z -> Z -> Z * J)
  (a b : string) (j : J) (jitterRange : Z)
  (InR : in_range IntnRange) (Rr : 0 <= jitterRange < 2 ^ 62)
  (Ba : base62 a = true) (Bb : base62 b = true)
  (Va : a = "" \/ valid_key a) (Vb : b = "" \/ valid_key b)
  (O : a <> "" -> b <> "" -> str_lt a b) :
  exists m j',
    KeyBetweenJitter IntnRange a b j jitterRange = Ret ((m, nil_err), j') /\
    (a <> "" -> str_lt a m) /\
    (b <> "" -> str_lt m b \/ m = b) /\
    (b <> "" -> (forall p, b <> p ++ "1") -> str_lt m b) /\
    (valid_key m \/
     (a = "" /\ b = String "A" (rep "0" 25 ++ "1") /\ m = smallestInt)).
Proof.
  destruct (KeyBetweenJitter_spec IntnRange jitterRange InR (proj1 Rr) a b j Ba Bb Va Vb O)
    as (m & j' & E & _ & _ & La & Lb & Vm).
  exists m, j'. split; [exact E|]. split; [exact La|].
  split; [intros Nb; destruct (Lb Nb) as [H|[H _]]; auto|].
  split; [|exact Vm].
  intros Nb Np. destruct (Lb Nb) as [H|[_ (p & H)]]; [exact H|].
  now apply Np in H.
Qed.

Lemma KeyBetweenJitter_contained_witness :
  exists m j',
    KeyBetweenJitter (RandJitter_IntnRange zero_Intn) "a0" "a1" tt 2
    = Ret ((m, nil_err), j') /\
    ("a0" <> "" -> str_lt "a0" m) /\
    ("a1" <> "" -> str_lt m "a1" \/ m = "a1") /\
    ("a1" <> "" -> (forall p, "a1" <> p ++ "1") -> str_lt m "a1") /\
    (valid_key m \/
     ("a0" = "" /\ "a1" = String "A" (rep "0" 25 ++ "1") /\ m = smallestInt)).
Proof.
  apply (KeyBetweenJitter_contained (RandJitter_IntnRange zero_Intn) "a0" "a1" tt 2).
  - apply RandJitter_in_range. exact zero_Intn_range.
  - lia.
  - reflexivity.
  - reflexivity.
  - right. reflexivity.
  - right. reflexivity.
  - intros _ _. reflexivity.
Defined.

(** ** The errors of the jittered variant *)

(** X10: [KeyBetweenJitter] of jitter.go reports an error exactly when
    [KeyBetween] does, with the same message and the empty key, and leaves
    the jitter source untouched then: no draw is made before the last
    check. *)
Theorem KeyBetweenJitter_errors_as_KeyBetween {J : Type}
  (IntnRange : J -> Z -> Z -> Z * J) (a b : string) (j : J) (jitterRange : Z) :
  forall m e j',
    KeyBetweenJitter IntnRange a b j jitterRange = Ret ((m, Some e), j') <->
    (m = "" /\ j' = j /\ KeyBetween a b = Ret ("", Some e)).
Proof.
  intros m e j'. unfold KeyBetweenJitter, keyBetweenInternal, KeyBetween, check_key.
  repeat match goal with
  | |- context [String.eqb ?x ?y] => destruct (String.eqb x y)
  | |- context [str_geb ?x ?y] => destruct (str_geb x y)
  | |- context [str_ltb ?x ?y] => destruct (str_ltb x y)
  | |- context [validateOrderKey ?x] => destruct (validateOrderKey x) as [[?|]|]
  | |- context [getIntPart ?x] => destruct (getIntPart x) as [[? [?|]]|]
  | |- context [incrementInt ?x] => destruct (incrementInt x) as [[? [?|]]|]
  | |- context [decrementInt ?x] => destruct (decrementInt x) as [[? [?|]]|]
  | |- context [midpointJitter ?f ?x ?y ?z ?r] =>
      destruct (midpointJitter f x y z r) as [[? ?]|]
  | |- context [midpoint ?x ?y] => destruct (midpoint x y) as [?|]
  | _ => progress cbn [go_bind go_try go_tryj negb andb fst snd]
  end;
  (split; [intros H; try discriminate H; injection H as <- <- <-; auto
          |intros (-> & -> & H); try discriminate H; injection H as <-; reflexivity]).
Qed.

(** ** The source [NoJitter] *)







(** X14: with the source [NoJitter], between two valid keys with the same
    integer part whose fractions start with adjacent digits, the upper one
    going on with a digit of rank 2 or more, [KeyBetweenJitter] of jitter.go
    returns the first digit of the upper fraction followed by '0': a key
    that [validateOrderKey] rejects. *)
Theorem KeyBetweenJitter_NoJitter_trailing_zero (ip fa fb : string)
  (a0 b0 b1 : ascii) (jitterRange : Z)
  (Vi : valid_int ip)
  (Ia : is62 a0 = true) (Ib : is62 b0 = true) (I1 : is62 b1 = true)
  (Adj : digit b0 = digit a0 + 1) (Hb1 : 2 <= digit b1)
  (Va : valid_key (ip ++ String a0 fa))
  (Vb : valid_key (ip ++ String b0 (String b1 fb))) :
  KeyBetweenJitter NoJitter_IntnRange
    (ip ++ String a0 fa) (ip ++ String b0 (String b1 fb)) tt jitterRange
  = Ret ((ip ++ String b0 "0", nil_err), tt) /\
  validateOrderKey (ip ++ String b0 "0")
  = Ret (Some ("invalid order key: " ++ ip ++ String b0 "0")).
Proof.
  destruct (is62_digit a0 Ia) as (Ra & _ & Sa).
  destruct (is62_digit b0 Ib) as (Rb & _ & Sb).
  destruct (is62_digit b1 I1) as (R1 & _ & S1).
  assert (Nab : Ascii.eqb a0 b0 = false).
  { destruct (Ascii.eqb_spec a0 b0) as [->|]; [lia|reflexivity]. }
  assert (Lab : str_lt (ip ++ String a0 fa) (ip ++ String b0 (String b1 fb))).
  { apply str_lt_app. apply str_lt_cons. left. apply digit_mono; auto. lia. }
  split.
  - unfold KeyBetweenJitter, keyBetweenInternal.
    rewrite !check_key_ok by (now right).
    assert (Hge : str_geb (ip ++ String a0 fa) (ip ++ String b0 (String b1 fb)) = false).
    { unfold str_geb. apply negb_false_iff. now apply str_ltb_lt. }
    rewrite Hge, !andb_false_r.
    destruct (String.eqb_spec (ip ++ String a0 fa) "") as [E|_];
      [destruct ip; discriminate E|].
    destruct (String.eqb_spec (ip ++ String b0 (String b1 fb)) "") as [E|_];
      [destruct ip; discriminate E|].
    rewrite !getIntPart_app by exact Vi. cbn [go_tryj].
    rewrite String.eqb_refl, !drop_app_length.
    unfold midpointJitter. cbn [String.length Nat.add].
    cbn [midpointJitter_fuel String.eqb prefix_len]. rewrite Nab.
    cbn [Nat.ltb Nat.leb].
    fold (digit a0). fold (digit b0). fold (digit b1).
    replace (1 <? digit b0 - digit a0) with false by (symmetry; apply Z.ltb_ge; lia).
    replace (digit b1 - 1 <? 0) with false by (symmetry; apply Z.ltb_ge; lia).
    replace (1 <=? digit b1 - 1) with true by (symmetry; apply Z.leb_le; lia).
    unfold NoJitter_IntnRange.
    change (digit_at 0) with (Ret "0"%char : go ascii). cbn [go_bind fst snd].
    rewrite Sb. reflexivity.
  - unfold validateOrderKey.
    destruct (String.eqb_spec (ip ++ String b0 "0") smallestInt) as [E|_]; [now rewrite E|].
    rewrite getIntPart_app by exact Vi. cbn [go_bind]. rewrite drop_app_length.
    reflexivity.
Qed.

Lemma KeyBetweenJitter_NoJitter_trailing_zero_witness :
  KeyBetweenJitter NoJitter_IntnRange
    ("a0" ++ String "1" "") ("a0" ++ String "2" (String "5" "")) tt 2
  = Ret (("a0" ++ String "2" "0", nil_err), tt) /\
  validateOrderKey ("a0" ++ String "2" "0")
  = Ret (Some ("invalid order key: " ++ "a0" ++ String "2" "0")).
Proof.
  apply (KeyBetweenJitter_NoJitter_trailing_zero "a0" "" "" "1" "2" "5" 2);
    try reflexivity.
  vm_compute. discriminate.
Defined.

(** ** Jittered keys above the last key *)

Section JitterChain.

Context {J : Type} (IntnRange : J -> Z -> Z -> Z * J) (jitterRange : Z).
Hypothesis InR : in_range IntnRange.
Hypothesis Rnn : 0 <= jitterRange.


End JitterChain.



(** ** The revision with the bypass, for a source that keeps its contract *)

Section BypassInRange.

Context {J : Type} (IntnRange : J -> Z -> Z -> Z * J) (jitterRange : Z).
Hypothesis InR : in_range IntnRange.
Hypothesis Rnn : 0 <= jitterRange.

Lemma KeyBetweenJitter_bypass_spec (a b : string) (j : J) :
  base62 a = true -> base62 b = true ->
  (a = "" \/ valid_key a) -> (b = "" \/ valid_key b) ->
  (a <> "" -> b <> "" -> str_lt a b) ->
  exists m j',
    KeyBetweenJitter_bypass IntnRange a b j jitterRange = Ret ((m, nil_err), j') /\
    base62 m = true /\ m <> "" /\
    (a <> "" -> str_lt a m) /\
    (b <> "" -> str_lt m b \/ (jitterRange <> 0 /\ m = b /\ exists p, b = p ++ "1")) /\
    (valid_key m \/
     (a = "" /\ b = String "A" (rep "0" 25 ++ "1") /\ m = smallestInt)).
Proof.
  intros Ba Bb Va Vb O. unfold KeyBetweenJitter_bypass, keyBetweenInternal_bypass.
  destruct (jitterRange =? 0) eqn:R0.
  { destruct (KeyBetween_spec a b Ba Bb Va Vb O) as (m & E & Bm & Nm & La & Lb & Vm).
    rewrite E. cbn [go_bind]. exists m, j. repeat split; auto. }
  apply Z.eqb_neq in R0.
  rewrite (check_key_ok a) by exact Va. rewrite (check_key_ok b) by exact Vb.
  destruct (String.eqb_spec a "") as [->|Na];
    destruct (String.eqb_spec b "") as [->|Nb]; cbn [negb andb].
  - exists "a0", j. repeat split; try discriminate; try congruence. now left.
  - (* only an upper bound *)
    destruct Vb as [|Vb]; [congruence|].
    destruct (valid_key_split b Vb Bb) as (ib & fb & D & G & Dr & Vi & Ns & Bi & Bf & Zf).
    rewrite G. cbn [go_tryj]. rewrite Dr.
    destruct (String.eqb_spec ib smallestInt) as [Es|Nsi].
    + assert (Nf : fb <> "") by (intros ->; rewrite app_nil_r in D; congruence).
      destruct (midpointJitter_spec IntnRange jitterRange InR Rnn "" fb j)
        as (m & j' & Em & Bm & Zm & Nm & _ & Lm); auto.
      { right. destruct fb; [congruence|reflexivity]. }
      rewrite Em. cbn [go_bind fst snd]. exists (ib ++ m), j'. split; [reflexivity|].
      split; [now rewrite base62_app, Bi, Bm|].
      split; [destruct ib, m; simpl; congruence|]. split; [congruence|].
      split.
      * intros _. rewrite D. destruct (Lm Nf) as [Lt|[Eq (q & Eq')]].
        -- left. apply str_lt_app; auto.
        -- right. split; [exact R0|]. split; [now rewrite Eq|].
           exists (ib ++ q). now rewrite app_assoc, <- Eq'.
      * left. now apply valid_key_app.
    + destruct (str_ltb ib b) eqn:Lb.
      * apply str_ltb_lt in Lb. exists ib, j. split; [reflexivity|].
        split; [exact Bi|]. split; [destruct ib; [discriminate Vi|discriminate]|].
        split; [congruence|]. split; [auto|]. left. now apply valid_key_int.
      * assert (fb = "") as ->.
        { destruct fb as [|c fb]; [reflexivity|]. exfalso.
          assert (str_lt ib b) as H by (rewrite D; now apply str_lt_app_r).
          apply str_ltb_lt in H. congruence. }
        rewrite app_nil_r in D. subst ib.
        destruct (decrementInt_spec b Vi Bi) as (r & Er & [[_ Es]|(Vr & Br & Nr & Lr & _ & Hs)]);
          [congruence|].
        rewrite Er. cbn [go_tryj].
        destruct (String.eqb_spec r "") as [|_]; [contradiction|].
        exists r, j. split; [reflexivity|]. split; [exact Br|]. split; [exact Nr|].
        split; [congruence|]. split; [auto|].
        destruct (String.eqb_spec r smallestInt) as [Es|Nrs].
        -- right. auto.
        -- left. now apply valid_key_int.
  - (* only a lower bound *)
    destruct Va as [|Va]; [congruence|].
    destruct (KeyBetweenJitter_bypass_open_above IntnRange jitterRange InR Rnn a j Ba Va)
      as (m & j' & E & Bm & Vm & Lm).
    unfold KeyBetweenJitter_bypass, keyBetweenInternal_bypass in E.
    destruct (jitterRange =? 0) eqn:R0'; [apply Z.eqb_eq in R0'; contradiction|].
    rewrite (check_key_ok a) in E by (now right).
    change (check_key "" ?f ?c) with c in E.
    destruct (String.eqb_spec a "") as [|_]; [contradiction|].
    change (String.eqb "" "") with true in E. cbn [negb andb] in E.
    rewrite E. exists m, j'. split; [reflexivity|]. split; [exact Bm|].
    split; [intros ->; discriminate Vm|]. split; [auto|]. split; [congruence|now left].
  - (* both bounds *)
    specialize (O Na Nb).
    assert (Hge : str_geb a b = false).
    { unfold str_geb. apply negb_false_iff. apply str_ltb_lt. exact O. }
    rewrite Hge. cbv iota.
    destruct Va as [|Va]; [congruence|]. destruct Vb as [|Vb]; [congruence|].
    destruct (valid_key_split a Va Ba) as (ia & fa & Da & Ga & Dra & Via & Nsa & Bia & Bfa & Zfa).
    destruct (valid_key_split b Vb Bb) as (ib & fb & Db & Gb & Drb & Vib & Nsb & Bib & Bfb & Zfb).
    rewrite Ga. cbn [go_tryj]. rewrite Gb. cbn [go_tryj]. rewrite Dra, Drb.
    destruct (String.eqb_spec ia ib) as [Eab|Nab].
    + subst ib. assert (Lf : str_lt fa fb) by (rewrite Da, Db in O; now apply str_lt_app in O).
      assert (Nf : fb <> "") by (intros ->; now apply str_lt_nil_r in Lf).
      destruct (midpointJitter_spec IntnRange jitterRange InR Rnn fa fb j)
        as (m & j' & Em & Bm & Zm & Nm & Lm & Um); auto.
      rewrite Em. cbn [go_bind fst snd]. exists (ia ++ m), j'. split; [reflexivity|].
      split; [now rewrite base62_app, Bia, Bm|].
      split; [destruct ia, m; simpl; congruence|].
      split; [intros _; rewrite Da; apply str_lt_app; auto|].
      split.
      * intros _. rewrite Db. destruct (Um Nf) as [Lt|[Eq (q & Eq')]].
        -- left. apply str_lt_app; auto.
        -- right. split; [exact R0|]. split; [now rewrite Eq|].
           exists (ia ++ q). now rewrite app_assoc, <- Eq'.
      * left. now apply valid_key_app.
    + pose proof (int_parts_ordered ia ib fa fb Via Vib Nab) as Ord.
      rewrite <- Da, <- Db in Ord. specialize (Ord O).
      destruct (incrementInt_spec ia Via Bia)
        as (i & Ei & [[-> Ez]|(Vn & Bn & Nn & Nsn & Ln & _)]); rewrite Ei.
      * exfalso. specialize (Ord "" ""). rewrite !app_nil_r in Ord.
        destruct (validateInt_inv ib Vib) as (hb & db & nb & -> & Eb & Lb).
        rewrite Ez in Ord. simpl in Ord. apply str_lt_cons in Ord.
        simpl in Bib. apply andb_true_iff in Bib as [Ihb Bdb].
        destruct Ord as [Ord|[<- Ord]].
        -- apply is62_code in Ihb. change (code "z") with 122 in Ord. lia.
        -- vm_compute in Eb. injection Eb as <-.
           assert (String.length db = 26%nat) as L26
             by (unfold len in Lb; cbn [String.length] in Lb; lia).
           apply (rep_z_max db Bdb). now rewrite L26.
      * destruct (str_ltb i b) eqn:Lib.
        -- apply str_ltb_lt in Lib. exists i, j. split; [reflexivity|].
           split; [exact Bn|]. split; [exact Nn|].
           split; [intros _; rewrite Da; apply Ln|]. split; [auto|].
           left. now apply valid_key_int.
        -- destruct (midpointJitter_spec IntnRange jitterRange InR Rnn fa "" j)
             as (m & j' & Em & Bm & Zm & Nm & Lm & _); auto.
           rewrite Em. cbn [go_bind fst snd]. exists (ia ++ m), j'. split; [reflexivity|].
           split; [now rewrite base62_app, Bia, Bm|].
           split; [destruct ia, m; simpl; congruence|].
           split; [intros _; rewrite Da; apply str_lt_app; auto|].
           split; [intros _; left; rewrite Db; apply Ord|].
           left. now apply valid_key_app.
Qed.

End BypassInRange.

(** X23: in the revision of jitter.go that sends a range of 0 to
    [KeyBetween], for a source that keeps its contract, a range from 0 to
    2^62 and valid base-62 bounds in order, [KeyBetweenJitter] returns a key
    above the lower bound and not above the upper bound; the key is strictly
    below the upper bound when the range is 0 or that bound does not end in
    '1', and it is valid (except the reserved [smallestInt], returned below
    the key "A" followed by 25 '0' and a '1'). *)
Theorem KeyBetweenJitter_bypass_contained {J : Type}
  (IntnRange : J -> Z -> Z -> Z * J)
  (a b : string) (j : J) (jitterRange : Z)
  (InR : in_range IntnRange) (Rr : 0 <= jitterRange < 2 ^ 62)
  (Ba : base62 a = true) (Bb : base62 b = true)
  (Va : a = "" \/ valid_key a) (Vb : b = "" \/ valid_key b)
  (O : a <> "" -> b <> "" -> str_lt a b) :
  exists m j',
    KeyBetweenJitter_bypass IntnRange a b j jitterRange = Ret ((m, nil_err), j') /\
    (a <> "" -> str_lt a m) /\
    (b <> "" -> str_lt m b \/ m = b) /\
    (b <> "" -> jitterRange = 0 \/ (forall p, b <> p ++ "1") -> str_lt m b) /\
    (jitterRange = 0 -> KeyBetween a b = Ret (m, nil_err) /\ j' = j) /\
    (valid_key m \/
     (a = "" /\ b = String "A" (rep "0" 25 ++ "1") /\ m = smallestInt)).
Proof.
  destruct (KeyBetweenJitter_bypass_spec IntnRange jitterRange InR (proj1 Rr) a b j
              Ba Bb Va Vb O) as (m & j' & E & _ & _ & La & Lb & Vm).
  exists m, j'. split; [exact E|]. split; [exact La|].
  split; [intros Nb; destruct (Lb Nb) as [H|(_ & H & _)]; auto|].
  split; [|split; [|exact Vm]].
  - intros Nb [R0|Np]; destruct (Lb Nb) as [H|(R & _ & (p & H))]; auto.
    + contradiction.
    + now apply Np in H.
  - intros ->. unfold KeyBetweenJitter_bypass, keyBetweenInternal_bypass in E.
    change (0 =? 0) with true in E. cbv iota in E.
    destruct (KeyBetween a b) as [[m' e]|]; [|discriminate E].
    cbn [go_bind] in E. injection E as -> -> ->. auto.
Qed.

Lemma KeyBetweenJitter_bypass_contained_witness :
  exists m j',
    KeyBetweenJitter_bypass (RandJitter_IntnRange zero_Intn) "a0" "a1" tt 2
    = Ret ((m, nil_err), j') /\
    ("a0" <> "" -> str_lt "a0" m) /\
    ("a1" <> "" -> str_lt m "a1" \/ m = "a1") /\
    ("a1" <> "" -> 2 = 0 \/ (forall p, "a1" <> p ++ "1") -> str_lt m "a1") /\
    (2 = 0 -> KeyBetween "a0" "a1" = Ret (m, nil_err) /\ j' = tt) /\
    (valid_key m \/
     ("a0" = "" /\ "a1" = String "A" (rep "0" 25 ++ "1") /\ m = smallestInt)).
Proof.
  apply (KeyBetweenJitter_bypass_contained (RandJitter_IntnRange zero_Intn) "a0" "a1" tt 2).
  - apply RandJitter_in_range. exact zero_Intn_range.
  - lia.
  - reflexivity.
  - reflexivity.
  - right. reflexivity.
  - right. reflexivity.
  - intros _ _. reflexivity.
Defined.

(** ** Jitter on an existing key *)

Section AddJitter.

Context {J : Type} (IntnRange : J -> Z -> Z -> Z * J).
Hypothesis InR : in_range IntnRange.

(** The digit loop appends as many base-62 digits as it has iterations,
    the last of them not '0'. *)
Lemma add_digits_spec (count : nat) : forall i numDigits result j,
  i + Z.of_nat count = numDigits ->
  exists s j',
    add_digits IntnRange count i numDigits result j = Ret (result ++ s, j') /\
    String.length s = count /\ base62 s = true /\
    (count <> 0%nat -> ends_in_0 s = false).
Proof.
  induction count as [|c IH]; intros i numDigits result j H.
  - exists "", j. rewrite app_nil_r. repeat split; auto; congruence.
  - cbn [add_digits]. change (len base62Digits - 1) with 61.
    assert (Hd : exists digitIdx j1,
              (if i =? numDigits - 1 then IntnRange j 1 61 else IntnRange j 0 61)
              = (digitIdx, j1) /\ 0 <= digitIdx <= 61 /\
              (c = 0%nat -> 1 <= digitIdx)).
    { destruct (i =? numDigits - 1) eqn:C.
      - pose proof (InR j 1 61 ltac:(lia)) as R.
        destruct (IntnRange j 1 61) as [d j1]. exists d, j1. simpl in R.
        split; [reflexivity|lia].
      - apply Z.eqb_neq in C. pose proof (InR j 0 61 ltac:(lia)) as R.
        destruct (IntnRange j 0 61) as [d j1]. exists d, j1. simpl in R.
        split; [reflexivity|]. split; [lia|]. intros ->. lia. }
    destruct Hd as (digitIdx & j1 & -> & Rd & Hlast).
    rewrite digit_at_spec by lia. cbn [go_bind]. rewrite string_of_digit by lia.
    destruct (code_of_digit_range digitIdx) as [Ic Dc]; [lia|].
    set (ch := byte_of (code_of_digit digitIdx)) in *.
    destruct (IH (i + 1) numDigits (result ++ String ch "") j1) as (s & j' & E & L & B & Z0);
      [lia|].
    exists (String ch s), j'. rewrite E, app_assoc. split; [reflexivity|].
    split; [simpl; now rewrite L|]. split; [simpl; now rewrite Ic, B|].
    intros _. destruct c as [|c].
    + apply length_zero in L. subst s. apply ends_in_0_single; [exact Ic|].
      rewrite Dc. specialize (Hlast eq_refl). lia.
    + rewrite ends_in_0_cons; [apply Z0; discriminate|].
      intros ->. discriminate L.
Qed.

End AddJitter.

(** X17: for a source that keeps its contract, [AddJitterToKey] never panics
    and never reports a generated key as invalid: it rejects the empty key
    and the keys that [validateOrderKey] rejects, returns the key as it is
    when the range is not positive or the source is [NoJitter], and
    otherwise extends the key by between 1 and [jitterRange] base-62 digits,
    the last of them not '0', to a valid key strictly above it. *)
Theorem AddJitterToKey_extends {J : Type} (IntnRange : J -> Z -> Z -> Z * J)
  (InR : in_range IntnRange) (isNoJitter : bool) (key : string) (j : J)
  (jitterRange : Z) :
  (key = "" ->
   AddJitterToKey IntnRange isNoJitter key j jitterRange
   = Ret (("", Some "cannot add jitter to empty key"), j)) /\
  (forall e, key <> "" -> validateOrderKey key = Ret (Some e) ->
   AddJitterToKey IntnRange isNoJitter key j jitterRange
   = Ret (("", Some ("invalid key for jitter: " ++ e)), j)) /\
  (valid_key key -> jitterRange <= 0 \/ isNoJitter = true ->
   AddJitterToKey IntnRange isNoJitter key j jitterRange
   = Ret ((key, nil_err), j)) /\
  (valid_key key -> 0 < jitterRange -> isNoJitter = false ->
   exists s j',
     AddJitterToKey IntnRange isNoJitter key j jitterRange
     = Ret ((key ++ s, nil_err), j') /\
     1 <= len s <= jitterRange /\ base62 s = true /\ ends_in_0 s = false /\
     valid_key (key ++ s) /\ str_lt key (key ++ s)).
Proof.
  unfold AddJitterToKey. split; [intros ->; reflexivity|]. split; [|split].
  - intros e N E. destruct (String.eqb_spec key "") as [|_]; [contradiction|].
    now rewrite E.
  - intros V H. assert (N : key <> "") by (intros ->; discriminate V).
    destruct (String.eqb_spec key "") as [|_]; [contradiction|].
    rewrite V. cbn [go_bind].
    destruct (jitterRange <=? 0) eqn:C; [reflexivity|].
    destruct H as [H| ->]; [apply Z.leb_gt in C; lia|reflexivity].
  - intros V Hr ->. assert (N : key <> "") by (intros ->; discriminate V).
    destruct (String.eqb_spec key "") as [|_]; [contradiction|].
    rewrite V. cbn [go_bind].
    destruct (jitterRange <=? 0) eqn:C; [apply Z.leb_le in C; lia|].
    pose proof (InR j 1 jitterRange ltac:(lia)) as Rn.
    destruct (IntnRange j 1 jitterRange) as [numDigits j1]. cbn [fst] in Rn.
    destruct (numDigits <=? 0) eqn:C2; [apply Z.leb_le in C2; lia|].
    destruct (add_digits_spec IntnRange InR (Z.to_nat numDigits) 0 numDigits key j1)
      as (s & j' & E & L & B & Z0); [lia|].
    rewrite E. cbn [go_bind].
    assert (Ns : s <> "") by (intros ->; simpl in L; lia).
    assert (Vs : valid_key (key ++ s)).
    { destruct (validateOrderKey_inv key V) as (_ & _ & ip & G & Vi & D & Zf).
      rewrite D, app_assoc. apply valid_key_app; [exact Vi| |].
      - destruct (drop (String.length ip) key), s; simpl; congruence.
      - rewrite ends_in_0_app. destruct s; [congruence|]. apply Z0. lia. }
    rewrite Vs. exists s, j'. split; [reflexivity|].
    split; [unfold len; lia|]. split; [exact B|]. split; [apply Z0; lia|].
    split; [exact Vs|]. now apply str_lt_app_r.
Qed.

Lemma AddJitterToKey_extends_witness :
  ("a0" = "" ->
   AddJitterToKey (RandJitter_IntnRange zero_Intn) false "a0" tt 2
   = Ret (("", Some "cannot add jitter to empty key"), tt)) /\
  (forall e, "a0" <> "" -> validateOrderKey "a0" = Ret (Some e) ->
   AddJitterToKey (RandJitter_IntnRange zero_Intn) false "a0" tt 2
   = Ret (("", Some ("invalid key for jitter: " ++ e)), tt)) /\
  (valid_key "a0" -> 2 <= 0 \/ false = true ->
   AddJitterToKey (RandJitter_IntnRange zero_Intn) false "a0" tt 2
   = Ret (("a0", nil_err), tt)) /\
  (valid_key "a0" -> 0 < 2 -> false = false ->
   exists s j',
     AddJitterToKey (RandJitter_IntnRange zero_Intn) false "a0" tt 2
     = Ret (("a0" ++ s, nil_err), j') /\
     1 <= len s <= 2 /\ base62 s = true /\ ends_in_0 s = false /\
     valid_key ("a0" ++ s) /\ str_lt "a0" ("a0" ++ s)).
Proof.
  apply (AddJitterToKey_extends (RandJitter_IntnRange zero_Intn)).
  apply RandJitter_in_range. exact zero_Intn_range.
Defined.

(** ** Alternatives of a fractional part *)

Lemma take_app_plus (p s : string) (k : nat) :
  take (String.length p + k) (p ++ s) = p ++ take k s.
Proof. induction p as [|c p IH]; simpl; [reflexivity|now rewrite IH]. Qed.

Lemma drop_app_plus (p s : string) (k : nat) :
  drop (String.length p + k) (p ++ s) = drop k s.
Proof. induction p as [|c p IH]; simpl; [reflexivity|exact IH]. Qed.

Lemma get_app_plus (p s : string) (k : nat) :
  String.get (String.length p + k) (p ++ s) = String.get k s.
Proof. induction p as [|c p IH]; simpl; [reflexivity|exact IH]. Qed.

Lemma get_some (s : string) (k : nat) :
  (k < String.length s)%nat -> exists c, String.get k s = Some c.
Proof.
  revert k. induction s as [|c s IH]; intros k H; simpl in H; [lia|].
  destruct k as [|k]; [now exists c|]. simpl. apply IH. lia.
Qed.

Lemma byte_at_spec (s : string) (i : Z) :
  0 <= i < len s ->
  exists c, byte_at s i = Ret c /\ String.get (Z.to_nat i) s = Some c.
Proof.
  intros H. unfold byte_at. rewrite in_bounds by exact H.
  destruct (get_some s (Z.to_nat i)) as [c E]; [unfold len in H; lia|].
  rewrite E. now exists c.
Qed.

Lemma drop_all (s : string) (n : nat) : (String.length s <= n)%nat -> drop n s = "".
Proof. intros H. apply length_zero. rewrite length_drop. lia. Qed.

(** Replacing the byte at position [k]. *)
Lemma length_replace (s : string) (k : nat) (c : ascii) :
  (k < String.length s)%nat ->
  String.length (take k s ++ String c (drop (S k) s)) = String.length s.
Proof.
  intros H. rewrite length_app, length_take by lia. cbn [String.length].
  rewrite length_drop. lia.
Qed.

Lemma get_replace (s : string) (k : nat) (c : ascii) :
  (k < String.length s)%nat ->
  String.get k (take k s ++ String c (drop (S k) s)) = Some c.
Proof.
  intros H. rewrite <- (length_take k s) at 1 by lia.
  rewrite <- (Nat.add_0_r (String.length (take k s))), get_app_plus. reflexivity.
Qed.

Section Alternatives.

Variable isNoJitter : bool.

(** One pass over the digits appends alternatives, each built from a
    base-62 digit other than the byte at the position, none ending in
    '0'; at most one digit is left out when no alternative ends in '0'. *)
Lemma digit_alternatives_spec (count : nat) : forall d fp i alt_of alts fpi,
  byte_at fp i = Ret fpi -> 0 <= d -> d + Z.of_nat count = 62 ->
  exists L,
    digit_alternatives count d fp i alt_of alts = Ret (alts ++ L)%list /\
    Forall (fun alt => exists c, is62 c = true /\ c <> fpi /\
                         alt = alt_of (String c "") /\ ends_in_0 alt = false) L /\
    ((forall c, is62 c = true -> d <= digit c -> ends_in_0 (alt_of (String c "")) = false) ->
     (List.length L = count \/
      (S (List.length L) = count /\ is62 fpi = true /\ d <= digit fpi))).
Proof.
  induction count as [|n IH]; intros d fp i alt_of alts fpi Ef Hd Hc.
  - exists []. rewrite List.app_nil_r. repeat split; auto.
  - cbn [digit_alternatives]. rewrite digit_at_spec by lia. cbn [go_bind].
    rewrite Ef. cbn [go_bind]. rewrite string_of_digit by lia.
    destruct (code_of_digit_range d) as [Ic Dc]; [lia|].
    set (c := byte_of (code_of_digit d)) in *.
    match goal with
    | |- context [digit_alternatives n (d + 1) fp i alt_of ?a] =>
      destruct (IH (d + 1) fp i alt_of a fpi Ef ltac:(lia) ltac:(lia))
        as (L & E & F & Cn)
    end.
    rewrite E.
    destruct (String.eqb_spec (String c "") (string_of_byte fpi)) as [Eq|Ne]; cbn [negb].
    + (* the digit is the byte of the fraction: no alternative *)
      exists L. split; [reflexivity|]. split; [exact F|].
      intros Hz. right.
      assert (Efc : fpi = c).
      { unfold string_of_byte in Eq. destruct (code fpi <? 128); [|discriminate].
        now injection Eq. }
      subst fpi. split; [|split; [exact Ic|lia]].
      destruct Cn as [Cn|(_ & _ & Cn)]; [intros; apply Hz; auto; lia|lia|lia].
    + rewrite HasSuffix_0.
      assert (Nf : c <> fpi).
      { intros <-. apply Ne. destruct (is62_digit c Ic) as (_ & _ & ->). reflexivity. }
      destruct (ends_in_0 (alt_of (String c ""))) eqn:Z0; cbn [negb].
      * exists L. split; [reflexivity|]. split; [exact F|].
        intros Hz. rewrite Hz in Z0; [discriminate|exact Ic|lia].
      * exists (alt_of (String c "") :: L)%list.
        split; [now rewrite <- List.app_assoc|].
        split; [constructor; [exists c; auto|exact F]|].
        intros Hz. cbn [List.length].
        destruct Cn as [Cn|(Cn & If & Df)]; [intros; apply Hz; auto; lia|left; lia|].
        right. split; [lia|]. split; [exact If|lia].
Qed.

Lemma position_alternatives_spec (count : nat) : forall i fp alts,
  0 <= i -> i + Z.of_nat count = len fp ->
  exists L,
    position_alternatives count i fp alts = Ret (alts ++ L)%list /\
    Forall (alternative_of fp i) L /\ (count <> 0%nat -> L <> []).
Proof.
  induction count as [|n IH]; intros i fp alts Hi Hc.
  - exists []. rewrite List.app_nil_r. repeat split; auto; congruence.
  - cbn [position_alternatives].
    destruct (byte_at_spec fp i) as (fpi & Ef & Eg); [lia|].
    assert (Hk : (Z.to_nat i < String.length fp)%nat) by (unfold len in Hc; lia).
    change (Z.to_nat (len base62Digits - 1)) with 61%nat.
    change (Z.to_nat (len base62Digits - 0)) with 62%nat.
    assert (Hstep : exists L1,
      (if i =? len fp - 1
       then digit_alternatives 61 1 fp i (fun ds => take (Z.to_nat i) fp ++ ds) alts
       else digit_alternatives 62 0 fp i
              (fun ds => take (Z.to_nat i) fp ++ ds ++ drop (Z.to_nat (i + 1)) fp) alts)
      = Ret (alts ++ L1)%list /\
      Forall (alternative_of fp i) L1 /\ (n = 0%nat -> L1 <> [])).
    { destruct (i =? len fp - 1) eqn:C.
      - apply Z.eqb_eq in C.
        destruct (digit_alternatives_spec 61 1 fp i
                    (fun ds => take (Z.to_nat i) fp ++ ds) alts fpi Ef) as (L1 & E1 & F1 & C1);
          try lia.
        exists L1. split; [exact E1|]. split.
        + eapply Forall_impl; [|exact F1]. intros alt (c & Ic & Nc & -> & Z0).
          exists (Z.to_nat i), c. split; [lia|]. split; [exact Hk|].
          split; [exact Ic|]. split; [rewrite Eg; congruence|].
          rewrite (drop_all fp (S (Z.to_nat i))) by (unfold len in C; lia).
          split; [reflexivity|exact Z0].
        + intros _. destruct C1 as [C1|(C1 & _)].
          * intros c Ic Dc. rewrite ends_in_0_app. apply ends_in_0_single; auto. lia.
          * destruct L1; [discriminate C1|discriminate].
          * destruct L1; [discriminate C1|discriminate].
      - apply Z.eqb_neq in C.
        destruct (digit_alternatives_spec 62 0 fp i
                    (fun ds => take (Z.to_nat i) fp ++ ds ++ drop (Z.to_nat (i + 1)) fp)
                    alts fpi Ef) as (L1 & E1 & F1 & _); try lia.
        exists L1. split; [exact E1|]. split; [|intros ->; lia].
        eapply Forall_impl; [|exact F1]. intros alt (c & Ic & Nc & -> & Z0).
        exists (Z.to_nat i), c. split; [lia|]. split; [exact Hk|].
        split; [exact Ic|]. split; [rewrite Eg; congruence|].
        replace (Z.to_nat (i + 1)) with (S (Z.to_nat i)) in * by lia.
        split; [reflexivity|exact Z0]. }
    destruct Hstep as (L1 & -> & F1 & N1). cbn [go_bind].
    destruct (IH (i + 1) fp (alts ++ L1)%list ltac:(lia) ltac:(lia)) as (L2 & E2 & F2 & N2).
    exists (L1 ++ L2)%list. rewrite E2, List.app_assoc. split; [reflexivity|].
    split.
    + apply Forall_app. split; [exact F1|].
      eapply Forall_impl; [|exact F2]. intros alt (k & c & H1 & H2).
      exists k, c. split; [lia|exact H2].
    + intros _. destruct n as [|n].
      * specialize (N1 eq_refl). destruct L1; [congruence|discriminate].
      * specialize (N2 ltac:(discriminate)). destruct L1, L2; try congruence; discriminate.
Qed.

Lemma findAlternativeFractionalParts_spec (fp : string) (jitterRange : Z) :
  fp <> "" -> isNoJitter = false -> 0 < jitterRange ->
  exists L,
    findAlternativeFractionalParts isNoJitter fp jitterRange = Ret L /\
    L <> [] /\ Forall (alternative_of fp (len fp - jitterRange)) L.
Proof.
  intros N -> Hr. unfold findAlternativeFractionalParts.
  assert (0 < len fp) as Hl by (destruct fp; [congruence|unfold len; simpl; lia]).
  destruct (len fp =? 0) eqn:C; [apply Z.eqb_eq in C; lia|].
  destruct (position_alternatives_spec
              (Z.to_nat (len fp - Z.max 0 (len fp - jitterRange)))
              (Z.max 0 (len fp - jitterRange)) fp []) as (L & E & F & Ne); try lia.
  exists L. split; [exact E|]. split; [apply Ne; lia|].
  eapply Forall_impl; [|exact F]. intros alt (k & c & H1 & H2).
  exists k, c. split; [lia|exact H2].
Qed.

End Alternatives.

Lemma slice_get_In (l : list string) (i : Z) :
  0 <= i < Z.of_nat (List.length l) -> exists v, slice_get l i = Ret v /\ In v l.
Proof.
  intros H. unfold slice_get. rewrite in_bounds by exact H.
  destruct (nth_error l (Z.to_nat i)) as [v|] eqn:E.
  - exists v. split; [reflexivity|]. eapply nth_error_In. exact E.
  - apply nth_error_None in E. lia.
Qed.

(** X18: for a source that keeps its contract, [JitterKey] never panics: it
    rejects the empty key and the keys that [validateOrderKey] rejects,
    returns the key as it is when the range is not positive, the source is
    [NoJitter] or the key has no fractional digit, and otherwise returns the
    key with one of its last [jitterRange] fractional bytes replaced by a
    different base-62 digit: a valid key of the same length and with the
    same integer part. *)
Theorem JitterKey_replaces_one_digit {J : Type} (IntnRange : J -> Z -> Z -> Z * J)
  (InR : in_range IntnRange) (isNoJitter : bool) (key : string) (j : J)
  (jitterRange : Z) :
  (key = "" ->
   JitterKey IntnRange isNoJitter key j jitterRange
   = Ret (("", Some "cannot jitter empty key"), j)) /\
  (forall e, key <> "" -> validateOrderKey key = Ret (Some e) ->
   JitterKey IntnRange isNoJitter key j jitterRange
   = Ret (("", Some ("invalid key for jitter: " ++ e)), j)) /\
  (valid_key key ->
   jitterRange <= 0 \/ isNoJitter = true \/ getIntPart key = Ret (key, nil_err) ->
   JitterKey IntnRange isNoJitter key j jitterRange = Ret ((key, nil_err), j)) /\
  (forall ip, valid_key key -> 0 < jitterRange -> isNoJitter = false ->
   getIntPart key = Ret (ip, nil_err) -> ip <> key ->
   exists (k : nat) (c : ascii) (j' : J),
     let key' := take k key ++ String c (drop (S k) key) in
     JitterKey IntnRange isNoJitter key j jitterRange = Ret ((key', nil_err), j') /\
     (String.length ip <= k < String.length key)%nat /\
     len key - jitterRange <= Z.of_nat k /\
     is62 c = true /\ String.get k key <> Some c /\
     valid_key key' /\ String.length key' = String.length key /\
     getIntPart key' = Ret (ip, nil_err)).
Proof.
  unfold JitterKey. split; [intros ->; reflexivity|]. split; [|split].
  - intros e N E. destruct (String.eqb_spec key "") as [|_]; [contradiction|].
    now rewrite E.
  - intros V H. assert (N : key <> "") by (intros ->; discriminate V).
    destruct (String.eqb_spec key "") as [|_]; [contradiction|].
    rewrite V. cbn [go_bind].
    destruct (jitterRange <=? 0) eqn:C; [reflexivity|]. apply Z.leb_gt in C.
    destruct (validateOrderKey_inv key V) as (_ & _ & ip & G & Vi & D & Zf).
    rewrite G. cbn [go_bind]. unfold findNearbyIntegers. cbn [List.length].
    change (0 <? Z.of_nat 0) with false. cbv iota.
    destruct (0 <? len (drop (String.length ip) key)) eqn:Cf; [|reflexivity].
    destruct H as [H|[->|H]]; [lia| |].
    + unfold findAlternativeFractionalParts.
      destruct (len (drop (String.length ip) key) =? 0); reflexivity.
    + rewrite G in H. injection H as ->.
      unfold len in Cf. rewrite length_drop, Nat.sub_diag in Cf. discriminate.
  - intros ip V Hr -> G Nip. assert (N : key <> "") by (intros ->; discriminate V).
    destruct (String.eqb_spec key "") as [|_]; [contradiction|].
    rewrite V. cbn [go_bind].
    destruct (jitterRange <=? 0) eqn:C; [apply Z.leb_le in C; lia|].
    destruct (validateOrderKey_inv key V) as (_ & _ & ip' & G' & Vi & D & Zf).
    rewrite G in G'. injection G' as <-.
    rewrite G. cbn [go_bind].
    set (fp := drop (String.length ip) key) in *.
    assert (Nf : fp <> "").
    { intros E. apply Nip. rewrite D, E. now rewrite app_nil_r. }
    assert (Lf : 0 < len fp) by (destruct fp; [congruence|unfold len; simpl; lia]).
    destruct (0 <? len fp) eqn:Cf; [|apply Z.ltb_ge in Cf; lia].
    destruct (findAlternativeFractionalParts_spec false fp jitterRange Nf eq_refl Hr)
      as (L & E & NL & F).
    rewrite E. cbn [go_bind].
    assert (0 < Z.of_nat (List.length L)) as LL
      by (destruct L; [congruence|cbn [List.length]; lia]).
    destruct (0 <? Z.of_nat (List.length L)) eqn:CL; [|apply Z.ltb_ge in CL; lia].
    pose proof (InR j 0 (Z.of_nat (List.length L) - 1) ltac:(lia)) as Rp.
    destruct (IntnRange j 0 (Z.of_nat (List.length L) - 1)) as [pick j1]. cbn [fst] in Rp.
    destruct (slice_get_In L pick ltac:(lia)) as (alt & Ea & Ia).
    rewrite Ea. cbn [go_bind].
    rewrite Forall_forall in F.
    destruct (F alt Ia) as (k & c & Hk1 & Hk2 & Ic & Hg & -> & Z0).
    exists (String.length ip + k)%nat, c, j1. cbv zeta.
    assert (Lk : String.length key = (String.length ip + String.length fp)%nat)
      by (rewrite D at 1; apply length_app).
    assert (Ek : take (String.length ip + k) key
                 ++ String c (drop (S (String.length ip + k)) key)
                 = ip ++ take k fp ++ String c (drop (S k) fp)).
    { rewrite D at 1 2. rewrite take_app_plus.
      replace (S (String.length ip + k)) with (String.length ip + S k)%nat by lia.
      rewrite drop_app_plus, app_assoc. reflexivity. }
    rewrite Ek. split; [reflexivity|].
    split; [lia|]. split; [unfold len in *; lia|]. split; [exact Ic|].
    split; [rewrite D, get_app_plus; exact Hg|].
    split.
    { apply valid_key_app; [exact Vi| |exact Z0].
      destruct (take k fp); discriminate. }
    split; [rewrite length_app, length_replace by exact Hk2; lia|].
    now apply getIntPart_app.
Qed.

Lemma JitterKey_replaces_one_digit_witness :
  ("a0V" = "" ->
   JitterKey (RandJitter_IntnRange zero_Intn) false "a0V" tt 1
   = Ret (("", Some "cannot jitter empty key"), tt)) /\
  (forall e, "a0V" <> "" -> validateOrderKey "a0V" = Ret (Some e) ->
   JitterKey (RandJitter_IntnRange zero_Intn) false "a0V" tt 1
   = Ret (("", Some ("invalid key for jitter: " ++ e)), tt)) /\
  (valid_key "a0V" ->
   1 <= 0 \/ false = true \/ getIntPart "a0V" = Ret ("a0V", nil_err) ->
   JitterKey (RandJitter_IntnRange zero_Intn) false "a0V" tt 1
   = Ret (("a0V", nil_err), tt)) /\
  (forall ip, valid_key "a0V" -> 0 < 1 -> false = false ->
   getIntPart "a0V" = Ret (ip, nil_err) -> ip <> "a0V" ->
   exists (k : nat) (c : ascii) (j' : unit),
     let key' := take k "a0V" ++ String c (drop (S k) "a0V") in
     JitterKey (RandJitter_IntnRange zero_Intn) false "a0V" tt 1
     = Ret ((key', nil_err), j') /\
     (String.length ip <= k < String.length "a0V")%nat /\
     len "a0V" - 1 <= Z.of_nat k /\
     is62 c = true /\ String.get k "a0V" <> Some c /\
     valid_key key' /\ String.length key' = String.length "a0V" /\
     getIntPart key' = Ret (ip, nil_err)).
Proof.
  apply (JitterKey_replaces_one_digit (RandJitter_IntnRange zero_Intn)).
  apply RandJitter_in_range. exact zero_Intn_range.
Defined.

(** ** [Float64Approx]: the keys it accepts *)

Lemma Index_from_absent (s r : string) (c : ascii) : forall i,
  occurs c s = false -> Index_from i s (String c r) = -1.
Proof.
  induction s as [|x s IH]; intros i H; [reflexivity|].
  simpl in H. apply orb_false_iff in H as [Hx Hs].
  rewrite Index_from_cons. cbn [prefix].
  destruct (ascii_dec c x) as [->|_]; [now rewrite Ascii.eqb_refl in Hx|].
  now apply IH.
Qed.

Lemma occurs_base62Digits (c : ascii) : occurs c base62Digits = is62 c.
Proof.
  destruct c as [[] [] [] [] [] [] [] []]; vm_compute; reflexivity.
Qed.

(** A string is found among the digits only if its first byte is one. *)
Lemma Index_found (c : ascii) (r : string) :
  Index base62Digits (String c r) <> -1 -> is62 c = true.
Proof.
  intros H. destruct (is62 c) eqn:E; [reflexivity|]. exfalso. apply H.
  apply Index_from_absent. now rewrite occurs_base62Digits.
Qed.

Lemma is62_ascii (c : ascii) : is62 c = true -> code c < 128.
Proof. intros H. apply is62_code in H. lia. Qed.

Lemma string_of_ranged_head (d : string) (c : ascii) (r : string) :
  d = String c r -> Index base62Digits (string_of_ranged d) <> -1 -> is62 c = true.
Proof.
  intros -> H. unfold string_of_ranged in H. destruct r as [|c1 r].
  - destruct (code c <? 128) eqn:C; [now apply Index_found in H|].
    apply Index_found in H. discriminate H.
  - now apply Index_found in H.
Qed.

(** The elements of [Split] are all found among the digits exactly when the
    string is over the alphabet. *)
Lemma explode_found (f : string -> string) (fuel : nat) : forall s,
  (forall c r, Index base62Digits (f (String c r)) <> -1 -> is62 c = true) ->
  (forall c, is62 c = true -> f (String c "") = String c "") ->
  (String.length s <= fuel)%nat ->
  (Forall (fun d => Index base62Digits (f d) <> -1) (explode fuel s) <->
   base62 s = true).
Proof.
  intros s Hf Hs. revert s.
  induction fuel as [|fuel IH]; intros s L.
  - destruct s; [|simpl in L; lia]. split; [reflexivity|constructor].
  - destruct s as [|c r]; [split; [reflexivity|constructor]|].
    cbn [explode]. split.
    + intros F. apply Forall_cons_iff in F as [Hd Hl].
      pose proof (rune_size_pos c r) as P.
      destruct (rune_size (String c r)) as [|k] eqn:Ek; [lia|].
      cbn [take] in Hd. apply Hf in Hd.
      rewrite rune_size_ascii in Ek by (now apply is62_ascii).
      injection Ek as <-. cbn [drop] in Hl. simpl. rewrite Hd.
      apply IH; [simpl in L; lia|exact Hl].
    + intros B. simpl in B. apply andb_true_iff in B as [Bc Br].
      rewrite rune_size_ascii by (now apply is62_ascii). cbn [take drop].
      constructor.
      * rewrite Hs by exact Bc. rewrite Index_single_digit.
        destruct (is62_digit c Bc). lia.
      * apply IH; [simpl in L; lia|exact Br].
Qed.

Lemma int_digits_value_some (l : list string) : forall i rv,
  (exists v, int_digits_value l i rv = Some v) <->
  Forall (fun d => Index base62Digits d <> -1) l.
Proof.
  induction l as [|d l IH]; intros i rv; cbn [int_digits_value].
  - split; [constructor|eauto].
  - destruct (Index base62Digits d =? -1) eqn:C.
    + apply Z.eqb_eq in C. split; [intros [v H]; discriminate|].
      intros F. inversion F. contradiction.
    + apply Z.eqb_neq in C. rewrite IH. split; [now constructor|].
      intros F. now inversion F.
Qed.

Lemma frac_digits_value_some (l : list string) : forall i rv,
  (exists v, frac_digits_value l i rv = Some v) <->
  Forall (fun d => Index base62Digits (string_of_ranged d) <> -1) l.
Proof.
  induction l as [|d l IH]; intros i rv; cbn [frac_digits_value].
  - split; [constructor|eauto].
  - destruct (Index base62Digits (string_of_ranged d) =? -1) eqn:C.
    + apply Z.eqb_eq in C. split; [intros [v H]; discriminate|].
      intros F. inversion F. contradiction.
    + apply Z.eqb_neq in C. rewrite IH. split; [now constructor|].
      intros F. now inversion F.
Qed.

Lemma Forall_rev_iff {A : Type} (P : A -> Prop) (l : list A) :
  Forall P (rev l) <-> Forall P l.
Proof.
  rewrite !Forall_forall. split; intros H x Hx; apply H;
    [now apply -> in_rev|now apply in_rev].
Qed.

Lemma Split_found (s : string) :
  Forall (fun d => Index base62Digits d <> -1) (Split s) <-> base62 s = true.
Proof.
  apply (explode_found (fun d => d)); [apply Index_found|reflexivity|lia].
Qed.

Lemma Split_ranged_found (s : string) :
  Forall (fun d => Index base62Digits (string_of_ranged d) <> -1) (Split s)
  <-> base62 s = true.
Proof.
  apply (explode_found string_of_ranged); [| |lia].
  - intros c r. now apply (string_of_ranged_head (String c r) c r).
  - intros c Hc. unfold string_of_ranged.
    apply is62_ascii in Hc. now replace (code c <? 128) with true by (symmetry; apply Z.ltb_lt; lia).
Qed.

Lemma Split_ascii_head (h : ascii) (ds : string) :
  code h < 128 -> Split (String h ds) = String h "" :: Split ds.
Proof.
  intros H. unfold Split. cbn [String.length explode].
  rewrite rune_size_ascii by exact H. reflexivity.
Qed.

(** X8: [Float64Approx] never panics; it returns a value and no error
    exactly for the keys over the base-62 alphabet that [validateOrderKey]
    accepts, and the value 0 with an error for every other string. *)
Theorem Float64Approx_accepts (key : string) :
  (exists v e, Float64Approx key = Ret (v, e)) /\
  ((exists v, Float64Approx key = Ret (v, nil_err)) <->
   (valid_key key /\ base62 key = true)) /\
  (forall v e, Float64Approx key = Ret (v, Some e) -> v = 0%float).
Proof.
  unfold Float64Approx.
  destruct (String.eqb_spec key "") as [->|N].
  { split; [eauto|]. split; [|intros v e H; now injection H as <- _].
    split; [intros [v H]; discriminate|intros [V _]; discriminate V]. }
  destruct (validateOrderKey_total key N) as [[e|] V]; rewrite V; cbn [go_bind].
  { split; [eauto|]. split; [|intros v e' H; now injection H as <- _].
    split; [intros [v H]; discriminate|intros [V' _]; unfold valid_key in V'; congruence]. }
  destruct (validateOrderKey_inv key V) as (_ & _ & ip & G & Vi & D & Zf).
  rewrite G. cbn [go_bind].
  destruct (validateInt_inv ip Vi) as (h & ds & n & -> & Gl & Ll).
  destruct (getIntLen_spec h) as [(n0 & E0 & R)|(e & E0 & _)]; [|congruence].
  assert (Ih : is62 h = true) by (apply is62_code; lia).
  rewrite (Split_ascii_head h ds) by (now apply is62_ascii).
  cbn [String.length].
  set (fp := drop (S (String.length ds)) key) in *.
  assert (Bk : base62 key = base62 ds && base62 fp).
  { rewrite D at 1. rewrite base62_app. simpl. now rewrite Ih. }
  pose proof (int_digits_value_some (rev (Split ds)) 0 0%float) as Hi.
  rewrite Forall_rev_iff, Split_found in Hi.
  destruct (int_digits_value (rev (Split ds)) 0 0) as [rv|].
  2:{ split; [eauto|]. split; [|intros v e' H; now injection H as <- _].
      split; [intros [v H]; discriminate|].
      intros [_ B]. rewrite Bk in B. apply andb_true_iff in B as [B _].
      apply Hi in B. destruct B; discriminate. }
  assert (Bd : base62 ds = true) by (apply Hi; eauto).
  pose proof (frac_digits_value_some (Split fp) 0 rv) as Hf.
  rewrite Split_ranged_found in Hf.
  destruct (frac_digits_value (Split fp) 0 rv) as [rv'|].
  2:{ split; [eauto|]. split; [|intros v e' H; now injection H as <- _].
      split; [intros [v H]; discriminate|].
      intros [_ B]. rewrite Bk in B. apply andb_true_iff in B as [_ B].
      apply Hf in B. destruct B; discriminate. }
  assert (Bf : base62 fp = true) by (apply Hf; eauto).
  split; [eauto|]. split; [|intros v e' H; discriminate].
  split; [intros _; split; [exact V|now rewrite Bk, Bd, Bf]|eauto].
Qed.

(** ** [Float64Approx] and the head of the key *)

Lemma valid_int_rep_length (h c : ascii) (n : nat) :
  valid_int (String h (rep c n)) ->
  n = Z.to_nat (if is_lower h then code h - 96 else 91 - code h).
Proof.
  intros V. destruct (validateInt_inv _ V) as (h' & ds & m & E & G & L).
  injection E as <- <-.
  destruct (getIntLen_spec h) as [(k & Ek & R)|(e & Ek & _)]; [|congruence].
  rewrite G in Ek. injection Ek as <-.
  unfold len in L. cbn [String.length] in L. rewrite length_rep in L.
  unfold is_lower, between.
  destruct R as [[R ->]|[R ->]].
  - replace ((97 <=? code h) && (code h <=? 122)) with true
      by (symmetry; apply andb_true_iff; split; apply Z.leb_le; lia). lia.
  - replace ((97 <=? code h) && (code h <=? 122)) with false
      by (symmetry; apply andb_false_iff; left; apply Z.leb_gt; lia). lia.
Qed.

(** X22: [Float64Approx] reads the head of a key for its sign only.  Every
    valid key made of a head letter and '0' digits has the value 0 when the
    head is lowercase and -0 when it is uppercase: the increasing keys
    "a0", "b00", "c000", ..., however far apart, are not told apart. *)
Theorem Float64Approx_ignores_head (h : ascii) (n : nat)
  (V : valid_int (String h (rep "0" n))) :
  (is_lower h = true ->
   Float64Approx (String h (rep "0" n)) = Ret (0%float, nil_err)) /\
  (is_upper h = true -> h <> "A"%char ->
   Float64Approx (String h (rep "0" n)) = Ret ((-0)%float, nil_err)).
Proof.
  rewrite (valid_int_rep_length h "0" n V). clear V n.
  split.
  - intros L. rewrite L.
    destruct h as [[] [] [] [] [] [] [] []]; try discriminate L;
      vm_compute; reflexivity.
  - intros U N.
    assert (L : is_lower h = false).
    { unfold is_lower, is_upper, between in *. apply andb_true_iff in U as [U1 U2].
      apply Z.leb_le in U1, U2. apply andb_false_iff. left. apply Z.leb_gt. lia. }
    rewrite L.
    destruct h as [[] [] [] [] [] [] [] []]; try discriminate U;
      try (exfalso; apply N; reflexivity); vm_compute; reflexivity.
Qed.

Lemma Float64Approx_ignores_head_witness :
  (is_lower "c" = true ->
   Float64Approx (String "c" (rep "0" 3)) = Ret (0%float, nil_err)) /\
  (is_upper "c" = true -> "c"%char <> "A"%char ->
   Float64Approx (String "c" (rep "0" 3)) = Ret ((-0)%float, nil_err)).
Proof. apply (Float64Approx_ignores_head "c" 3). reflexivity. Defined.

(** ** The length of the keys *)

Lemma digit_at_inv (d : Z) (c : ascii) :
  digit_at d = Ret c -> string_of_byte c = String c "".
Proof.
  intros H. assert (R : 0 <= d < 62).
  { unfold digit_at in H.
    destruct ((0 <=? d) && (d <? len base62Digits)) eqn:C; [|discriminate].
    apply andb_true_iff in C as [C1 C2]. apply Z.leb_le in C1. apply Z.ltb_lt in C2.
    change (len base62Digits) with 62 in C2. lia. }
  rewrite digit_at_spec in H by lia. injection H as <-. apply string_of_digit. lia.
Qed.

(** The midpoint is at most one byte longer than the longer bound. *)
Lemma midpoint_length_aux (n : nat) : forall a b m,
  (String.length a + String.length b < n)%nat ->
  midpoint a b = Ret m ->
  (String.length m <= Nat.max (String.length a) (String.length b) + 1)%nat.
Proof.
  induction n as [|n IH]; intros a b m L E; [lia|].
  pose proof (midpoint_eq a b) as Eq. rewrite E in Eq. unfold midpoint_body in Eq.
  pose proof (prefix_len_le a b) as Pl.
  destruct (0 <? (if String.eqb b "" then 0 else prefix_len a b))%nat eqn:Ep.
  - apply Nat.ltb_lt in Ep.
    destruct (String.eqb b ""); [lia|].
    set (p := prefix_len a b) in *.
    destruct (String.length a <? p)%nat eqn:Ea.
    + apply Nat.ltb_lt in Ea.
      destruct (midpoint "" (drop p b)) as [m'|] eqn:Em; [|discriminate].
      cbn [go_bind] in Eq. injection Eq as ->.
      apply IH in Em; [|rewrite length_drop; simpl; lia].
      rewrite length_drop in Em. simpl in Em.
      rewrite length_app, length_take by lia. lia.
    + apply Nat.ltb_ge in Ea.
      destruct (midpoint (drop p a) (drop p b)) as [m'|] eqn:Em; [|discriminate].
      cbn [go_bind] in Eq. injection Eq as ->.
      apply IH in Em; [|rewrite !length_drop; lia].
      rewrite !length_drop in Em.
      rewrite length_app, length_take by lia. lia.
  - clear Ep.
    destruct (1 <? _ - _) eqn:C3.
    + destruct (digit_at _) as [c|] eqn:Ec; [|discriminate].
      cbn [go_bind] in Eq. injection Eq as ->.
      rewrite (digit_at_inv _ _ Ec). simpl. lia.
    + destruct (1 <? len b) eqn:Cl.
      * injection Eq as ->. destruct b as [|b0 b']; simpl; lia.
      * destruct (digit_at _) as [c|] eqn:Ec; [|discriminate].
        destruct (midpoint (match a with String _ a' => a' | "" => "" end) "")
          as [m'|] eqn:Em; [|discriminate].
        cbn [go_bind] in Eq. injection Eq as ->.
        rewrite (digit_at_inv _ _ Ec). cbn [String.length append].
        apply Z.ltb_ge in Cl. unfold len in Cl.
        destruct a as [|a0 a'].
        -- destruct b as [|b0 b'].
           ++ discriminate C3.
           ++ apply IH in Em; [|cbn [String.length] in *; lia].
              cbn [String.length] in *. lia.
        -- apply IH in Em; [|cbn [String.length] in *; lia].
           cbn [String.length] in *. lia.
Qed.

Lemma midpoint_length (a b m : string) :
  midpoint a b = Ret m ->
  len m <= Z.max (len a) (len b) + 1.
Proof.
  intros E.
  pose proof (midpoint_length_aux (S (String.length a + String.length b)) a b m
                ltac:(lia) E).
  unfold len. lia.
Qed.

Lemma incrementInt_length (x i : string) :
  valid_int x -> base62 x = true -> incrementInt x = Ret (i, nil_err) ->
  len i <= len x + 1.
Proof.
  intros V B E.
  destruct (validateInt_inv x V) as (h & ds & n & -> & G & L).
  pose proof B as B0. simpl in B0. apply andb_true_iff in B0 as [Bh Bd].
  destruct (incr_loop_spec ds Bd) as (ds' & carry & El & Ll & Bd' & Ht & Hf).
  destruct carry.
  - destruct (Ht eq_refl) as [Hz H0].
    remember (String.length ds) as m eqn:Em. subst ds. clear Em Ht Hf.
    destruct (Ascii.eqb_spec h "Z") as [->|NZ].
    { unfold incrementInt in E. rewrite V in E. cbn [go_bind] in E.
      rewrite (Split_base62 _ B) in E. cbn [singles] in E.
      rewrite incr_loop_zs in E. cbn [go_bind] in E. simpl in E.
      injection E as <-. unfold len. simpl. lia. }
    destruct (Ascii.eqb_spec h "z") as [->|Nz].
    { unfold incrementInt in E. rewrite V in E. cbn [go_bind] in E.
      rewrite (Split_base62 _ B) in E. cbn [singles] in E.
      rewrite incr_loop_zs in E. cbn [go_bind] in E. simpl in E.
      injection E as <-. unfold len. simpl. lia. }
    destruct (incrementInt_carry h _ V Nz NZ) as (E2 & _).
    rewrite E in E2. injection E2 as ->.
    unfold len. cbn [String.length]. rewrite length_rep.
    destruct (is_lower _).
    + rewrite length_app, length_rep. simpl. lia.
    + destruct m; cbn [rep String.length]; rewrite ?length_rep; lia.
  - unfold incrementInt in E. rewrite V in E. cbn [go_bind] in E.
    rewrite (Split_base62 _ B) in E. cbn [singles] in E.
    rewrite El in E. cbn [go_bind] in E. rewrite Join_singles in E.
    injection E as <-. unfold len. cbn [String.length append]. lia.
Qed.

Lemma decrementInt_length (x r : string) :
  valid_int x -> base62 x = true -> decrementInt x = Ret (r, nil_err) ->
  len r <= len x + 1.
Proof.
  intros V B E.
  destruct (validateInt_inv x V) as (h & ds & n & -> & G & L).
  pose proof B as B0. simpl in B0. apply andb_true_iff in B0 as [Bh Bd].
  destruct (decr_loop_spec ds Bd) as (ds' & borrow & El & Ll & Bd' & Ht & Hf).
  destruct borrow.
  - destruct (Ht eq_refl) as [Hz H0].
    remember (String.length ds) as m eqn:Em. subst ds. clear Em Ht Hf.
    destruct (Ascii.eqb_spec h "a") as [->|Na].
    { unfold decrementInt in E. rewrite V in E. cbn [go_bind] in E.
      rewrite (Split_base62 _ B) in E. cbn [singles] in E.
      rewrite decr_loop_zeros in E. cbn [go_bind] in E. simpl in E.
      injection E as <-. unfold len. simpl. lia. }
    destruct (Ascii.eqb_spec h "A") as [->|NA].
    { unfold decrementInt in E. rewrite V in E. cbn [go_bind] in E.
      rewrite (Split_base62 _ B) in E. cbn [singles] in E.
      rewrite decr_loop_zeros in E. cbn [go_bind] in E. simpl in E.
      injection E as <-. unfold len. simpl. lia. }
    destruct (decrementInt_borrow h _ V Na NA) as (E2 & _).
    rewrite E in E2. injection E2 as ->.
    unfold len. cbn [String.length]. rewrite length_rep.
    destruct (is_upper _).
    + rewrite length_app, length_rep. simpl. lia.
    + destruct m; cbn [rep String.length]; rewrite ?length_rep; lia.
  - unfold decrementInt in E. rewrite V in E. cbn [go_bind] in E.
    rewrite (Split_base62 _ B) in E. cbn [singles] in E.
    rewrite El in E. cbn [go_bind] in E. rewrite Join_singles in E.
    injection E as <-. unfold len. cbn [String.length append]. lia.
Qed.

Lemma getIntPart_inv (k ip : string) :
  getIntPart k = Ret (ip, nil_err) ->
  valid_int ip /\ k = ip ++ drop (String.length ip) k.
Proof.
  intros G. destruct k as [|h r]; [discriminate G|].
  destruct (getIntPart_nonempty (String h r)) as [(ip' & G' & V & D)|(e & G')];
    [discriminate| |congruence].
  rewrite G in G'. injection G' as <-. auto.
Qed.

(** X5: a key that [KeyBetween] returns between base-62 bounds, not both
    empty, is at most one byte longer than the longer bound. *)
Theorem KeyBetween_length (a b m : string)
  (Ba : base62 a = true) (Bb : base62 b = true)
  (N : a <> "" \/ b <> "")
  (E : KeyBetween a b = Ret (m, nil_err)) :
  len m <= Z.max (len a) (len b) + 1.
Proof.
  unfold KeyBetween, check_key in E.
  assert (Hsplit : forall k ip, base62 k = true -> getIntPart k = Ret (ip, nil_err) ->
            valid_int ip /\ base62 ip = true /\
            len k = len ip + len (drop (String.length ip) k)).
  { intros k ip Bk G. destruct (getIntPart_inv k ip G) as [V D].
    split; [exact V|]. split.
    - rewrite D, base62_app in Bk. now apply andb_true_iff in Bk as [Bk _].
    - rewrite D at 1. unfold len. rewrite length_app. lia. }
  destruct (String.eqb_spec a "") as [->|Na];
    destruct (String.eqb_spec b "") as [->|Nb]; cbn [negb andb] in E.
  - destruct N; congruence.
  - destruct (validateOrderKey b) as [[e|]|]; try discriminate E. cbn [go_bind] in E.
    destruct (getIntPart b) as [[ib [e|]]|] eqn:G; try discriminate E. cbn [go_try] in E.
    destruct (Hsplit b ib Bb G) as (Vi & Bi & Lk).
    destruct (String.eqb ib smallestInt).
    + destruct (midpoint "" _) as [m'|] eqn:Em; [|discriminate E].
      cbn [go_bind] in E. injection E as <-.
      apply midpoint_length in Em. unfold len in *. rewrite length_app.
      cbn [String.length] in *. lia.
    + destruct (str_ltb ib b); [injection E as <-; unfold len in *; cbn [String.length] in *; lia|].
      destruct (decrementInt ib) as [[res [e|]]|] eqn:Ed; try discriminate E.
      cbn [go_try] in E. destruct (String.eqb res ""); [discriminate E|].
      injection E as <-. pose proof (decrementInt_length ib res Vi Bi Ed).
      unfold len in *. lia.
  - destruct (validateOrderKey a) as [[e|]|]; try discriminate E. cbn [go_bind] in E.
    destruct (getIntPart a) as [[ia [e|]]|] eqn:G; try discriminate E. cbn [go_try] in E.
    destruct (Hsplit a ia Ba G) as (Vi & Bi & Lk).
    destruct (incrementInt ia) as [[i [e|]]|] eqn:Ei; try discriminate E.
    cbn [go_try] in E. pose proof (incrementInt_length ia i Vi Bi Ei).
    destruct (String.eqb i "").
    + destruct (midpoint _ "") as [m'|] eqn:Em; [|discriminate E].
      cbn [go_bind] in E. injection E as <-.
      apply midpoint_length in Em. unfold len in *. rewrite length_app.
      cbn [String.length] in *. lia.
    + injection E as <-. unfold len in *. lia.
  - destruct (validateOrderKey a) as [[e|]|]; try discriminate E. cbn [go_bind] in E.
    destruct (validateOrderKey b) as [[e|]|]; try discriminate E. cbn [go_bind] in E.
    destruct (str_geb a b); [discriminate E|].
    destruct (getIntPart a) as [[ia [e|]]|] eqn:Ga; try discriminate E. cbn [go_try] in E.
    destruct (getIntPart b) as [[ib [e|]]|] eqn:Gb; try discriminate E. cbn [go_try] in E.
    destruct (Hsplit a ia Ba Ga) as (Via & Bia & Lka).
    destruct (Hsplit b ib Bb Gb) as (Vib & Bib & Lkb).
    destruct (String.eqb_spec ia ib) as [<-|Nab].
    + destruct (midpoint _ _) as [m'|] eqn:Em; [|discriminate E].
      cbn [go_bind] in E. injection E as <-.
      apply midpoint_length in Em. unfold len in *. rewrite length_app. lia.
    + destruct (incrementInt ia) as [[i [e|]]|] eqn:Ei; try discriminate E.
      cbn [go_try] in E. pose proof (incrementInt_length ia i Via Bia Ei).
      destruct (String.eqb i ""); [discriminate E|].
      destruct (str_ltb i b); [injection E as <-; unfold len in *; lia|].
      destruct (midpoint _ "") as [m'|] eqn:Em; [|discriminate E].
      cbn [go_bind] in E. injection E as <-.
      apply midpoint_length in Em. unfold len in *. rewrite length_app.
      cbn [String.length] in *. lia.
Qed.

Lemma KeyBetween_length_witness : len "a0V" <= Z.max (len "a0") (len "a1") + 1.
Proof. apply (KeyBetween_length "a0" "a1" "a0V"); try reflexivity. now left. Defined.

(** ** The number of keys, on arbitrary bounds *)

Lemma chain_up_length (count : nat) : forall c b acc r,
  chain_up count c b acc = Ret r ->
  n_keys_or_error (List.length acc + count) r.
Proof.
  induction count as [|count IH]; intros c b acc r E; cbn [chain_up] in E.
  - injection E as <-. simpl. lia.
  - destruct (KeyBetween c b) as [[c' [e|]]|]; cbn [go_tryl] in E; try discriminate E.
    + injection E as <-. reflexivity.
    + apply IH in E. rewrite List.length_app in E. cbn [List.length] in E.
      now replace (List.length acc + S count)%nat
        with (List.length acc + 1 + count)%nat by lia.
Qed.

Lemma chain_down_length (count : nat) : forall a c acc r,
  chain_down count a c acc = Ret r ->
  n_keys_or_error (List.length acc + count) r.
Proof.
  induction count as [|count IH]; intros a c acc r E; cbn [chain_down] in E.
  - injection E as <-. simpl. lia.
  - destruct (KeyBetween a c) as [[c' [e|]]|]; cbn [go_tryl] in E; try discriminate E.
    + injection E as <-. reflexivity.
    + apply IH in E. rewrite List.length_app in E. cbn [List.length] in E.
      now replace (List.length acc + S count)%nat
        with (List.length acc + 1 + count)%nat by lia.
Qed.

Lemma NKeysBetween_fuel_length (fuel : nat) : forall a b n r,
  NKeysBetween_fuel fuel a b n = Some (Ret r) -> n_keys_or_error n r.
Proof.
  induction fuel as [|fuel IH]; intros a b n r E; [discriminate E|].
  cbn [NKeysBetween_fuel] in E.
  destruct (n =? 0)%nat eqn:E0.
  { apply Nat.eqb_eq in E0. injection E as <-. now subst n. }
  destruct (n =? 1)%nat eqn:E1.
  { apply Nat.eqb_eq in E1. subst n.
    destruct (KeyBetween a b) as [[c [e|]]|]; cbn [go_tryl] in E; try discriminate E;
      injection E as <-; reflexivity. }
  apply Nat.eqb_neq in E0, E1.
  destruct (String.eqb b "").
  { destruct (KeyBetween a b) as [[c [e|]]|]; cbn [go_tryl] in E; try discriminate E.
    - injection E as <-. reflexivity.
    - injection E as E. apply chain_up_length in E. cbn [List.length] in E.
      now replace (1 + (n - 1))%nat with n in E by lia. }
  destruct (String.eqb a "").
  { destruct (KeyBetween a b) as [[c [e|]]|]; cbn [go_tryl] in E; try discriminate E.
    - injection E as <-. reflexivity.
    - injection E as E.
      destruct (chain_down (n - 1) a c [c]) as [[ks [e|]]|] eqn:Ec;
        cbn [go_bind] in E; try discriminate E; injection E as <-; [reflexivity|].
      apply chain_down_length in Ec. cbn [List.length n_keys_or_error] in *.
      unfold reverse. rewrite length_rev. lia. }
  destruct (KeyBetween a b) as [[c [e|]]|]; try discriminate E.
  { injection E as <-. reflexivity. }
  destruct (NKeysBetween_fuel fuel a c (n / 2)) as [[[r1 [e|]]|]|] eqn:F1;
    try discriminate E.
  { injection E as <-. reflexivity. }
  destruct (NKeysBetween_fuel fuel c b (n - n / 2 - 1)) as [[[r2 [e|]]|]|] eqn:F2;
    try discriminate E.
  { injection E as <-. reflexivity. }
  injection E as <-. apply IH in F1, F2. cbn [n_keys_or_error] in *.
  rewrite !List.length_app. cbn [List.length].
  pose proof (half_lt n E0). lia.
Qed.

Section JitterLength.

Context {J : Type} (IntnRange : J -> Z -> Z -> Z * J) (jitterRange : Z).

Lemma chain_up_jitter_length (count : nat) : forall c b acc j r j',
  chain_up_jitter J IntnRange count c b jitterRange acc j = Ret (r, j') ->
  n_keys_or_error (List.length acc + count) r.
Proof.
  induction count as [|count IH]; intros c b acc j r j' E; cbn [chain_up_jitter] in E.
  - injection E as <- _. simpl. lia.
  - destruct (KeyBetweenJitter IntnRange c b j jitterRange) as [[[c' [e|]] j1]|];
      cbn [go_trylj] in E; try discriminate E.
    + injection E as <- _. reflexivity.
    + apply IH in E. rewrite List.length_app in E. cbn [List.length] in E.
      now replace (List.length acc + S count)%nat
        with (List.length acc + 1 + count)%nat by lia.
Qed.

Lemma chain_down_jitter_length (count : nat) : forall a c acc j r j',
  chain_down_jitter J IntnRange count a c jitterRange acc j = Ret (r, j') ->
  n_keys_or_error (List.length acc + count) r.
Proof.
  induction count as [|count IH]; intros a c acc j r j' E; cbn [chain_down_jitter] in E.
  - injection E as <- _. simpl. lia.
  - destruct (KeyBetweenJitter IntnRange a c j jitterRange) as [[[c' [e|]] j1]|];
      cbn [go_trylj] in E; try discriminate E.
    + injection E as <- _. reflexivity.
    + apply IH in E. rewrite List.length_app in E. cbn [List.length] in E.
      now replace (List.length acc + S count)%nat
        with (List.length acc + 1 + count)%nat by lia.
Qed.

Lemma NKeysBetweenJitter_fuel_length (fuel : nat) : forall a b n j r j',
  NKeysBetweenJitter_fuel J IntnRange fuel a b n j jitterRange = Some (Ret (r, j')) ->
  n_keys_or_error n r.
Proof.
  induction fuel as [|fuel IH]; intros a b n j r j' E; [discriminate E|].
  cbn [NKeysBetweenJitter_fuel] in E.
  destruct (n =? 0)%nat eqn:E0.
  { apply Nat.eqb_eq in E0. injection E as <- _. now subst n. }
  destruct (n =? 1)%nat eqn:E1.
  { apply Nat.eqb_eq in E1. subst n.
    destruct (KeyBetweenJitter IntnRange a b j jitterRange) as [[[c [e|]] j1]|];
      cbn [go_trylj] in E; try discriminate E; injection E as <- _; reflexivity. }
  apply Nat.eqb_neq in E0, E1.
  destruct (String.eqb b "").
  { destruct (KeyBetweenJitter IntnRange a b j jitterRange) as [[[c [e|]] j1]|];
      cbn [go_trylj] in E; try discriminate E.
    - injection E as <- _. reflexivity.
    - injection E as E. apply chain_up_jitter_length in E. cbn [List.length] in E.
      now replace (1 + (n - 1))%nat with n in E by lia. }
  destruct (String.eqb a "").
  { destruct (KeyBetweenJitter IntnRange a b j jitterRange) as [[[c [e|]] j1]|];
      cbn [go_trylj] in E; try discriminate E.
    - injection E as <- _. reflexivity.
    - injection E as E.
      destruct (chain_down_jitter J IntnRange (n - 1) a c jitterRange [c] j1)
        as [[[ks [e|]] j2]|] eqn:Ec;
        cbn [go_bind] in E; try discriminate E; injection E as <- _; [reflexivity|].
      apply chain_down_jitter_length in Ec. cbn [List.length n_keys_or_error] in *.
      unfold reverse. rewrite length_rev. lia. }
  destruct (KeyBetweenJitter IntnRange a b j jitterRange) as [[[c [e|]] j1]|];
    try discriminate E.
  { injection E as <- _. reflexivity. }
  destruct (NKeysBetweenJitter_fuel J IntnRange fuel a c (n / 2) j1 jitterRange)
    as [[[[r1 [e|]] j2]|]|] eqn:F1; try discriminate E.
  { injection E as <- _. reflexivity. }
  destruct (NKeysBetweenJitter_fuel J IntnRange fuel c b (n - n / 2 - 1) j2 jitterRange)
    as [[[[r2 [e|]] j3]|]|] eqn:F2; try discriminate E.
  { injection E as <- _. reflexivity. }
  injection E as <- _. apply IH in F1, F2. cbn [n_keys_or_error] in *.
  rewrite !List.length_app. cbn [List.length].
  pose proof (half_lt n E0). lia.
Qed.

End JitterLength.

(** X6: whatever the bounds (valid or not, over the alphabet or not) and
    whatever the jitter source, when [NKeysBetween] and [NKeysBetweenJitter]
    return, it is with exactly [n] keys and no error, or with no key and an
    error. *)
Theorem NKeysBetween_count :
  (forall a b n ks e, NKeysBetween a b n = Ret (ks, e) ->
     match e with None => List.length ks = n | Some _ => ks = [] end) /\
  (forall (J : Type) (IntnRange : J -> Z -> Z -> Z * J) a b n j jitterRange ks e j',
     NKeysBetweenJitter IntnRange a b n j jitterRange = Ret ((ks, e), j') ->
     match e with None => List.length ks = n | Some _ => ks = [] end).
Proof.
  split.
  - intros a b n ks e E. unfold NKeysBetween in E.
    destruct (NKeysBetween_fuel (S n) a b n) as [r|] eqn:F; [|discriminate E].
    subst r. apply NKeysBetween_fuel_length in F. exact F.
  - intros J IntnRange a b n j jitterRange ks e j' E. unfold NKeysBetweenJitter in E.
    destruct (NKeysBetweenJitter_fuel J IntnRange (S n) a b n j jitterRange) as [r|] eqn:F;
      [|discriminate E].
    subst r. apply NKeysBetweenJitter_fuel_length in F. exact F.
Qed.

(** ** How [NKeysBetween] is made of [KeyBetween] *)




(** ** The format of the keys *)

(** X1: the format that the validators accept.  An integer part is a head
    letter followed by as many bytes as the head declares: 'a' + k and
    'Z' - k declare k + 1 of them.  A key is an integer part followed by a
    fraction that does not end in '0', and is not the reserved
    [smallestInt]; [getIntPart] reads the integer part back from any string
    that starts with it.  The validators panic on the empty string (they
    index its first byte) and on no other. *)
Theorem order_key_format :
  (forall h ds,
     valid_int (String h ds) <->
     (is_lower h = true /\ len ds = code h - 96) \/
     (is_upper h = true /\ len ds = 91 - code h)) /\
  (forall k,
     valid_key k <->
     exists ip fp, k = ip ++ fp /\ valid_int ip /\ ends_in_0 fp = false /\
                   k <> smallestInt) /\
  (forall ip fp, valid_int ip -> getIntPart (ip ++ fp) = Ret (ip, nil_err)) /\
  (forall k, (validateOrderKey k = Panic <-> k = "") /\
             (validateInt k = Panic <-> k = "") /\
             (getIntPart k = Panic <-> k = "")).
Proof.
  split; [|split; [|split]].
  - intros h ds. unfold is_lower, is_upper, between. split.
    + intros V. destruct (validateInt_inv _ V) as (h' & ds' & n & E & G & L).
      injection E as <- <-.
      destruct (getIntLen_spec h) as [(n0 & E0 & R)|(e & E0 & _)]; [|congruence].
      rewrite G in E0. injection E0 as <-.
      unfold len in *. cbn [String.length] in L.
      destruct R as [[R ->]|[R ->]]; [left|right]; split; try lia;
        apply andb_true_iff; split; apply Z.leb_le; lia.
    + intros H.
      assert (G : exists n, getIntLen h = (n, nil_err) /\ len (String h ds) = n).
      { unfold getIntLen, len in *. cbn [String.length].
        change (code "a") with 97. change (code "z") with 122.
        change (code "A") with 65. change (code "Z") with 90.
        destruct H as [[H L]|[H L]]; apply andb_true_iff in H as [H1 H2];
          apply Z.leb_le in H1, H2.
        - replace ((97 <=? code h) && (code h <=? 122)) with true
            by (symmetry; apply andb_true_iff; split; apply Z.leb_le; lia).
          eexists. split; [reflexivity|lia].
        - replace ((97 <=? code h) && (code h <=? 122)) with false
            by (symmetry; apply andb_false_iff; left; apply Z.leb_gt; lia).
          replace ((65 <=? code h) && (code h <=? 90)) with true
            by (symmetry; apply andb_true_iff; split; apply Z.leb_le; lia).
          eexists. split; [reflexivity|lia]. }
      destruct G as (n & G & L). now apply (validateInt_intro h ds n).
  - intros k. split.
    + intros V. destruct (validateOrderKey_inv k V) as (_ & Ns & ip & G & Vi & D & Zf).
      exists ip, (drop (String.length ip) k). auto.
    + intros (ip & fp & -> & Vi & Zf & Ns). now apply validateOrderKey_intro.
  - intros ip fp V. now apply getIntPart_app.
  - intros k. destruct k as [|h r].
    + repeat split; reflexivity.
    + destruct (validateOrderKey_total (String h r)) as [r1 E1]; [discriminate|].
      destruct (validateInt_total (String h r)) as [r2 E2]; [discriminate|].
      rewrite E1, E2.
      destruct (getIntPart_nonempty (String h r)) as [(ip & E3 & _)|(e & E3)];
        try discriminate; rewrite E3; repeat split; discriminate.
Qed.

(** ** [KeyBetween] with one open bound *)

(** Above a valid key: the successor of its integer part, the fraction
    dropped. *)
Lemma KeyBetween_above (a ia i : string) :
  valid_key a -> getIntPart a = Ret (ia, nil_err) ->
  incrementInt ia = Ret (i, nil_err) -> i <> "" ->
  KeyBetween a "" = Ret (i, nil_err).
Proof.
  intros V G E N. unfold KeyBetween.
  rewrite (check_key_ok a) by (now right). change (check_key "" ?f ?c) with c.
  assert (Na : a <> "") by (intros ->; discriminate V).
  destruct (String.eqb_spec a "") as [|_]; [contradiction|].
  change (String.eqb "" "") with true. cbn [negb andb].
  rewrite G. cbn [go_try]. rewrite E. cbn [go_try].
  destruct (String.eqb_spec i "") as [|_]; [contradiction|reflexivity].
Qed.

(** Below a valid key with a fraction: its integer part. *)
Lemma KeyBetween_below_fraction (b ib : string) :
  valid_key b -> getIntPart b = Ret (ib, nil_err) -> ib <> smallestInt ->
  ib <> b -> KeyBetween "" b = Ret (ib, nil_err).
Proof.
  intros V G Ns Nb. unfold KeyBetween.
  rewrite (check_key_ok b) by (now right). change (check_key "" ?f ?c) with c.
  assert (Ne : b <> "") by (intros ->; discriminate V).
  destruct (String.eqb_spec b "") as [|_]; [contradiction|].
  change (String.eqb "" "") with true. cbn [negb andb].
  rewrite G. cbn [go_try].
  destruct (String.eqb_spec ib smallestInt) as [|_]; [contradiction|].
  destruct (getIntPart_inv b ib G) as [_ D].
  assert (L : str_lt ib b).
  { remember (drop (String.length ib) b) as fb eqn:Ef. rewrite D.
    apply str_lt_app_r. intros ->. apply Nb. rewrite D. symmetry. apply app_nil_r. }
  apply str_ltb_lt in L. now rewrite L.
Qed.

(** Below a valid key without a fraction: the predecessor of the key. *)
Lemma KeyBetween_below_integer (b r : string) :
  valid_key b -> getIntPart b = Ret (b, nil_err) ->
  decrementInt b = Ret (r, nil_err) -> r <> "" ->
  KeyBetween "" b = Ret (r, nil_err).
Proof.
  intros V G E N. unfold KeyBetween.
  rewrite (check_key_ok b) by (now right). change (check_key "" ?f ?c) with c.
  assert (Ne : b <> "") by (intros ->; discriminate V).
  destruct (String.eqb_spec b "") as [|_]; [contradiction|].
  change (String.eqb "" "") with true. cbn [negb andb].
  rewrite G. cbn [go_try].
  destruct (String.eqb_spec b smallestInt) as [Es|_].
  { apply validateOrderKey_inv in V. tauto. }
  assert (L : str_ltb b b = false).
  { destruct (str_ltb b b) eqn:C; [|reflexivity].
    apply str_ltb_lt in C. now apply str_lt_irrefl in C. }
  rewrite L, E. cbn [go_try].
  destruct (String.eqb_spec r "") as [|_]; [contradiction|reflexivity].
Qed.



(** X4: from a valid base-62 key without a fraction, a step up with
    [KeyBetween(k, "")] followed by a step down with [KeyBetween("", _)]
    returns the key; so does a step down followed by a step up, unless the
    step down has reached the reserved [smallestInt]. *)
Theorem KeyBetween_up_down (k : string)
  (V : valid_key k) (B : base62 k = true)
  (G : getIntPart k = Ret (k, nil_err)) :
  (exists m, KeyBetween k "" = Ret (m, nil_err) /\
             KeyBetween "" m = Ret (k, nil_err)) /\
  (exists m, KeyBetween "" k = Ret (m, nil_err) /\
             (m <> smallestInt -> KeyBetween m "" = Ret (k, nil_err))).
Proof.
  destruct (getIntPart_inv k k G) as [Vi _].
  assert (Nk : k <> "") by (intros ->; discriminate V).
  assert (Ns : k <> smallestInt) by (apply validateOrderKey_inv in V; tauto).
  split.
  - destruct (incrementInt_spec k Vi B)
      as (i & Ei & [[-> Ez]|(Vn & Bn & Nn & Nsn & Ln & _)]).
    + (* the largest integer part: the key is extended *)
      destruct (midpoint_spec "" "" eq_refl eq_refl eq_refl (or_introl eq_refl))
        as (m & Em & Bm & Zm & Nm & _).
      exists (k ++ m). split.
      * unfold KeyBetween. rewrite (check_key_ok k) by (now right).
        change (check_key "" ?f ?c) with c.
        destruct (String.eqb_spec k "") as [|_]; [contradiction|].
        change (String.eqb "" "") with true. cbn [negb andb].
        rewrite G. cbn [go_try]. rewrite Ei. cbn [go_try].
        change (String.eqb "" "") with true. cbv iota.
        assert (drop (String.length k) k = "") as ->
          by (apply length_zero; rewrite length_drop; lia).
        rewrite Em. reflexivity.
      * apply KeyBetween_below_fraction.
        -- now apply valid_key_app.
        -- now apply getIntPart_app.
        -- exact Ns.
        -- intros C. apply Nm. apply (app_inv_head k). now rewrite app_nil_r.
    + exists i. split; [now apply (KeyBetween_above k k i)|].
      apply KeyBetween_below_integer.
      * now apply valid_key_int.
      * rewrite <- (app_nil_r i) at 1. now apply getIntPart_app.
      * now apply incrementInt_decrementInt.
      * exact Nk.
  - destruct (decrementInt_spec k Vi B) as (r & Er & [[_ Es]|(Vr & Br & Nr & Lr & _ & Hs)]);
      [congruence|].
    exists r. split; [now apply KeyBetween_below_integer|].
    intros Nrs. apply (KeyBetween_above r r k).
    + now apply valid_key_int.
    + rewrite <- (app_nil_r r) at 1. now apply getIntPart_app.
    + now apply decrementInt_incrementInt.
    + exact Nk.
Qed.

Lemma KeyBetween_up_down_witness :
  (exists m, KeyBetween "az" "" = Ret (m, nil_err) /\
             KeyBetween "" m = Ret ("az", nil_err)) /\
  (exists m, KeyBetween "" "az" = Ret (m, nil_err) /\
             (m <> smallestInt -> KeyBetween m "" = Ret ("az", nil_err))).
Proof. apply (KeyBetween_up_down "az"); reflexivity. Defined.

(** ** The successor among the integer parts *)

Lemma rep_0_min (s : string) :
  base62 s = true -> ~ str_lt s (rep "0" (String.length s)).
Proof.
  induction s as [|c s IH]; intros B H; [now apply str_lt_nil_r in H|].
  simpl in B. apply andb_true_iff in B as [Ic B].
  simpl in H. apply str_lt_cons in H. destruct H as [H|[_ H]]; [|now apply IH].
  apply is62_code in Ic. change (code "0") with 48 in H. lia.
Qed.

(** No string of base-62 digits of the same length lies between the
    digits and what the carry loop makes of them. *)
Lemma incr_loop_next (ds : string) : forall ds' y,
  base62 ds = true -> incr_loop (singles ds) = Ret (singles ds', false) ->
  base62 y = true -> String.length y = String.length ds ->
  ~ (str_lt ds y /\ str_lt y ds').
Proof.
  induction ds as [|c r IH]; intros ds' y B E By Ly [H1 H2]; [discriminate|].
  simpl in B. apply andb_true_iff in B as [Bc Br].
  destruct y as [|yc yr]; [discriminate Ly|].
  simpl in By. apply andb_true_iff in By as [Byc Byr].
  cbn [String.length] in Ly. injection Ly as Ly.
  destruct (incr_loop_spec r Br) as (r' & carry & Er & L & B' & Ht & Hf).
  cbn [singles incr_loop] in E. rewrite Er in E. cbn [go_bind] in E.
  destruct (is62_digit c Bc) as (R & Ec & Sc).
  apply str_lt_cons in H1.
  destruct carry.
  - destruct (Ht eq_refl) as [Hz H0].
    rewrite Index_single_digit in E. change (len base62Digits) with 62 in E.
    destruct (digit c + 1 =? 62) eqn:D; [discriminate|].
    apply Z.eqb_neq in D. rewrite digit_at_spec in E by lia.
    cbn [go_bind] in E. rewrite string_of_digit in E by lia.
    injection E as E.
    change (String (byte_of (code_of_digit (digit c + 1))) "" :: singles r')
      with (singles (String (byte_of (code_of_digit (digit c + 1))) r')) in E.
    apply singles_inj in E. subst ds'.
    destruct (code_of_digit_range (digit c + 1)) as [Bn Dn]; [lia|].
    apply str_lt_cons in H2.
    destruct H1 as [H1|[-> H1]].
    + apply (digit_mono c yc Bc Byc) in H1.
      destruct H2 as [H2|[-> H2]].
      * apply (digit_mono yc _ Byc Bn) in H2. lia.
      * rewrite H0, <- Ly in H2. now apply (rep_0_min yr).
    + rewrite Hz, <- Ly in H1. now apply (rep_z_max yr).
  - injection E as E.
    change (String c "" :: singles r') with (singles (String c r')) in E.
    apply singles_inj in E. subst ds'.
    apply str_lt_cons in H2.
    destruct H1 as [H1|[-> H1]]; destruct H2 as [H2|[E2 H2]]; try lia.
    + subst yc. lia.
    + apply (IH r' yr Br Er Byr Ly). auto.
Qed.

(** Valid integer parts with the same head have the same length. *)
Lemma valid_int_same_head (h : ascii) (d1 d2 : string) :
  valid_int (String h d1) -> valid_int (String h d2) ->
  String.length d1 = String.length d2.
Proof.
  intros V1 V2.
  destruct (validateInt_inv _ V1) as (h1 & x1 & n1 & E1 & G1 & L1).
  destruct (validateInt_inv _ V2) as (h2 & x2 & n2 & E2 & G2 & L2).
  injection E1 as <- <-. injection E2 as <- <-.
  rewrite G1 in G2. injection G2 as <-.
  unfold len in *. cbn [String.length] in *. lia.
Qed.

Lemma valid_int_head (h : ascii) (ds : string) :
  valid_int (String h ds) -> 65 <= code h <= 90 \/ 97 <= code h <= 122.
Proof.
  intros V. destruct (validateInt_inv _ V) as (h1 & x1 & n1 & E1 & G1 & L1).
  injection E1 as <- <-.
  destruct (getIntLen_spec h) as [(n0 & E0 & R)|(e & E0 & _)]; [|congruence].
  lia.
Qed.

Lemma incrementInt_next (x i y : string) :
  valid_int x -> base62 x = true -> incrementInt x = Ret (i, nil_err) -> i <> "" ->
  valid_int y -> base62 y = true -> ~ (str_lt x y /\ str_lt y i).
Proof.
  intros V B E Ni Vy By [H1 H2].
  destruct (incrementInt_spec x V B) as (i' & E' & H).
  rewrite E in E'. injection E' as <-.
  destruct H as [[-> _]|(Vi & Bi & _)]; [congruence|].
  destruct (validateInt_inv x V) as (h & ds & n & -> & G & L).
  destruct (validateInt_inv y Vy) as (hy & dy & ny & -> & Gy & Ly).
  pose proof B as B0. simpl in B0. apply andb_true_iff in B0 as [Bh Bd].
  pose proof By as By0. simpl in By0. apply andb_true_iff in By0 as [Bhy Bdy].
  destruct (incr_loop_spec ds Bd) as (ds' & carry & El & Ll & Bd' & Ht & Hf).
  apply str_lt_cons in H1.
  destruct carry.
  - destruct (Ht eq_refl) as [Hz H0].
    remember (String.length ds) as m eqn:Em. subst ds. clear Em Ht Hf.
    assert (Hsame : hy <> h).
    { intros ->. destruct H1 as [H1|[_ H1]]; [lia|].
      pose proof (valid_int_same_head h _ _ V Vy) as Lh. rewrite length_rep in Lh.
      rewrite Lh in H1. now apply (rep_z_max dy). }
    destruct H1 as [H1|[<- _]]; [|congruence].
    destruct (Ascii.eqb_spec h "Z") as [->|NZ].
    { assert (m = 1%nat) as ->.
      { unfold len in L. cbn [String.length] in L. rewrite length_rep in L.
        unfold getIntLen in G. simpl in G. injection G as <-. lia. }
      simpl in E. injection E as <-.
      apply str_lt_cons in H2. change (code "Z") with 90 in H1.
      pose proof (valid_int_head _ _ Vy) as Hh.
      destruct H2 as [H2|[-> H2]].
      - change (code "a") with 97 in H2. lia.
      - pose proof (valid_int_same_head "a" dy "0" Vy eq_refl) as Lh.
        apply (rep_0_min dy Bdy). rewrite Lh. exact H2. }
    destruct (Ascii.eqb_spec h "z") as [->|Nz].
    { apply is62_code in Bhy. change (code "z") with 122 in H1. lia. }
    destruct (incrementInt_carry h _ V Nz NZ) as (E2 & Ch & _).
    rewrite E in E2. injection E2 as ->.
    apply str_lt_cons in H2. rewrite Ch in H2.
    destruct H2 as [H2|[-> H2]]; [lia|].
    match type of Vi with valid_int (String _ ?t) =>
      pose proof (valid_int_same_head _ dy t Vy Vi) as Lh;
      assert (Et : t = rep "0" (String.length t))
    end.
    { destruct (is_lower _).
      - rewrite rep_snoc. now rewrite length_rep.
      - destruct m as [|m]; cbn [rep drop]; rewrite ?length_rep; reflexivity. }
    rewrite Et, <- Lh in H2. now apply (rep_0_min dy Bdy).
  - unfold incrementInt in E. rewrite V in E. cbn [go_bind] in E.
    rewrite (Split_base62 _ B) in E. cbn [singles] in E.
    rewrite El in E. cbn [go_bind] in E. rewrite Join_singles in E.
    injection E as <-. change (String h "" ++ ds') with (String h ds') in *.
    apply str_lt_cons in H2.
    destruct H1 as [H1|[<- H1]]; destruct H2 as [H2|[E2 H2]]; try lia.
    + subst hy. lia.
    + apply (incr_loop_next ds ds' dy Bd El Bdy); [|auto].
      symmetry. apply (valid_int_same_head h _ _ V Vy).
Qed.

(** X20: on the valid integer parts over the base-62 alphabet, [incrementInt]
    returns the next one and [decrementInt] the previous one in byte-wise
    order: the result is above (below) the argument and no valid integer
    part over the alphabet lies strictly between them. *)
Theorem incrementInt_successor (x : string)
  (V : valid_int x) (B : base62 x = true) :
  (forall i, incrementInt x = Ret (i, nil_err) -> i <> "" ->
     str_lt x i /\
     forall y, valid_int y -> base62 y = true -> ~ (str_lt x y /\ str_lt y i)) /\
  (forall r, decrementInt x = Ret (r, nil_err) -> r <> "" ->
     str_lt r x /\
     forall y, valid_int y -> base62 y = true -> ~ (str_lt r y /\ str_lt y x)).
Proof.
  split.
  - intros i E N. split.
    + destruct (incrementInt_spec x V B) as (i' & E' & H).
      rewrite E in E'. injection E' as <-.
      destruct H as [[-> _]|(_ & _ & _ & _ & Ln & _)]; [congruence|].
      specialize (Ln ""). now rewrite app_nil_r in Ln.
    + intros y Vy By. now apply (incrementInt_next x i y).
  - intros r E N.
    destruct (decrementInt_spec x V B) as (r' & E' & H).
    rewrite E in E'. injection E' as <-.
    destruct H as [[-> _]|(Vr & Br & _ & Lr & _)]; [congruence|].
    split; [exact Lr|].
    intros y Vy By. apply (incrementInt_next r x y); auto.
    + now apply decrementInt_incrementInt.
    + intros ->. discriminate V.
Qed.

Lemma incrementInt_successor_witness :
  (forall i, incrementInt "Zz" = Ret (i, nil_err) -> i <> "" ->
     str_lt "Zz" i /\
     forall y, valid_int y -> base62 y = true -> ~ (str_lt "Zz" y /\ str_lt y i)) /\
  (forall r, decrementInt "Zz" = Ret (r, nil_err) -> r <> "" ->
     str_lt r "Zz" /\
     forall y, valid_int y -> base62 y = true -> ~ (str_lt r y /\ str_lt y "Zz")).
Proof. apply (incrementInt_successor "Zz"); reflexivity. Defined.
